(** * xtbservice / xpsservice: structure builder, IR pipeline and mode classifier

    A shallow embedding of [src/xpsservice/utils.py] and [src/xtbservice/ir.py].

    - Python floats and numpy [float64] values are IEEE binary64 numbers: they
      are modelled by Rocq's primitive floats, so [nan] and [inf] behave as in
      the program (a comparison with [nan] is false, [0/0] is [nan]).
    - A Python call that can raise is a computation in the error monad [res];
      a call that reads or writes the caches or the scratch directories is a
      computation in the state-and-error monad [M] over [World].
    - RDKit, ASE, xtb, hashlib and the modules of the package that are not
      part of the sources ([settings], [cache], [conformers], [optimize]) are
      the fields of the interface [Externals]; so are the library routines
      whose result depends on the library's version or on the machine (the
      sorts of Python and numpy, BLAS products, the eigenvalue solver, the
      formatting of floats), together with what their documentation
      promises. *)

From Stdlib Require Import Floats.
From stdpp Require Import gmap strings list sorting pretty.

Set Warnings "-inexact-float".
Set Default Proof Using "Type".

(** ** Exceptions and the error monad *)

Inductive exn : Type :=
  | TooLargeError
  | AttributeError
  | TypeError
  | IndexError
  | KeyError
  | ValueError
  | UnboundLocalError
  | AssertionError
  | FileNotFoundError
  | BareException
  | ExternalError (tag : string).

Inductive res (A : Type) : Type :=
  | Ok (a : A)
  | Raise (e : exn).
Arguments Ok {A} a.
Arguments Raise {A} e.

Global Instance res_ret : MRet res := λ A a, Ok a.
Global Instance res_bind : MBind res := λ A B f m,
  match m with
  | Ok a => f a
  | Raise e => Raise e
  end.
Global Instance res_fmap : FMap res := λ A B f m,
  match m with
  | Ok a => Ok (f a)
  | Raise e => Raise e
  end.

(** [xs[i]] on a Python list or a numpy axis, for a non-negative [i]. *)
Definition index {A} (l : list A) (i : nat) : res A :=
  match l !! i with
  | Some a => Ok a
  | None => Raise IndexError
  end.

(** Index [i] may stand before index [j] when the keys [a] ascend by [lt]:
    the key at [j] is not less than the key at [i]. *)
Definition not_after {K} (lt : K → K → bool) (a : list K) (i j : nat) : Prop :=
  match a !! i, a !! j with
  | Some x, Some y => lt y x = false
  | _, _ => True
  end.
Global Instance not_after_dec {K} (lt : K → K → bool) (a : list K) (i j : nat) :
  Decision (not_after lt a i j).
Proof. unfold not_after. destruct (a !! i), (a !! j); apply _. Defined.

(** [x] may stand before [y] when floats descend: [x] is not less than [y]. *)
Definition not_less (x y : float) : Prop := PrimFloat.ltb x y = false.
Global Instance not_less_dec (x y : float) : Decision (not_less x y).
Proof. unfold not_less. apply _. Defined.

(** ** numpy on [float64] *)

Module np.

Definition gt (a b : float) : bool := PrimFloat.ltb b a.
Definition ge (a b : float) : bool := PrimFloat.leb b a.
Definition ne (a b : float) : bool := negb (PrimFloat.eqb a b).
Definition isnan (a : float) : bool := ne a a.

(** [a.sum()] and [np.sum(a)] of a one-dimensional array: numpy's pairwise
    summation. Fewer than 8 entries are added from the left; a block of 8 to
    128 entries is added in eight interleaved running sums, which are
    combined in pairs before the entries past the last multiple of eight are
    added one by one; a longer array is split in two parts (the first a
    multiple of eight long) that are summed in the same way. The result is
    added to the identity [0.0] of the reduction (only for an array of
    negative zeros alone does the sign of the sum depend on the identity
    that the version of numpy starts from). *)
Fixpoint accumulate (fuel : nat) (r a : list float) : list float :=
  match fuel, a with
  | S fuel, _ :: _ =>
      accumulate fuel (zip_with PrimFloat.add r (take 8 a)) (drop 8 a)
  | _, _ => r
  end.

Definition combine (r : list float) : float :=
  match r with
  | [r0; r1; r2; r3; r4; r5; r6; r7] =>
      (((r0 + r1) + (r2 + r3)) + ((r4 + r5) + (r6 + r7)))%float
  | _ => 0%float
  end.

Definition block_sum (a : list float) : float :=
  let n := length a in
  let main := take (n - n mod 8) a in
  let r := accumulate n (take 8 main) (drop 8 main) in
  foldl PrimFloat.add (combine r) (drop (n - n mod 8) a).

Fixpoint pairwise_sum (fuel : nat) (a : list float) : float :=
  let n := length a in
  if decide (n < 8) then foldl PrimFloat.add 0%float a
  else if decide (n ≤ 128) then block_sum a
  else
    match fuel with
    | 0 => 0%float
    | S fuel =>
        let n2 := n / 2 - (n / 2) mod 8 in
        (pairwise_sum fuel (take n2 a) + pairwise_sum fuel (drop n2 a))%float
    end.

Definition sum (a : list float) : float :=
  (0 + pairwise_sum (length a) a)%float.

(** [np.diff(a)]: [a[i+1] - a[i]]. *)
Fixpoint diff (a : list float) : list float :=
  match a with
  | x :: (y :: _) as tl => PrimFloat.sub y x :: diff tl
  | _ => []
  end.

(** The maximum of two entries as [np.max] folds it: [nan] propagates. *)
Definition maximum (a b : float) : float :=
  if isnan a then a else if isnan b then b
  else if PrimFloat.ltb a b then b else a.

(** [np.max(a)] and [a.max()]: [ValueError] on an empty array. *)
Definition max (a : list float) : res float :=
  match a with
  | [] => Raise ValueError
  | x :: tl => Ok (foldl maximum x tl)
  end.

(** [np.where(mask)[0]]: the positions of the true entries, ascending. *)
Fixpoint where_from (i : nat) (mask : list bool) : list nat :=
  match mask with
  | [] => []
  | b :: tl => if b then i :: where_from (S i) tl else where_from (S i) tl
  end.
Definition where_ (mask : list bool) : list nat := where_from 0 mask.

(** numpy's order on [float64]: [nan] sorts last. *)
Definition float_lt (a b : float) : bool :=
  PrimFloat.ltb a b || (isnan b && negb (isnan a)).

End np.


(** ** Vectors, complex numbers *)

Record vec3 : Type := Vec3 { vx : float; vy : float; vz : float }.

Definition vadd (u v : vec3) : vec3 :=
  Vec3 (vx u + vx v) (vy u + vy v) (vz u + vz v).
Definition vsub (u v : vec3) : vec3 :=
  Vec3 (vx u - vx v) (vy u - vy v) (vz u - vz v).
Definition vzero : vec3 := Vec3 0 0 0.

(** [np.linalg.norm] of one row. *)
Definition norm (v : vec3) : float :=
  PrimFloat.sqrt (vx v * vx v + vy v * vy v + vz v * vz v).

(** [mode.sum(axis=0)]. *)
Definition sum_axis0 (m : list vec3) : vec3 := foldl vadd vzero m.

Record complex : Type := Complex { real : float; imag : float }.

(** numpy's order on complex values: by real part, then by imaginary part,
    [nan] last. *)
Definition complex_lt (a b : complex) : bool :=
  if PrimFloat.ltb (real a) (real b) then
    negb (np.isnan (imag a)) || np.isnan (imag b)
  else if PrimFloat.ltb (real b) (real a) then
    np.isnan (imag b) && negb (np.isnan (imag a))
  else if PrimFloat.eqb (real a) (real b)
          || (np.isnan (real a) && np.isnan (real b)) then
    PrimFloat.ltb (imag a) (imag b)
    || (np.isnan (imag b) && negb (np.isnan (imag a)))
  else np.isnan (real b).

(** ** The linearity test of [run_xtb_ir]

    [linear = sum(moi > 0.01) == 2]. *)
Definition count_true (mask : list bool) : nat :=
  length (filter (λ b, b = true) mask).
Definition is_linear (moi : list float) : bool :=
  Nat.eqb (count_true (map (λ m, np.gt m 0.01) moi)) 2.

(** The reading of the specification: at least two moments exceed [0.01]. *)
Definition at_least_two_exceed (moi : list float) : bool :=
  Nat.leb 2 (count_true (map (λ m, np.gt m 0.01) moi)).

(** ** Selection of the most contributing bonds and atoms *)

Definition threshold : float := 0.4.

(** [displacements / displacements.sum()]. *)
Definition bond_relative_contribution (displacements : list float) : list float :=
  map (λ d, d / np.sum displacements)%float displacements.

(** [np.max(np.abs(np.diff(relative_contribution)))]. *)
Definition max_abs_diff (relative_contribution : list float) : res float :=
  np.max (map PrimFloat.abs (np.diff relative_contribution)).

(** [np.where(relative_contribution > threshold * gap)[0]]. *)
Definition above_gap (relative_contribution : list float) (gap : float) : list nat :=
  np.where_ (map (λ r, np.gt r (threshold * gap)%float) relative_contribution).

Definition select_most_contributing_bonds (displacements : list float)
    : res (list nat) :=
  if decide (1 < length displacements) then
    let relative_contribution := bond_relative_contribution displacements in
    gap ← max_abs_diff relative_contribution;
    mret (above_gap relative_contribution gap)
  else mret [0].

(** [np.linalg.norm(displacements, axis=1) / largest], where [largest] is
    [np.linalg.norm(displacements, axis=1).max()]. *)
Definition atom_relative_contribution (displacements : list vec3)
    (largest : float) : list float :=
  map (λ x, x / largest)%float (map norm displacements).


(** ** Molecules, structures and the results of the pipeline *)

(** An RDKit molecule: the atoms, the bonds as pairs of atom indices in bond
    order, and the conformer when one is embedded. *)
Record Mol : Type := {
  mol_symbols : list string;
  mol_bonds : list (nat * nat);
  mol_conformer : option (list vec3);
}.
Definition GetNumAtoms (mol : Mol) : nat := length (mol_symbols mol).
Definition GetNumBonds (mol : Mol) : nat := length (mol_bonds mol).

(** An ASE [Atoms] object. *)
Record Atoms : Type := {
  symbols : list string;
  positions : list vec3;
}.

Inductive ModeType : Type := translation | rotation | vibration.
Global Instance ModeType_eq_dec : EqDecision ModeType.
Proof. solve_decision. Defined.

(** One entry of [modes]. *)
Record ModeInfo : Type := {
  number : nat;
  displacements : string;
  intensity : float;
  ramanIntensity : option float;
  wavenumber : float;
  imaginary : bool;
  mostDisplacedAtoms : list nat;
  mostContributingAtoms : list nat;
  mostContributingBonds : option (list (nat * nat));
  modeType : ModeType;
  centerOfMassDisplacement : float;
  totalChangeOfMomentOfInteria : float;
  displacementAlignment : float;
}.

Record BondMode : Type := {
  startAtom : nat;
  endAtom : nat;
  mode : nat;
  displacement : float;
}.

Record IRResult : Type := {
  wavenumbers : list float;
  intensities : list float;
  ramanIntensities : option (list float);
  zeroPointEnergy : float;
  modes : list ModeInfo;
  hasImaginaryFrequency : bool;
  mostRelevantModesOfAtoms : gmap nat (list nat);
  mostRelevantModesOfBonds : option (list BondMode);
  isLinear : bool;
  momentsOfInertia : list float;
  hasLargeImaginaryFrequency : bool;
}.

(** ** The external collaborators *)

(** How a run of a calculator of ASE ends: [run()] writes its results in the
    scratch directory it is named after, which exists once a run completed; a
    run that raises may or may not have created it. *)
Inductive run_outcome : Type :=
  | Completed
  | Failed (e : exn) (scratch_created : bool).

(** A [PlaczekStatic] object after the Raman run. *)
Record Placzek : Type := {
  pz_get_frequencies : res (list complex);
  pz_get_absolute_intensities : res (list float);
  pz_fold : list float → list float → res (list float * list float);
}.

(** An [Infrared] object after [ir.run()]; [ir_ir] is its attribute [ir]. *)
Record Infrared : Type := {
  ir_indices : list nat;
  ir_atoms : Atoms;
  ir_ir : bool;
  ir_get_frequencies : list complex;
  ir_modes : list (list vec3);
  ir_intensities : list float;
  ir_get_spectrum : list float * list float;
  ir_get_zero_point_energy : float;
}.

Class Externals : Type := {
  (** [settings] *)
  MAX_ATOMS_FF : nat;
  MAX_ATOMS_XTB : nat;
  IMAGINARY_FREQ_THRESHOLD : float;
  (** [hashlib.md5(s.encode("utf-8")).hexdigest()] *)
  md5_hexdigest : string → string;
  (** [str(atoms.symbols)], [str(atoms.positions)] *)
  str_symbols : list string → string;
  str_positions : list vec3 → string;
  (** RDKit: a parser returns [None] on a text it cannot parse *)
  MolFromSmiles : string → option Mol;
  MolFromMolBlock : string → option Mol;
  AddHs : Mol → Mol;
  (** [conformers.embed_conformer] *)
  embed_conformer : Mol → res Mol;
  (** [optimize.run_xtb_opt(atoms, method).atoms] *)
  run_xtb_opt : Atoms → string → res Atoms;
  (** ASE and xtb, for the structure, the method and the scratch name *)
  get_moments_of_inertia : Atoms → list float;
  StaticRamanCalculator_run : Atoms → string → string → run_outcome;
  PlaczekStatic : Atoms → string → string → res Placzek;
  Infrared_run : Atoms → string → string → run_outcome;
  Infrared_read : Atoms → string → string → Infrared;
  (** [scipy.spatial.distance.cosine] *)
  cosine : vec3 → vec3 → float;
  (** [atoms.get_masses()] *)
  get_masses : Atoms → list float;
  (** Python's [sorted(xs, reverse=True)] on floats: a re-ordering of the
      list in which, when no entry is [nan], no entry is less than its
      successor. With [nan] among the entries the comparisons are not
      consistent and the order depends on the steps of the sort. *)
  sorted_reverse : list float → list float;
  sorted_reverse_perm : ∀ xs, sorted_reverse xs ≡ₚ xs;
  sorted_reverse_descends : ∀ xs,
    Forall (λ x, np.isnan x = false) xs → Sorted not_less (sorted_reverse xs);
  (** [np.argsort] on [float64]: a re-ordering of the indices; the order of
      equal keys depends on numpy's build *)
  argsort : list float → list nat;
  argsort_perm : ∀ a, argsort a ≡ₚ seq 0 (length a);
  (** [np.argsort] on [complex128]: a re-ordering of the indices along
      which the keys ascend in numpy's order on complex numbers; numpy
      promises no order between equal keys *)
  argsort_complex : list complex → list nat;
  argsort_complex_perm : ∀ a, argsort_complex a ≡ₚ seq 0 (length a);
  argsort_complex_ascends : ∀ a,
    Sorted (not_after complex_lt a) (argsort_complex a);
  (** [masses @ positions]: the product is left to BLAS *)
  matmul : list float → list vec3 → res vec3;
  (** [np.linalg.eigh(I)[0]] of a matrix given by its rows *)
  eigh : list (list float) → res vec3;
  (** [x ** y] on [float64] scalars: the [pow] of the C library *)
  power : float → float → float;
  (** ["%.<digits>f" % x] *)
  format_float : nat → float → string;
}.

(** ** The state: caches, scratch directories, calls of the collaborators *)

Inductive event : Type :=
  | EvEmbed (mol : Mol)
  | EvOptimize (atoms : Atoms) (method : string)
  | EvRaman (name : string)
  | EvInfrared (name : string).

Record World : Type := {
  conformer_cache : gmap string (Atoms * Mol);
  ir_cache : gmap string IRResult;
  ir_from_smiles_cache : gmap string IRResult;
  ir_from_molfile_cache : gmap string IRResult;
  scratch : gset string;
  trace : list event;
}.

Definition empty_world : World := {|
  conformer_cache := ∅;
  ir_cache := ∅;
  ir_from_smiles_cache := ∅;
  ir_from_molfile_cache := ∅;
  scratch := ∅;
  trace := [];
|}.

(** State and errors: a raise keeps the state reached when it happens. *)
Definition M (A : Type) : Type := World → res A * World.

Global Instance M_ret : MRet M := λ A a w, (Ok a, w).
Global Instance M_bind : MBind M := λ A B f m w,
  match m w with
  | (Ok a, w') => f a w'
  | (Raise e, w') => (Raise e, w')
  end.

Definition lift {A} (r : res A) : M A := λ w, (r, w).
Definition raise {A} (e : exn) : M A := λ w, (Raise e, w).
Definition gets {A} (f : World → A) : M A := λ w, (Ok (f w), w).
Definition modify (f : World → World) : M unit := λ w, (Ok (), f w).

(** [try: body except Exception: handler]. *)
Definition try_except {A} (body : M A) (handler : exn → M A) : M A := λ w,
  match body w with
  | (Ok a, w') => (Ok a, w')
  | (Raise e, w') => handler e w'
  end.

Definition log (ev : event) : M unit :=
  modify (λ w, {|
    conformer_cache := conformer_cache w;
    ir_cache := ir_cache w;
    ir_from_smiles_cache := ir_from_smiles_cache w;
    ir_from_molfile_cache := ir_from_molfile_cache w;
    scratch := scratch w;
    trace := trace w ++ [ev] |}).

Definition set_scratch (f : gset string → gset string) : M unit :=
  modify (λ w, {|
    conformer_cache := conformer_cache w;
    ir_cache := ir_cache w;
    ir_from_smiles_cache := ir_from_smiles_cache w;
    ir_from_molfile_cache := ir_from_molfile_cache w;
    scratch := f (scratch w);
    trace := trace w |}).

Definition conformer_cache_set (k : string) (v : Atoms * Mol) : M unit :=
  modify (λ w, {|
    conformer_cache := <[k := v]> (conformer_cache w);
    ir_cache := ir_cache w;
    ir_from_smiles_cache := ir_from_smiles_cache w;
    ir_from_molfile_cache := ir_from_molfile_cache w;
    scratch := scratch w;
    trace := trace w |}).

Definition ir_cache_set (k : string) (v : IRResult) : M unit :=
  modify (λ w, {|
    conformer_cache := conformer_cache w;
    ir_cache := <[k := v]> (ir_cache w);
    ir_from_smiles_cache := ir_from_smiles_cache w;
    ir_from_molfile_cache := ir_from_molfile_cache w;
    scratch := scratch w;
    trace := trace w |}).

Definition ir_from_smiles_cache_set (k : string) (v : IRResult) : M unit :=
  modify (λ w, {|
    conformer_cache := conformer_cache w;
    ir_cache := ir_cache w;
    ir_from_smiles_cache := <[k := v]> (ir_from_smiles_cache w);
    ir_from_molfile_cache := ir_from_molfile_cache w;
    scratch := scratch w;
    trace := trace w |}).

Definition ir_from_molfile_cache_set (k : string) (v : IRResult) : M unit :=
  modify (λ w, {|
    conformer_cache := conformer_cache w;
    ir_cache := ir_cache w;
    ir_from_smiles_cache := ir_from_smiles_cache w;
    ir_from_molfile_cache := <[k := v]> (ir_from_molfile_cache w);
    scratch := scratch w;
    trace := trace w |}).

(** [shutil.rmtree(name)]: raises when there is no such directory. *)
Definition rmtree (name : string) : M unit := λ w,
  if decide (name ∈ scratch w)
  then set_scratch (λ s, s ∖ {[name]}) w
  else (Raise FileNotFoundError, w).

(** A run of a calculator named [name], with its effect on the scratch
    directories. *)
Definition perform (o : run_outcome) (name : string) : M unit :=
  match o with
  | Completed => set_scratch (λ s, {[name]} ∪ s)
  | Failed e created =>
      (if created then set_scratch (λ s, {[name]} ∪ s) else mret ());;
      raise e
  end.

(** ** numpy on matrices (a list of rows) *)

(** [np.vstack(rows)] and [np.stack(rows)] of one-dimensional rows: at least
    one row, and all of one length. *)
Definition stack (rows : list (list float)) : res (list (list float)) :=
  match rows with
  | [] => Raise ValueError
  | r :: tl =>
      if decide (Forall (λ r', length r' = length r) tl)
      then Ok rows else Raise ValueError
  end.

Definition ncols (a : list (list float)) : nat :=
  match a with
  | [] => 0
  | r :: _ => length r
  end.

Definition column (a : list (list float)) (j : nat) : list float :=
  omap (λ row, row !! j) a.

(** [a.argmax()] along one column: the first maximum; a [nan] is maximal. *)
Fixpoint argmax_from (i best : nat) (mp : float) (a : list float) : nat :=
  match a with
  | [] => best
  | x :: tl =>
      if np.isnan mp then best
      else if PrimFloat.leb x mp then argmax_from (S i) best mp tl
      else argmax_from (S i) i x tl
  end.
Definition argmax (a : list float) : res nat :=
  match a with
  | [] => Raise ValueError
  | x :: tl => Ok (argmax_from 1 0 x tl)
  end.

(** [a + b] on arrays of rows; an array of one row is broadcast. *)
Definition add_rows (a b : list vec3) : res (list vec3) :=
  if decide (length a = length b) then Ok (zip_with vadd a b)
  else match a, b with
       | [x], _ => Ok (map (vadd x) b)
       | _, [y] => Ok (map (λ x, vadd x y) a)
       | _, _ => Raise ValueError
       end.

(** [np.mean(xs)] of a Python list: [nan] when it is empty. *)
Definition float_of_nat (n : nat) : float :=
  PrimFloat.of_uint63 (Uint63.of_Z (Z.of_nat n)).
Definition mean (xs : list float) : float :=
  (np.sum xs / float_of_nat (length xs))%float.

(** The values of [f x y] for [x] before [y] in the list, row by row. *)
Fixpoint pairwise {A B} (f : A → A → B) (l : list A) : list B :=
  match l with
  | [] => []
  | x :: tl => map (f x) tl ++ pairwise f tl
  end.

(** [xs[:k, :] = v]. *)
Definition fill_rows (k : nat) (v : float) (a : list (list float))
    : list (list float) :=
  imap (λ n row, if decide (n < k) then map (λ _, v) row else row) a.

(** ** Formatting with [%]

    ["%<width>d"] and ["%<width>s"] pad on the left with spaces. *)
Fixpoint spaces (n : nat) : string :=
  match n with
  | 0 => ""
  | S n => " " +:+ spaces n
  end.
Definition pad_left (width : nat) (s : string) : string :=
  spaces (width - String.length s) +:+ s.
Definition newline : string := String (Ascii.ascii_of_nat 10) "".

(** ** utils.py: the moments of inertia

    The two functions that [ir.py] imports for [get_change_in_moi];
    [utils.get_moments_of_inertia] is not the method of ASE's [Atoms] that
    [run_xtb_ir] calls. *)
Module utils.

(** [masses @ positions / masses.sum()]. *)
Definition get_center_of_mass {ext : Externals} (masses : list float)
    (positions : list vec3) : res vec3 :=
  weighted ← matmul masses positions;
  let total := np.sum masses in
  mret (Vec3 (vx weighted / total) (vy weighted / total) (vz weighted / total)).

(** The six entries of the inertia tensor that the loop accumulates. *)
Record tensor : Type := Tensor {
  I11 : float; I22 : float; I33 : float;
  I12 : float; I13 : float; I23 : float;
}.

(** One pass of the loop body, for the atom at [p] of mass [m]. *)
Definition add_atom {ext : Externals} (t : tensor) (m : float) (p : vec3)
    : tensor :=
  let x := vx p in
  let y := vy p in
  let z := vz p in
  {| I11 := I11 t + m * (power y 2 + power z 2);
     I22 := I22 t + m * (power x 2 + power z 2);
     I33 := I33 t + m * (power x 2 + power y 2);
     I12 := I12 t + (- m) * x * y;
     I13 := I13 t + (- m) * x * z;
     I23 := I23 t + (- m) * y * z |}%float.

Definition get_moments_of_inertia {ext : Externals} (positions : list vec3)
    (masses : list float) : res vec3 :=
  com ← get_center_of_mass masses positions;
  let positions_ := map (λ p, vsub p com) positions in
  t ← foldl (λ acc ip,
               t ← acc;
               m ← index masses ip.1;
               mret (add_atom t m ip.2))
            (Ok (Tensor 0 0 0 0 0 0)) (imap pair positions_);
  eigh [[I11 t; I12 t; I13 t]; [I12 t; I22 t; I23 t]; [I13 t; I23 t; I33 t]].

End utils.

Section Program.
Context {ext : Externals}.

(** ** utils.py *)

Definition hash_object (objec : string) : string := md5_hexdigest objec.

Definition hash_atoms (atoms : Atoms) : string :=
  hash_object (str_symbols (symbols atoms) +:+ str_positions (positions atoms)).

(** [mol] is [None] when the parser rejected the input; [max_atoms] is
    [None] when [get_max_atoms] knows no such method. *)
Definition check_max_atoms (mol : option Mol) (max_atoms : option nat)
    : res unit :=
  match mol with
  | None => Raise AttributeError
  | Some mol =>
      match max_atoms with
      | None => Raise TypeError
      | Some max_atoms =>
          if decide (max_atoms < GetNumAtoms mol) then Raise TooLargeError
          else Ok ()
      end
  end.

Definition rdkit2ase (mol : Mol) : res Atoms :=
  match mol_conformer mol with
  | None => Raise ValueError
  | Some pos =>
      if decide (length pos = GetNumAtoms mol)
      then Ok {| symbols := mol_symbols mol; positions := pos |}
      else Raise ValueError
  end.

Definition molfile2ase (molfile : string) (max_atoms : option nat)
    : M (Atoms * Mol) :=
  result ← gets (λ w, conformer_cache w !! molfile);
  match result with
  | Some result => mret result
  | None =>
      let mol := MolFromMolBlock molfile in
      (* mol.UpdatePropertyCache(strict=False) *)
      mol' ← lift (match mol with
                   | None => Raise AttributeError
                   | Some m => Ok m
                   end);
      lift (check_max_atoms mol max_atoms);;
      log (EvEmbed mol');;
      mol' ← lift (embed_conformer mol');
      atoms ← lift (rdkit2ase mol');
      conformer_cache_set molfile (atoms, mol');;
      mret (atoms, mol')
  end.

Definition smiles2ase (smiles : string) (max_atoms : option nat)
    : M (Atoms * Mol) :=
  result ← gets (λ w, conformer_cache w !! smiles);
  match result with
  | Some result => mret result
  | None =>
      let mol := MolFromSmiles smiles in
      lift (check_max_atoms mol max_atoms);;
      (* Chem.AddHs(Chem.Mol(mol)) *)
      refmol ← lift (match mol with
                     | None => Raise TypeError
                     | Some m => Ok (AddHs m)
                     end);
      log (EvEmbed refmol);;
      refmol ← lift (embed_conformer refmol);
      atoms ← lift (rdkit2ase refmol);
      conformer_cache_set smiles (atoms, refmol);;
      mret (atoms, refmol)
  end.

(** ** ir.py *)

Definition get_max_atoms (method : string) : option nat :=
  if decide (method = "GFNFF") then Some MAX_ATOMS_FF
  else if decide (method = "GFN2xTB") then Some MAX_ATOMS_XTB
  else if decide (method = "GFN1xTB") then Some MAX_ATOMS_XTB
  else None.

Definition ir_hash (atoms : Atoms) (method : string) : string :=
  hash_object (hash_atoms atoms +:+ method).

Definition get_raman_spectrum (pz : Placzek) : res (list float * list float) :=
  frequencies ← pz_get_frequencies pz;
  intensities ← pz_get_absolute_intensities pz;
  pz_fold pz (map real frequencies) intensities.

Definition get_mode (ir : Infrared) (n : nat) : res (list vec3) :=
  index (ir_modes ir) n.

Definition get_bonds_from_mol (mol : Mol) : list (nat * nat) := mol_bonds mol.

Definition get_bond_vector (positions : list vec3) (bond : nat * nat) : res vec3 :=
  p1 ← index positions bond.2;
  p0 ← index positions bond.1;
  mret (vsub p1 p0).

Definition get_displaced_positions (positions mode : list vec3)
    : res (list vec3) :=
  add_rows positions mode.

Definition get_bond_displacements (mol : Mol) (atoms : Atoms)
    (mode : list vec3) : res (list float) :=
  let bonds := get_bonds_from_mol mol in
  let positions := positions atoms in
  moved ← get_displaced_positions positions mode;
  let displaced_positions := map (λ p, vsub p (sum_axis0 mode)) moved in
  mapM (λ bond,
          v ← get_bond_vector positions bond;
          v' ← get_bond_vector displaced_positions bond;
          mret (PrimFloat.abs (norm v - norm v')))
       bonds.

Definition compile_all_bond_displacements (mol : Mol) (atoms : Atoms)
    (ir : Infrared) : res (list (list float)) :=
  bond_displacements ←
    mapM (λ mode_number,
            m ← get_mode ir mode_number;
            get_bond_displacements mol atoms m)
         (seq 0 (3 * length (ir_indices ir)));
  stack bond_displacements.

(** The frequency and whether it is imaginary ([c == "i"]). *)
Definition clean_frequency (frequencies : list complex) (n : nat)
    : res (float * bool) :=
  z ← index frequencies n;
  if np.ne (imag z) 0 then mret (imag z, true) else mret (real z, false).

(** The text of one mode: a header with the number of atoms, a title with
    the frequency and the intensity, and one line per atom of the structure
    of the [Infrared] object. *)
Definition get_displacement_xyz_for_mode (ir : Infrared)
    (frequencies : list complex) (symbols : list string) (n : nat)
    : res string :=
  let atoms := positions (ir_atoms ir) in
  let header := pad_left 6 (pretty (length atoms)) +:+ newline in
  fc ← clean_frequency frequencies n;
  let title :=
    "Mode #" +:+ pretty n +:+ ", f = " +:+ format_float 1 fc.1
    +:+ (if fc.2 : bool then "i" else " ") +:+ " cm^-1" in
  strength ←
    (if ir_ir ir then
       x ← index (ir_intensities ir) n;
       mret (", I = " +:+ format_float 4 x +:+ " (D/Å)^2 amu^-1." +:+ newline)
     else mret ("." +:+ newline));
  mode ← get_mode ir n;
  lines ←
    mapM (λ ip : nat * vec3,
            symbol ← index symbols ip.1;
            d ← index mode ip.1;
            mret (pad_left 2 symbol
                  +:+ " " +:+ pad_left 12 (format_float 5 (vx ip.2))
                  +:+ " " +:+ pad_left 12 (format_float 5 (vy ip.2))
                  +:+ " " +:+ pad_left 12 (format_float 5 (vz ip.2))
                  +:+ " " +:+ pad_left 12 (format_float 5 (vx d))
                  +:+ " " +:+ pad_left 12 (format_float 5 (vy d))
                  +:+ " " +:+ pad_left 12 (format_float 5 (vz d))
                  +:+ newline))
         (imap pair atoms);
  mret (header +:+ title +:+ strength +:+ foldr String.append "" lines).

(** [np.linalg.norm] of the difference between the norms of the moments of
    inertia of the displaced and of the given structure. *)
Definition get_change_in_moi (atoms : Atoms) (ir : Infrared)
    (mode_number : nat) : res float :=
  m ← get_mode ir mode_number;
  displaced ← get_displaced_positions (positions atoms) m;
  moved ← utils.get_moments_of_inertia displaced (get_masses atoms);
  still ← utils.get_moments_of_inertia (positions atoms) (get_masses atoms);
  mret (PrimFloat.abs (norm moved - norm still)).

Definition select_most_contributing_atoms (ir : Infrared) (mode : nat)
    : res (list nat) :=
  displacements ← get_mode ir mode;
  largest ← np.max (map norm displacements);
  let relative_contribution :=
    atom_relative_contribution displacements largest in
  gap ← max_abs_diff relative_contribution;
  mret (above_gap relative_contribution gap).

Definition get_alignment (ir : Infrared) (mode_number : nat) : res float :=
  displacements ← get_mode ir mode_number;
  mret (mean (pairwise cosine displacements)).

(** The type of mode [n], lines 240-257 of [compile_modes_info]. *)
Definition mode_type (linear : bool) (alignments : list float)
    (third_best_alignment : float) (n : nat) : res ModeType :=
  if decide (n < 3) then mret translation
  else if decide (n < 5) then mret rotation
  else if decide (n = 5) then
    if linear then mret vibration
    else
      a ← index alignments n;
      if np.ge a third_best_alignment then mret translation
      else mret rotation
  else mret vibration.

(** [raman_intensities[n]] after
    [if raman_intensities is None: raman_intensities = [None] * num_modes]. *)
Definition raman_entry (raman_intensities : option (list float))
    (num_modes n : nat) : res (option float) :=
  match raman_intensities with
  | None => index (replicate num_modes None) n
  | Some a => Some <$> index a n
  end.

(** The body of the loop of [compile_modes_info] for [n = int(mapping[n])]:
    the entry of the mode and the pair [(f, c == "i")]. *)
Definition mode_entry (ir : Infrared) (linear : bool) (alignments : list float)
    (third_best_alignment : float)
    (bond_displacements : option (list (list float)))
    (bonds : option (list (nat * nat)))
    (raman_intensities : option (list float)) (num_modes n : nat)
    : res (ModeInfo * (float * bool)) :=
  let frequencies := ir_get_frequencies ir in
  ty ← mode_type linear alignments third_best_alignment n;
  fc ← clean_frequency frequencies n;
  bound ←
    match bond_displacements with
    | None => mret (None, None)
    | Some bd =>
        row ← index bd n;
        selected ← select_most_contributing_bonds row;
        named ← match bonds with
                | None => Raise TypeError
                | Some bonds => mapM (index bonds) selected
                end;
        m ← get_mode ir n;
        mret (Some named, Some m)
    end;
  raman ← raman_entry raman_intensities num_modes n;
  xyz ← get_displacement_xyz_for_mode ir frequencies (symbols (ir_atoms ir)) n;
  strength ← index (ir_intensities ir) n;
  m ← match bound.2 with
      | None => Raise UnboundLocalError
      | Some m => Ok m
      end;
  atoms ← select_most_contributing_atoms ir n;
  current ← get_mode ir n;
  change ← get_change_in_moi (ir_atoms ir) ir n;
  alignment ← index alignments n;
  mret ({| number := n;
           displacements := xyz;
           intensity := strength;
           ramanIntensity := raman;
           wavenumber := fc.1;
           imaginary := fc.2;
           mostDisplacedAtoms :=
             reverse (argsort (map (λ v, norm (vsub v (sum_axis0 m))) m));
           mostContributingAtoms := atoms;
           mostContributingBonds := bound.1;
           modeType := ty;
           centerOfMassDisplacement := norm (sum_axis0 current);
           totalChangeOfMomentOfInteria := change;
           displacementAlignment := alignment |},
        fc).

(** [for n in range(num_modes)], from the ranks still to visit. *)
Fixpoint modes_loop (ir : Infrared) (linear : bool) (alignments : list float)
    (third_best_alignment : float)
    (bond_displacements : option (list (list float)))
    (bonds : option (list (nat * nat)))
    (raman_intensities : option (list float)) (num_modes : nat)
    (mapping : list nat) (ranks : list nat)
    (acc : list ModeInfo * bool * bool) : res (list ModeInfo * bool * bool) :=
  match ranks with
  | [] => Ok acc
  | k :: ranks' =>
      n ← match mapping !! k with
          | Some n => Ok n
          | None => Raise KeyError
          end;
      e ← mode_entry ir linear alignments third_best_alignment
            bond_displacements bonds raman_intensities num_modes n;
      let '(modes, has_imaginary, has_large_imaginary) := acc in
      let '(info, (f, c)) := e in
      modes_loop ir linear alignments third_best_alignment
        bond_displacements bonds raman_intensities num_modes mapping ranks'
        (modes ++ [info],
         has_imaginary || c,
         has_large_imaginary || (c && np.gt f IMAGINARY_FREQ_THRESHOLD))
  end.

Definition compile_modes_info (ir : Infrared) (linear : bool)
    (alignments : list float)
    (bond_displacements : option (list (list float)))
    (bonds : option (list (nat * nat)))
    (raman_intensities : option (list float))
    : res (list ModeInfo * bool * bool) :=
  let frequencies := ir_get_frequencies ir in
  let sorted_alignments := sorted_reverse alignments in
  let mapping := argsort_complex frequencies in
  third_best_alignment ← index sorted_alignments 2;
  let num_modes := 3 * length (ir_indices ir) in
  modes_loop ir linear alignments third_best_alignment bond_displacements
    bonds raman_intensities num_modes mapping (seq 0 num_modes)
    ([], false, false).

Definition get_max_displacements (ir : Infrared) (linear : bool)
    : res (gmap nat (list nat)) :=
  rows ← mapM (λ n, m ← get_mode ir n; mret (map norm m))
              (seq 0 (3 * length (ir_indices ir)));
  mode_abs_displacements ← stack rows;
  let zeroed :=
    fill_rows (if linear then 5 else 6) 0%float mode_abs_displacements in
  let ranking :=
    map (λ a, reverse (argsort (column zeroed a)))
        (seq 0 (ncols zeroed)) in
  (* dict(zip(...)): the last entry of a key wins *)
  mret (list_to_map (reverse (zip (ir_indices ir) ranking))).

(** Lines 113-134 of [run_xtb_ir]: for each bond, the unmasked mode with the
    largest displacement. *)
Definition most_relevant_modes (mol : Mol) (atoms : Atoms) (linear : bool)
    (bond_displacements : list (list float)) : res (list BondMode) :=
  let masked_bond_displacements :=
    if decide (2 < length (positions atoms)) then
      fill_rows (if linear then 5 else 6) neg_infinity bond_displacements
    else bond_displacements in
  most_relevant_mode_for_bond_ ←
    mapM (λ i, argmax (column masked_bond_displacements i))
         (seq 0 (ncols bond_displacements));
  let bonds := get_bonds_from_mol mol in
  mapM (λ im : nat * nat,
          bond ← index bonds im.1;
          row ← index bond_displacements im.2;
          d ← index row im.1;
          mret {| startAtom := bond.1; endAtom := bond.2;
                  mode := im.2; displacement := d |})
       (imap pair most_relevant_mode_for_bond_).

(** The [try] block of [run_xtb_ir], lines 90-95. *)
Definition raman_block (atoms : Atoms) (method this_hash : string)
    : M (list float * list float) :=
  log (EvRaman this_hash);;
  perform (StaticRamanCalculator_run atoms method this_hash) this_hash;;
  pz ← lift (PlaczekStatic atoms method this_hash);
  raman_intensities ← lift (pz_get_absolute_intensities pz);
  raman_spectrum ← lift (get_raman_spectrum pz);
  mret (raman_intensities, raman_spectrum.2).

(** Lines 105-159 of [run_xtb_ir]: the result, from the [Infrared] object
    and the outcome of the Raman block. *)
Definition assemble (atoms : Atoms) (mol : Mol) (linear : bool)
    (moi : list float) (ir : Infrared)
    (raman : option (list float * list float)) : res IRResult :=
  let spectrum := ir_get_spectrum ir in
  match raman with
  | Some (_, raman_spectrum) =>
      if decide (length spectrum.1 = length raman_spectrum) then Ok ()
      else Raise AssertionError
  | None => Ok ()
  end;;
  let zpe := ir_get_zero_point_energy ir in
  bond_displacements ← compile_all_bond_displacements mol atoms ir;
  most_relevant_mode_for_bond ←
    most_relevant_modes mol atoms linear bond_displacements;
  let bonds := get_bonds_from_mol mol in
  displacement_alignments ←
    mapM (get_alignment ir) (seq 0 (3 * length (ir_indices ir)));
  compiled ← compile_modes_info ir linear displacement_alignments
               (Some bond_displacements) (Some bonds) (fst <$> raman);
  let '(mode_info, has_imaginary, has_large_imaginary) := compiled in
  relevant ← get_max_displacements ir linear;
  mret {| wavenumbers := spectrum.1;
          intensities := spectrum.2;
          ramanIntensities := snd <$> raman;
          zeroPointEnergy := zpe;
          modes := mode_info;
          hasImaginaryFrequency := has_imaginary;
          mostRelevantModesOfAtoms := relevant;
          mostRelevantModesOfBonds := Some most_relevant_mode_for_bond;
          isLinear := linear;
          momentsOfInertia := moi;
          hasLargeImaginaryFrequency := has_large_imaginary |}.

Definition run_xtb_ir (atoms : Atoms) (method : string) (mol : option Mol)
    : M IRResult :=
  match mol with
  | None => raise BareException
  | Some mol =>
      let this_hash := ir_hash atoms method in
      let moi := get_moments_of_inertia atoms in
      let linear := is_linear moi in
      result ← gets (λ w, ir_cache w !! this_hash);
      match result with
      | Some result => mret result
      | None =>
          raman ← try_except
                    (r ← raman_block atoms method this_hash; mret (Some r))
                    (λ _, rmtree this_hash;; mret None);
          log (EvInfrared this_hash);;
          perform (Infrared_run atoms method this_hash) this_hash;;
          let ir := Infrared_read atoms method this_hash in
          result ← lift (assemble atoms mol linear moi ir raman);
          ir_cache_set this_hash result;;
          rmtree this_hash;;
          (* ir.clean(): the files of a directory that is gone *)
          mret result
      end
  end.

Definition calculate_from_smiles (smiles method myhash : string) : M IRResult :=
  am ← smiles2ase smiles (get_max_atoms method);
  log (EvOptimize am.1 method);;
  opt_atoms ← lift (run_xtb_opt am.1 method);
  result ← run_xtb_ir opt_atoms method (Some am.2);
  ir_from_smiles_cache_set myhash result;;
  mret result.

Definition ir_from_smiles (smiles method : string) : M IRResult :=
  let myhash := hash_object (smiles +:+ method) in
  result ← gets (λ w, ir_from_smiles_cache w !! myhash);
  match result with
  | Some result => mret result
  | None => calculate_from_smiles smiles method myhash
  end.

Definition calculate_from_molfile (molfile method myhash : string) : M IRResult :=
  am ← molfile2ase molfile (get_max_atoms method);
  log (EvOptimize am.1 method);;
  opt_atoms ← lift (run_xtb_opt am.1 method);
  result ← run_xtb_ir opt_atoms method (Some am.2);
  ir_from_molfile_cache_set myhash result;;
  mret result.

Definition ir_from_molfile (molfile method : string) : M IRResult :=
  let myhash := hash_object (molfile +:+ method) in
  result ← gets (λ w, ir_from_molfile_cache w !! myhash);
  match result with
  | Some result => mret result
  | None => calculate_from_molfile molfile method myhash
  end.

End Program.

(** ** A small instance of the collaborators

    A parser that knows water (["O"]), carbon dioxide (["O=C=O"]) and a salt
    of two ions without a bond (["[Na+].[Cl-]"]), limits of 10 and 2 atoms,
    an embedding that places atom [i] at [(i, i*i, 0)], an
    optimizer that keeps the geometry, and an engine that returns fixed modes.
    The outcomes of the Raman run and of the infrared run are arguments, so
    that every path of [run_xtb_ir] can be executed. *)
(** ** The orders of the sorts

    [<] on floats and numpy's order on complex numbers are asymmetric, so of
    two values one may always stand before the other. *)
Global Instance ltb_asymmetric :
  Asymmetric (λ x y : float, PrimFloat.ltb x y = true).
Proof.
  intros x y. rewrite !ltb_spec. unfold SFltb.
  destruct (Prim2SF x) as [[]|[]| |[] m1 e1], (Prim2SF y) as [[]|[]| |[] m2 e2];
    simpl; try done;
    rewrite ?Pos.compare_cont_spec; simpl;
    destruct (Z.compare_spec e1 e2), (Z.compare_spec e2 e1);
      simpl; try done; try lia;
    destruct (Pos.compare_spec m1 m2), (Pos.compare_spec m2 m1);
      simpl; try done; lia.
Qed.

Global Instance not_less_total : Total not_less.
Proof.
  intros x y. unfold not_less.
  destruct (PrimFloat.ltb x y) eqn:Hxy; [right | by left].
  destruct (PrimFloat.ltb y x) eqn:Hyx; [|done].
  destruct (ltb_asymmetric x y Hxy Hyx).
Qed.

Global Instance complex_lt_asymmetric :
  Asymmetric (λ a b : complex, complex_lt a b = true).
Proof.
  assert (Hnan : ∀ x y, PrimFloat.ltb x y = true →
            np.isnan x = false ∧ np.isnan y = false).
  { intros x y. unfold np.isnan, np.ne.
    rewrite ltb_spec, !FloatAxioms.eqb_spec. unfold SFltb, SFeqb.
    destruct (Prim2SF x) as [[]|[]| |[] m1 e1],
             (Prim2SF y) as [[]|[]| |[] m2 e2]; simpl; try done;
      rewrite ?Z.compare_refl, ?Pos.compare_cont_refl; done. }
  assert (Hsym : ∀ x y, PrimFloat.eqb x y = PrimFloat.eqb y x).
  { intros x y. rewrite !FloatAxioms.eqb_spec. unfold SFeqb.
    destruct (Prim2SF x) as [[]|[]| |[] m1 e1],
             (Prim2SF y) as [[]|[]| |[] m2 e2]; simpl; try done;
      rewrite ?Pos.compare_cont_spec; simpl;
      destruct (Z.compare_spec e1 e2), (Z.compare_spec e2 e1);
        simpl; try done; try lia;
      destruct (Pos.compare_spec m1 m2), (Pos.compare_spec m2 m1);
        simpl; try done; lia. }
  intros [ra ia] [rb ib]. unfold complex_lt. simpl.
  rewrite (Hsym rb ra), (andb_comm (np.isnan rb)).
  destruct (PrimFloat.ltb ra rb) eqn:Hab, (PrimFloat.ltb rb ra) eqn:Hba.
  - destruct (ltb_asymmetric _ _ Hab Hba).
  - destruct (np.isnan ia), (np.isnan ib); done.
  - destruct (np.isnan ia), (np.isnan ib); done.
  - destruct (PrimFloat.eqb ra rb || np.isnan ra && np.isnan rb) eqn:Heq.
    + destruct (PrimFloat.ltb ia ib) eqn:Hi, (PrimFloat.ltb ib ia) eqn:Hi'.
      * destruct (ltb_asymmetric _ _ Hi Hi').
      * destruct (Hnan _ _ Hi) as [-> ->]. done.
      * destruct (Hnan _ _ Hi') as [-> ->]. done.
      * destruct (np.isnan ia), (np.isnan ib); done.
    + destruct (np.isnan ra), (np.isnan rb); simpl in *; try done.
      by rewrite orb_true_r in Heq.
Qed.

Global Instance not_after_total_complex (a : list complex) :
  Total (not_after complex_lt a).
Proof.
  intros i j. unfold not_after.
  destruct (a !! i) as [x|], (a !! j) as [y|]; try by left.
  destruct (complex_lt y x) eqn:Hyx; [right | by left].
  destruct (complex_lt x y) eqn:Hxy; [|done].
  destruct (complex_lt_asymmetric x y Hxy Hyx).
Qed.

Module Toy.

Definition water_graph : Mol :=
  {| mol_symbols := ["O"]; mol_bonds := []; mol_conformer := None |}.
Definition water : Mol :=
  {| mol_symbols := ["O"; "H"; "H"];
     mol_bonds := [(0, 1); (0, 2)];
     mol_conformer := None |}.
Definition salt : Mol :=
  {| mol_symbols := ["Na"; "Cl"]; mol_bonds := []; mol_conformer := None |}.

Definition carbon_dioxide : Mol :=
  {| mol_symbols := ["O"; "C"; "O"];
     mol_bonds := [(0, 1); (1, 2)];
     mol_conformer := None |}.

Definition parse (s : string) : option Mol :=
  if decide (s = "O") then Some water_graph
  else if decide (s = "O=C=O") then Some carbon_dioxide
  else if decide (s = "[Na+].[Cl-]") then Some salt
  else None.

Definition add_hs (m : Mol) : Mol :=
  if decide (mol_symbols m = ["O"]) then water else m.

Definition place (i : nat) : vec3 :=
  Vec3 (float_of_nat i) (float_of_nat (i * i)) 0.

Definition embed (m : Mol) : res Mol :=
  Ok {| mol_symbols := mol_symbols m;
        mol_bonds := mol_bonds m;
        mol_conformer := Some (imap (λ i _, place i) (mol_symbols m)) |}.

(** Mode [k] moves atom [a] by [(k + a + 1, a * k, (k + 2 a) mod 3)]. *)
Definition shift (k a : nat) : vec3 :=
  Vec3 (float_of_nat (k + a + 1)) (float_of_nat (a * k))
       (float_of_nat ((k + 2 * a) mod 3)).

(** The frequency of mode [k]: engine order is not frequency order, and
    mode [2] is imaginary. *)
Definition frequency (k : nat) : complex :=
  if decide (k = 2) then Complex 0 30
  else Complex (float_of_nat ((k * 7) mod 10 * 100)) 0.

Definition infrared (atoms : Atoms) : Infrared :=
  let n := length (positions atoms) in
  {| ir_indices := seq 0 n;
     ir_atoms := atoms;
     ir_ir := true;
     ir_get_frequencies := map frequency (seq 0 (3 * n));
     ir_modes := map (λ k, map (shift k) (seq 0 n)) (seq 0 (3 * n));
     ir_intensities := map (λ k, float_of_nat (k + 1)) (seq 0 (3 * n));
     ir_get_spectrum := ([0; 2000; 4000]%float, [1; 5; 2]%float);
     ir_get_zero_point_energy := 0.5%float |}.

Definition placzek : Placzek :=
  {| pz_get_frequencies := Ok [Complex 100 0; Complex 200 0];
     pz_get_absolute_intensities :=
       Ok [1; 2; 3; 4; 5; 6; 7; 8; 9]%float;
     pz_fold := λ _ _, Ok ([0; 2000; 4000]%float, [3; 1; 4]%float) |}.

Definition dot (u v : vec3) : float :=
  (vx u * vx v + vy u * vy v + vz u * vz v)%float.
Definition cosine_distance (u v : vec3) : float :=
  (1 - dot u v / PrimFloat.sqrt (dot u u * dot v v))%float.

(** The masses: 16 for oxygen, 1 for any other atom. *)
Definition masses (atoms : Atoms) : list float :=
  map (λ s : string, if decide (s = "O") then 16%float else 1%float)
      (symbols atoms).

(** The sorts: merge sorts by the orders of Python and numpy. *)
Definition descending (xs : list float) : list float := merge_sort not_less xs.
Definition ascending_indices {K} (lt : K → K → bool) (a : list K) : list nat :=
  merge_sort (not_after lt a) (seq 0 (length a)).

(** The product of a row of masses with the positions, when they are
    equally many. *)
Definition weighted_sum (masses : list float) (positions : list vec3)
    : res vec3 :=
  if decide (length masses = length positions) then
    Ok (foldl vadd vzero
          (zip_with (λ m p, Vec3 (m * vx p) (m * vy p) (m * vz p))
                    masses positions))
  else Raise ValueError.

(** In place of the eigenvalues, the diagonal of the matrix; a matrix with
    [nan] on its diagonal makes the solver fail. *)
Definition diagonal (rows : list (list float)) : res vec3 :=
  match rows with
  | [[a; _; _]; [_; b; _]; [_; _; c]] =>
      if np.isnan a || np.isnan b || np.isnan c
      then Raise (ExternalError "LinAlgError")
      else Ok (Vec3 a b c)
  | _ => Raise (ExternalError "LinAlgError")
  end.

(** A float as text: its class only. *)
Definition show_float (digits : nat) (x : float) : string :=
  if np.isnan x then "nan"
  else if PrimFloat.ltb x 0 then "-x." +:+ pretty digits
  else "x." +:+ pretty digits.

Definition externals (raman infrared_run : run_outcome) : Externals :=
  {| MAX_ATOMS_FF := 10;
     MAX_ATOMS_XTB := 2;
     IMAGINARY_FREQ_THRESHOLD := 10%float;
     md5_hexdigest := λ s, "md5:" +:+ s;
     str_symbols := λ l, foldr String.append "" l;
     str_positions := λ _, "[]";
     MolFromSmiles := parse;
     MolFromMolBlock := parse;
     AddHs := add_hs;
     embed_conformer := embed;
     run_xtb_opt := λ atoms _, Ok atoms;
     get_moments_of_inertia := λ _, [1; 2; 3]%float;
     StaticRamanCalculator_run := λ _ _ _, raman;
     PlaczekStatic := λ _ _ _, Ok placzek;
     Infrared_run := λ _ _ _, infrared_run;
     Infrared_read := λ atoms _ _, infrared atoms;
     cosine := cosine_distance;
     get_masses := masses;
     sorted_reverse := descending;
     sorted_reverse_perm := merge_sort_Permutation not_less;
     sorted_reverse_descends := λ xs _, Sorted_merge_sort not_less xs;
     argsort := ascending_indices np.float_lt;
     argsort_perm := λ a, merge_sort_Permutation _ _;
     argsort_complex := ascending_indices complex_lt;
     argsort_complex_perm := λ a, merge_sort_Permutation _ _;
     argsort_complex_ascends := λ a, Sorted_merge_sort (not_after complex_lt a) _;
     matmul := weighted_sum;
     eigh := diagonal;
     power := λ x y, if PrimFloat.eqb y 2 then (x * x)%float else 1%float;
     format_float := show_float |}.

(** The engine works. *)
Definition sound : Externals := externals Completed Completed.
(** The Raman run fails after it created its scratch directory. *)
Definition raman_fails : Externals :=
  externals (Failed (ExternalError "raman") true) Completed.
(** The Raman run fails before it created its scratch directory. *)
Definition raman_fails_early : Externals :=
  externals (Failed (ExternalError "raman") false) Completed.
(** The infrared run fails, the scratch directory exists. *)
Definition infrared_fails : Externals :=
  externals Completed (Failed (ExternalError "xtb") true).
(** Both runs fail. *)
Definition both_fail : Externals :=
  externals (Failed (ExternalError "raman") true)
            (Failed (ExternalError "xtb") true).

Definition water_atoms : Atoms :=
  {| symbols := ["O"; "H"; "H"]; positions := map place (seq 0 3) |}.
Definition salt_atoms : Atoms :=
  {| symbols := ["Na"; "Cl"]; positions := map place (seq 0 2) |}.

(** The infrared data of water, alignment scores and bond-length changes of
    its nine modes. *)
Definition ir : Infrared := infrared water_atoms.
Definition alignments : list float := [9; 8; 7; 6; 5; 4; 3; 2; 1]%float.
Definition bond_rows : list (list float) := replicate 9 [1; 2]%float.

End Toy.

(** ** Predicates of the statements *)

(** A principal moment of inertia above the threshold of [run_xtb_ir]. *)
Definition exceeds (m : float) : Prop := np.gt m 0.01 = true.


(** An [Infrared] object as [Infrared(atoms, name=...)] builds it: every atom
    is an index, a mode has one row per atom, and there is one frequency per
    degree of freedom. *)
Definition well_formed (ir : Infrared) : Prop :=
  length (ir_get_frequencies ir) = 3 * length (ir_indices ir)
  ∧ Forall (λ m, length m = length (ir_indices ir)) (ir_modes ir).

(** The number of modes that are not vibrations. *)
Definition zero_modes (linear : bool) : nat := if linear then 5 else 6.

(** A mode counts as large imaginary when it is imaginary and its wavenumber
    exceeds the threshold of the settings. *)
Definition large_imaginary {ext : Externals} (m : ModeInfo) : bool :=
  imaginary m && np.gt (wavenumber m) IMAGINARY_FREQ_THRESHOLD.

(** Data of matching shapes: a well-formed [Infrared] object with one mode
    and one intensity per degree of freedom, a structure of as many atoms, at
    least two, a graph of at least one bond between atoms of the structure,
    and Raman data, when there are any, with one intensity per mode and a
    spectrum on the grid of the infrared one. *)
Definition well_shaped (atoms : Atoms) (mol : Mol) (ir : Infrared)
    (raman : option (list float * list float)) : Prop :=
  let n := length (ir_indices ir) in
  well_formed ir
  ∧ length (ir_modes ir) = 3 * n
  ∧ length (ir_intensities ir) = 3 * n
  ∧ length (positions atoms) = n
  ∧ 2 ≤ n
  ∧ 0 < length (mol_bonds mol)
  ∧ Forall (λ b, b.1 < n ∧ b.2 < n) (mol_bonds mol)
  ∧ match raman with
    | Some (raman_intensities, raman_spectrum) =>
        length raman_intensities = 3 * n
        ∧ length raman_spectrum = length (ir_get_spectrum ir).1
    | None => True
    end.

(** The data on which [assemble] returns a result: data of matching shapes,
    the structure of the [Infrared] object with a symbol and a position for
    each of its atoms, and moments of inertia that can be computed for every
    mode (the products and the eigenvalue solver return for the structure
    and for each displaced structure). *)
Definition analysable {ext : Externals} (atoms : Atoms) (mol : Mol)
    (ir : Infrared) (raman : option (list float * list float)) : Prop :=
  let n := length (ir_indices ir) in
  well_shaped atoms mol ir raman
  ∧ length (positions (ir_atoms ir)) = n
  ∧ length (symbols (ir_atoms ir)) = n
  ∧ Forall (λ k, ∃ x, get_change_in_moi (ir_atoms ir) ir k = Ok x)
           (seq 0 (3 * n)).

(** [w'] is [w] after calls that touch no cache and no scratch directory
    other than [name], and that made the calls [evs]. *)
Definition step (name : string) (evs : list event) (w w' : World) : Prop :=
  conformer_cache w' = conformer_cache w
  ∧ ir_cache w' = ir_cache w
  ∧ ir_from_smiles_cache w' = ir_from_smiles_cache w
  ∧ ir_from_molfile_cache w' = ir_from_molfile_cache w
  ∧ (∀ d, d ≠ name → d ∈ scratch w' ↔ d ∈ scratch w)
  ∧ trace w' = trace w ++ evs.

(** With more than two atoms the first [zero_modes] rows are masked. *)
Definition masked (atoms : Atoms) (linear : bool) (j : nat) : Prop :=
  2 < length (positions atoms) ∧ j < zero_modes linear.

(** The scores [s] descend: every entry is at least as large as every
    later one. *)
Definition descends (s : list float) : Prop :=
  ∀ i j x y, i < j → s !! i = Some x → s !! j = Some y →
    PrimFloat.leb y x = true.

(** * Properties *)

(** ** numpy helpers *)

Lemma where_from_elem (i : nat) (mask : list bool) (j : nat) :
  j ∈ np.where_from i mask ↔ ∃ k, j = i + k ∧ mask !! k = Some true.
Proof.
  revert i. induction mask as [|b tl IH]; intros i; simpl.
  - split; [intros Hin; inversion Hin | intros (k & _ & Hk); discriminate].
  - assert (Htl : j ∈ np.where_from (S i) tl ↔
                  ∃ k, j = i + S k ∧ tl !! k = Some true).
    { rewrite IH. split; intros (k & -> & Hk); exists k; split; auto; lia. }
    destruct b.
    + rewrite elem_of_cons, Htl. split.
      * intros [-> | (k & -> & Hk)]; [exists 0 | exists (S k)]; split; auto; lia.
      * intros ([|k] & -> & Hk); [left; lia | right; exists k; auto].
    + rewrite Htl. split.
      * intros (k & -> & Hk). exists (S k); auto.
      * intros ([|k] & -> & Hk); [discriminate | exists k; auto].
Qed.

Lemma where_elem (mask : list bool) (j : nat) :
  j ∈ np.where_ mask ↔ mask !! j = Some true.
Proof.
  unfold np.where_. rewrite where_from_elem. split.
  - intros (k & -> & Hk). exact Hk.
  - intros Hj. exists j. auto.
Qed.

Lemma above_gap_elem (rel : list float) (gap : float) (i : nat) :
  i ∈ above_gap rel gap ↔
  ∃ r, rel !! i = Some r ∧ np.gt r (threshold * gap) = true.
Proof.
  unfold above_gap. rewrite where_elem, list_lookup_fmap. split.
  - destruct (rel !! i) as [r|]; simpl; [|discriminate].
    intros [= Hr]. eauto.
  - intros (r & -> & Hr). simpl. by rewrite Hr.
Qed.

Lemma diff_length (a : list float) : length (np.diff a) = pred (length a).
Proof.
  induction a as [|x [|y tl] IH]; simpl in *; auto.
Qed.

Lemma max_nonempty (a : list float) :
  0 < length a → ∃ m, np.max a = Ok m.
Proof. destruct a; simpl; [lia | eauto]. Qed.

Lemma max_empty (a : list float) : length a = 0 → np.max a = Raise ValueError.
Proof. by destruct a. Qed.

Lemma max_abs_diff_ok (rel : list float) :
  1 < length rel → ∃ gap, max_abs_diff rel = Ok gap.
Proof.
  intros Hlen. apply max_nonempty.
  rewrite length_map, diff_length. lia.
Qed.

Lemma max_abs_diff_short (rel : list float) :
  length rel ≤ 1 → max_abs_diff rel = Raise ValueError.
Proof.
  intros Hlen. apply max_empty.
  rewrite length_map, diff_length. lia.
Qed.

(** ** C2: the linearity test *)

(** C2: for the three principal moments of inertia [a], [b], [c], the
    analyzer classifies the molecule as linear if and only if exactly two of
    them exceed the threshold 0.01 (not: at least two). *)
Theorem linear_iff_exactly_two (a b c : float) :
  is_linear [a; b; c] = true ↔
    (exceeds a ∧ exceeds b ∧ ¬ exceeds c)
    ∨ (exceeds a ∧ ¬ exceeds b ∧ exceeds c)
    ∨ (¬ exceeds a ∧ exceeds b ∧ exceeds c).
Proof.
  unfold is_linear, exceeds, count_true. simpl.
  destruct (np.gt a 0.01), (np.gt b 0.01), (np.gt c 0.01); simpl;
    (split; [intros Heq; try discriminate | intros Hor]); intuition congruence.
Qed.

(** C2, as stated, fails: all three moments of a nonlinear molecule exceed
    0.01, so at least two do, and the molecule is not classified as linear. *)
Lemma linear_not_at_least_two :
  ¬ (is_linear [1; 2; 3]%float = true ↔ at_least_two_exceed [1; 2; 3]%float = true).
Proof.
  intros [_ Hback].
  assert (Hfalse : is_linear [1; 2; 3]%float = false) by (vm_compute; reflexivity).
  rewrite Hback in Hfalse; [discriminate | vm_compute; reflexivity].
Qed.

(** ** C3: the adaptive-gap rule *)

Lemma bind_Ok {A B} (m : res A) (f : A → res B) (b : B) :
  m ≫= f = Ok b → ∃ a, m = Ok a ∧ f a = Ok b.
Proof. destruct m as [a|e]; simpl; [eauto | discriminate]. Qed.

Lemma bind_Raise {A B} (m : res A) (f : A → res B) (e : exn) :
  m = Raise e → m ≫= f = Raise e.
Proof. by intros ->. Qed.

Lemma select_bonds_many (displacements : list float) :
  1 < length displacements →
  ∃ gap,
    max_abs_diff (bond_relative_contribution displacements) = Ok gap
    ∧ select_most_contributing_bonds displacements
      = Ok (above_gap (bond_relative_contribution displacements) gap).
Proof.
  intros Hlen. unfold select_most_contributing_bonds.
  destruct (max_abs_diff_ok (bond_relative_contribution displacements))
    as [gap Hgap].
  { unfold bond_relative_contribution. by rewrite length_map. }
  exists gap. split; [done|].
  rewrite decide_True by done. simpl. by rewrite Hgap.
Qed.

Lemma select_bonds_few (displacements : list float) :
  length displacements ≤ 1 →
  select_most_contributing_bonds displacements = Ok [0].
Proof.
  intros Hlen. unfold select_most_contributing_bonds.
  rewrite decide_False by lia. done.
Qed.

Lemma select_atoms_Ok (ir : Infrared) (n : nat) (sel : list nat) :
  select_most_contributing_atoms ir n = Ok sel →
  ∃ d largest gap,
    get_mode ir n = Ok d ∧ 1 < length d
    ∧ np.max (map norm d) = Ok largest
    ∧ max_abs_diff (atom_relative_contribution d largest) = Ok gap
    ∧ sel = above_gap (atom_relative_contribution d largest) gap.
Proof.
  unfold select_most_contributing_atoms. intros H.
  apply bind_Ok in H as (d & Hd & H).
  apply bind_Ok in H as (largest & Hmax & H).
  apply bind_Ok in H as (gap & Hgap & H).
  injection H as <-.
  exists d, largest, gap. repeat split; try done.
  destruct (decide (1 < length d)) as [|Hshort]; [done|].
  rewrite max_abs_diff_short in Hgap; [discriminate|].
  unfold atom_relative_contribution. rewrite !length_map. lia.
Qed.

Lemma select_atoms_many (ir : Infrared) (n : nat) (d : list vec3) :
  get_mode ir n = Ok d → 1 < length d →
  ∃ largest gap,
    np.max (map norm d) = Ok largest
    ∧ max_abs_diff (atom_relative_contribution d largest) = Ok gap
    ∧ select_most_contributing_atoms ir n
      = Ok (above_gap (atom_relative_contribution d largest) gap).
Proof.
  intros Hd Hlen. unfold select_most_contributing_atoms. rewrite Hd. simpl.
  destruct (max_nonempty (map norm d)) as [largest Hmax].
  { rewrite length_map. lia. }
  destruct (max_abs_diff_ok (atom_relative_contribution d largest))
    as [gap Hgap].
  { unfold atom_relative_contribution. by rewrite !length_map. }
  exists largest, gap. rewrite Hmax. simpl. by rewrite Hgap.
Qed.




(** ** The order of floats *)

Lemma SFcompare_refl (s : spec_float) :
  s ≠ S754_nan → SFcompare s s = Some Eq.
Proof.
  destruct s as [[]|[]| |[] m e]; simpl; try done; intros _;
    rewrite Z.compare_refl, ?Pos.compare_refl; by rewrite ?Pos.compare_cont_refl.
Qed.

Lemma isnan_spec (x : float) : np.isnan x = true ↔ Prim2SF x = S754_nan.
Proof.
  unfold np.isnan, np.ne. rewrite (FloatAxioms.eqb_spec x x). unfold SFeqb. split.
  - intros Hne. destruct (Prim2SF x) as [s|s| |s m e] eqn:Hs; [| |done|];
      by rewrite SFcompare_refl in Hne.
  - by intros ->.
Qed.

Lemma leb_nan (x y : float) :
  np.isnan x = true ∨ np.isnan y = true → PrimFloat.leb x y = false.
Proof.
  rewrite !isnan_spec, leb_spec. unfold SFleb.
  intros [-> | ->]; [done|]. by destruct (Prim2SF x).
Qed.

(** The order of the finite floats of one sign: by exponent, then mantissa. *)
Lemma SFleb_trans (x y z : spec_float) :
  SFleb x y = true → SFleb y z = true → SFleb x z = true.
Proof.
  unfold SFleb.
  destruct x as [[]|[]| |[] m1 e1], y as [[]|[]| |[] m2 e2],
           z as [[]|[]| |[] m3 e3]; simpl; try done;
    rewrite ?Pos.compare_cont_spec; simpl;
    destruct (Z.compare_spec e1 e2), (Z.compare_spec e2 e3),
             (Z.compare_spec e1 e3); simpl; try done; try lia;
    destruct (Pos.compare_spec m1 m2), (Pos.compare_spec m2 m3),
             (Pos.compare_spec m1 m3); simpl; try done; lia.
Qed.

Lemma SFleb_total (x y : spec_float) :
  x ≠ S754_nan → y ≠ S754_nan → SFleb x y = false → SFleb y x = true.
Proof.
  unfold SFleb.
  destruct x as [[]|[]| |[] m1 e1], y as [[]|[]| |[] m2 e2]; simpl; try done;
    intros _ _; rewrite ?Pos.compare_cont_spec; simpl;
    destruct (Z.compare_spec e1 e2), (Z.compare_spec e2 e1);
      simpl; try done; try lia;
    destruct (Pos.compare_spec m1 m2), (Pos.compare_spec m2 m1);
      simpl; try done; lia.
Qed.

Lemma leb_refl (x : float) : np.isnan x = false → PrimFloat.leb x x = true.
Proof.
  intros Hx. rewrite leb_spec. unfold SFleb.
  rewrite SFcompare_refl; [done|]. intros Hs. apply isnan_spec in Hs. congruence.
Qed.

Lemma leb_trans (x y z : float) :
  PrimFloat.leb x y = true → PrimFloat.leb y z = true →
  PrimFloat.leb x z = true.
Proof. rewrite !leb_spec. apply SFleb_trans. Qed.

Lemma leb_total (x y : float) :
  np.isnan x = false → np.isnan y = false →
  PrimFloat.leb x y = false → PrimFloat.leb y x = true.
Proof.
  intros Hx Hy. rewrite !leb_spec. apply SFleb_total.
  - intros Hs. apply isnan_spec in Hs. congruence.
  - intros Hs. apply isnan_spec in Hs. congruence.
Qed.

(** Without [nan], not to be less is to be at least as large. *)
Lemma not_less_leb (x y : float) :
  np.isnan x = false → np.isnan y = false →
  not_less x y → PrimFloat.leb y x = true.
Proof.
  unfold not_less. intros Hx Hy Hlt.
  destruct (PrimFloat.leb y x) eqn:Hle; [done|].
  pose proof (leb_total _ _ Hy Hx Hle) as Hxy.
  assert (Hnx : Prim2SF x ≠ S754_nan) by (rewrite <- isnan_spec; congruence).
  assert (Hny : Prim2SF y ≠ S754_nan) by (rewrite <- isnan_spec; congruence).
  rewrite leb_spec in Hle, Hxy. rewrite ltb_spec in Hlt.
  unfold SFleb, SFltb in *.
  destruct (Prim2SF x) as [[]|[]| |[] m1 e1], (Prim2SF y) as [[]|[]| |[] m2 e2];
    simpl in *; try done;
    rewrite ?Pos.compare_cont_spec in *; simpl in *;
    destruct (Z.compare_spec e1 e2), (Z.compare_spec e2 e1);
      simpl in *; try done; try lia;
    destruct (Pos.compare_spec m1 m2), (Pos.compare_spec m2 m1);
      simpl in *; try done; lia.
Qed.

(** A list without [nan] in which no entry is less than its successor
    descends: every entry is at least as large as every later one. *)
Lemma sorted_descends (s : list float) :
  Forall (λ x, np.isnan x = false) s → Sorted not_less s → descends s.
Proof.
  intros Hnan Hsorted.
  induction Hsorted as [|x tl Htl IH Hhd]; intros i j a b Hij Ha Hb.
  - by rewrite lookup_nil in Ha.
  - apply Forall_cons_1 in Hnan as [Hx Hnan].
    specialize (IH Hnan).
    assert (Hall : ∀ k c, tl !! k = Some c → PrimFloat.leb c x = true).
    { intros k. induction k as [|k IHk]; intros c Hc.
      - destruct tl as [|y tl']; [done|]. injection Hc as ->.
        apply HdRel_inv in Hhd.
        apply Forall_cons_1 in Hnan as [Hy _]. by apply not_less_leb.
      - destruct (lookup_lt_is_Some_2 tl k) as [c' Hc'].
        { apply lookup_lt_Some in Hc. lia. }
        apply (leb_trans c c' x); [|by apply IHk].
        apply (IH k (S k) c' c); [lia | done | done]. }
    destruct i as [|i], j as [|j]; try lia.
    + injection Ha as <-. by eapply Hall.
    + apply (IH i j a b); [lia | done | done].
Qed.

(** Two neighbours of a list sorted by [R] are related by [R]. *)
Lemma Sorted_neighbours {A} (R : A → A → Prop) (l : list A) (i : nat)
    (x y : A) :
  Sorted R l → l !! i = Some x → l !! S i = Some y → R x y.
Proof.
  intros Hsorted. revert i.
  induction Hsorted as [|z tl Htl IH Hhd]; intros i Hx Hy; [done|].
  destruct i as [|i].
  - injection Hx as ->. destruct tl as [|y' tl']; [done|].
    injection Hy as ->. by apply HdRel_inv in Hhd.
  - by apply (IH i).
Qed.

(** ** C1: the mode classifier *)

Lemma lookup_seq_all {A} (l ys : list A) :
  Forall2 (λ k y, l !! k = Some y) (seq 0 (length l)) ys → ys = l.
Proof.
  intros Hall.
  pose proof (Forall2_length _ _ _ Hall) as Hlen. rewrite length_seq in Hlen.
  apply (list_eq_same_length _ _ (length l)); [done | done |].
  intros i x y Hi Hx Hy.
  assert (Hseq : seq 0 (length l) !! i = Some i).
  { apply lookup_seq. split; [done | lia]. }
  pose proof (Forall2_lookup_lr _ _ _ _ _ _ Hall Hseq Hx) as Hl.
  congruence.
Qed.

Lemma filter_length_map {A B} (P : A → Prop) (Q : B → Prop) (f : A → B)
    `{∀ x, Decision (P x)} `{∀ y, Decision (Q y)} (l : list A) :
  (∀ x, x ∈ l → P x ↔ Q (f x)) →
  length (filter P l) = length (filter Q (map f l)).
Proof.
  induction l as [|x l IH]; intros Hpq; [done|].
  simpl. rewrite !filter_cons.
  assert (Hx : P x ↔ Q (f x)) by (apply Hpq; left).
  assert (Hl : length (filter P l) = length (filter Q (map f l))).
  { apply IH. intros y Hy. apply Hpq. by right. }
  destruct (decide (P x)), (decide (Q (f x))); simpl; tauto || lia.
Qed.

Lemma filter_below_seq (z n : nat) :
  length (filter (λ k, k < z) (seq 0 n)) = z `min` n.
Proof.
  induction n as [|n IH]; [simpl; lia|].
  rewrite seq_S, filter_app, length_app, IH. simpl.
  rewrite filter_cons, filter_nil.
  destruct (decide (n < z)); simpl; lia.
Qed.

Lemma index_Ok {A} (l : list A) (i : nat) (a : A) :
  index l i = Ok a ↔ l !! i = Some a.
Proof.
  unfold index. destruct (l !! i); split; intros Heq; congruence.
Qed.

Lemma mode_type_Ok (linear : bool) (alignments : list float) (third : float)
    (n : nat) (ty : ModeType) :
  mode_type linear alignments third n = Ok ty →
  (n < 3 → ty = translation)
  ∧ (3 ≤ n < 5 → ty = rotation)
  ∧ (n = 5 → linear = true → ty = vibration)
  ∧ (n = 5 → linear = false →
     ∃ a, alignments !! 5 = Some a
          ∧ ty = if np.ge a third then translation else rotation)
  ∧ (5 < n → ty = vibration).
Proof.
  unfold mode_type. intros Hty.
  destruct (decide (n < 3)); [injection Hty as <-; repeat split; intros; done || lia|].
  destruct (decide (n < 5)); [injection Hty as <-; repeat split; intros; done || lia|].
  destruct (decide (n = 5)) as [->|].
  - destruct linear.
    + injection Hty as <-. repeat split; intros; done || lia.
    + apply bind_Ok in Hty as (a & Ha & Hty). apply index_Ok in Ha.
      repeat split; intros; try done; try lia.
      exists a. split; [done|].
      destruct (np.ge a third); by injection Hty as <-.
  - injection Hty as <-. repeat split; intros; done || lia.
Qed.

Lemma mode_type_zero_modes (linear : bool) (alignments : list float)
    (third : float) (n : nat) (ty : ModeType) :
  mode_type linear alignments third n = Ok ty →
  ty ≠ vibration ↔ n < zero_modes linear.
Proof.
  intros Hty.
  destruct (mode_type_Ok _ _ _ _ _ Hty) as (Ht & Hr & Hlin & Hnon & Hv).
  unfold zero_modes.
  destruct (decide (n < 3)); [rewrite Ht by done; destruct linear; split; done || lia|].
  destruct (decide (n < 5)); [rewrite Hr by lia; destruct linear; split; done || lia|].
  destruct (decide (n = 5)) as [->|].
  - destruct linear.
    + rewrite Hlin by done. split; [done | lia].
    + destruct Hnon as (a & _ & ->); [done | done |].
      destruct (np.ge a third); split; done || lia.
  - rewrite Hv by lia. destruct linear; split; done || lia.
Qed.

Section Classifier.
Context {ext : Externals}.
Context (ir : Infrared) (linear : bool) (alignments : list float)
  (third : float) (bond_displacements : option (list (list float)))
  (bonds : option (list (nat * nat))) (raman : option (list float))
  (num_modes : nat).

(** What an entry of a mode holds, read off the body of the loop. *)
Lemma mode_entry_Ok (n : nat) (info : ModeInfo) (fc : float * bool) :
  mode_entry ir linear alignments third bond_displacements bonds raman
    num_modes n = Ok (info, fc) →
  number info = n
  ∧ mode_type linear alignments third n = Ok (modeType info)
  ∧ raman_entry raman num_modes n = Ok (ramanIntensity info)
  ∧ select_most_contributing_atoms ir n = Ok (mostContributingAtoms info)
  ∧ ∃ bd row sel all_bonds named,
      bond_displacements = Some bd
      ∧ index bd n = Ok row
      ∧ select_most_contributing_bonds row = Ok sel
      ∧ bonds = Some all_bonds
      ∧ mapM (index all_bonds) sel = Ok named
      ∧ mostContributingBonds info = Some named.
Proof.
  unfold mode_entry. intros H.
  apply bind_Ok in H as (ty & Hty & H).
  apply bind_Ok in H as (fc' & Hfc & H).
  apply bind_Ok in H as (bound & Hbound & H).
  apply bind_Ok in H as (r & Hr & H).
  apply bind_Ok in H as (xyz & Hxyz & H).
  apply bind_Ok in H as (strength & Hstrength & H).
  apply bind_Ok in H as (m & Hm & H).
  apply bind_Ok in H as (atoms & Hatoms & H).
  apply bind_Ok in H as (current & Hcurrent & H).
  apply bind_Ok in H as (change & Hchange & H).
  apply bind_Ok in H as (alignment & Halignment & H).
  injection H as <- <-. simpl.
  repeat split; try done.
  destruct bond_displacements as [bd|].
  - apply bind_Ok in Hbound as (row & Hrow & Hbound).
    apply bind_Ok in Hbound as (sel & Hsel & Hbound).
    apply bind_Ok in Hbound as (named & Hnamed & Hbound).
    apply bind_Ok in Hbound as (m' & Hm' & Hbound).
    injection Hbound as <-. simpl.
    destruct bonds as [all_bonds|]; [|discriminate].
    by exists bd, row, sel, all_bonds, named.
  - injection Hbound as <-. discriminate.
Qed.

(** The loop appends one entry per rank, in the order of the ranks. *)
Lemma modes_loop_Ok (mapping ranks : list nat)
    (acc out : list ModeInfo * bool * bool) :
  modes_loop ir linear alignments third bond_displacements bonds raman
    num_modes mapping ranks acc = Ok out →
  ∃ entries,
    out.1.1 = acc.1.1 ++ entries
    ∧ Forall2 (λ k info, ∃ n fc,
                 mapping !! k = Some n
                 ∧ mode_entry ir linear alignments third bond_displacements
                     bonds raman num_modes n = Ok (info, fc))
        ranks entries.
Proof.
  revert acc. induction ranks as [|k ranks IH]; intros acc; simpl.
  - intros [= <-]. exists []. by rewrite app_nil_r.
  - intros H.
    apply bind_Ok in H as (n & Hn & H).
    apply bind_Ok in H as (e & He & H).
    destruct acc as [[ms hi] hli], e as [info [f c]].
    apply IH in H as (entries & Hout & Hall).
    exists (info :: entries). split.
    + rewrite Hout. simpl. by rewrite <- app_assoc.
    + constructor; [|done].
      exists n, (f, c). split; [|done].
      destruct (mapping !! k); [by injection Hn as -> | discriminate].
Qed.

End Classifier.

(** C1: for every analyzed molecule (the classifier returns), the type of a
    mode follows from the index [number] that the mode has in the output of
    the engine, whatever its place in the returned, frequency-ordered list:
    0-2 translation, 3 and 4 rotation, 5 vibration if the molecule is linear
    and otherwise translation when the alignment score of mode 5 is at least
    the third-highest score and rotation when it is not, 6 and more
    vibration. The third-highest score is the third entry of the scores
    re-ordered by [sorted(alignments, reverse=True)], a list that descends
    when no score is [nan]. The numbers are the indices [0 .. 3N-1], each
    once, so exactly 5 modes of a linear molecule and exactly 6 modes of a
    nonlinear one are translations or rotations. *)
Theorem modes_classified {ext : Externals} (ir : Infrared) (linear : bool)
    (alignments : list float) (bond_displacements : option (list (list float)))
    (bonds : option (list (nat * nat))) (raman : option (list float))
    (modes : list ModeInfo) (has_imaginary has_large_imaginary : bool) :
  well_formed ir →
  length alignments = 3 * length (ir_indices ir) →
  compile_modes_info ir linear alignments bond_displacements bonds raman
    = Ok (modes, has_imaginary, has_large_imaginary) →
  ∃ ranked third_best,
    ranked ≡ₚ alignments
    ∧ (Forall (λ a, np.isnan a = false) alignments → descends ranked)
    ∧ ranked !! 2 = Some third_best
    ∧ (∀ m, m ∈ modes →
         (number m < 3 → modeType m = translation)
         ∧ (3 ≤ number m < 5 → modeType m = rotation)
         ∧ (number m = 5 → linear = true → modeType m = vibration)
         ∧ (number m = 5 → linear = false →
            ∃ a, alignments !! 5 = Some a
                 ∧ modeType m =
                   if np.ge a third_best then translation else rotation)
         ∧ (5 < number m → modeType m = vibration))
    ∧ map number modes ≡ₚ seq 0 (3 * length (ir_indices ir))
    ∧ length (filter (λ m, modeType m ≠ vibration) modes)
      = if linear then 5 else 6.
Proof.
  intros [Hfreq Hrows] Halign H. unfold compile_modes_info in H.
  apply bind_Ok in H as (third & Hthird & H).
  apply modes_loop_Ok in H as (entries & Hout & Hall).
  simpl in Hout. subst modes.
  set (mapping := argsort_complex (ir_get_frequencies ir)) in *.
  assert (Hentry : ∀ m, m ∈ entries →
            mode_type linear alignments third (number m) = Ok (modeType m)
            ∧ ∃ sel, select_most_contributing_atoms ir (number m) = Ok sel).
  { intros m Hm. apply list_elem_of_lookup in Hm as [i Hi].
    destruct (Forall2_lookup_r _ _ _ _ _ Hall Hi) as (k & _ & n & fc & _ & He).
    apply mode_entry_Ok in He as (Hn & Hty & _ & Hsel & _).
    rewrite Hn. eauto. }
  assert (Hperm : mapping ≡ₚ seq 0 (3 * length (ir_indices ir))).
  { unfold mapping. rewrite argsort_complex_perm. by rewrite Hfreq. }
  assert (Hnum : map number entries = mapping).
  { apply lookup_seq_all. rewrite Hperm, length_seq.
    apply Forall2_fmap_r. eapply Forall2_impl; [exact Hall|].
    intros k info (n & fc & Hk & He). simpl.
    apply mode_entry_Ok in He as (-> & _). done. }
  assert (Hatoms : 2 ≤ length (ir_indices ir)).
  { destruct (length (ir_indices ir)) as [|N] eqn:HN.
    - destruct alignments; [|simpl in Halign; lia].
      apply index_Ok, lookup_lt_Some in Hthird.
      rewrite (Permutation_length (sorted_reverse_perm [])) in Hthird.
      simpl in Hthird. lia.
    - replace (3 * S N) with (S (3 * N + 2)) in Hall by lia.
      simpl in Hall. inversion Hall as [|k info ks infos Hfirst _ Hk Hinfos].
      subst. destruct (Hentry info) as (_ & sel & Hsel); [left|].
      apply select_atoms_Ok in Hsel as (d & _ & _ & Hd & Hlen & _).
      apply index_Ok, list_elem_of_lookup_2 in Hd.
      rewrite Forall_forall in Hrows. rewrite (Hrows d Hd) in Hlen. lia. }
  exists (sorted_reverse alignments), third.
  split; [apply sorted_reverse_perm|]. split.
  { intros Hnan. apply sorted_descends; [|by apply sorted_reverse_descends].
    by rewrite sorted_reverse_perm. }
  split; [by apply index_Ok|]. split; [|split].
  - intros m Hm. destruct (Hentry m Hm) as (Hty & _).
    by apply mode_type_Ok.
  - by rewrite Hnum.
  - rewrite (filter_length_map _ (λ n, n < zero_modes linear) number).
    + rewrite Hnum, Hperm, filter_below_seq.
      unfold zero_modes. destruct linear; lia.
    + intros m Hm. destruct (Hentry m Hm) as (Hty & _).
      by eapply mode_type_zero_modes.
Qed.

Lemma modes_classified_witness :
  ∃ modes has_imaginary has_large_imaginary ranked third_best,
    compile_modes_info (ext := Toy.sound) Toy.ir false Toy.alignments
      (Some Toy.bond_rows) (Some (mol_bonds Toy.water)) None
      = Ok (modes, has_imaginary, has_large_imaginary)
    ∧ ranked ≡ₚ Toy.alignments
    ∧ descends ranked
    ∧ ranked !! 2 = Some third_best
    ∧ map number modes ≡ₚ seq 0 9
    ∧ length (filter (λ m, modeType m ≠ vibration) modes) = 6.
Proof.
  eassert (Hrun : compile_modes_info (ext := Toy.sound) Toy.ir false
                    Toy.alignments (Some Toy.bond_rows)
                    (Some (mol_bonds Toy.water)) None = Ok (_, _, _)).
  { vm_compute. reflexivity. }
  assert (Hwf : well_formed Toy.ir).
  { split; [reflexivity | repeat constructor]. }
  assert (Hlen : length Toy.alignments = 3 * length (ir_indices Toy.ir)).
  { reflexivity. }
  assert (Hnan : Forall (λ a, np.isnan a = false) Toy.alignments).
  { repeat constructor. }
  destruct (modes_classified (ext := Toy.sound) _ _ _ _ _ _ _ _ _ Hwf Hlen Hrun)
    as (ranked & third_best & Hranked & Hdesc & Hthird & _ & Hperm & Hcount).
  eexists _, _, _, ranked, third_best.
  split; [exact Hrun|]. split; [exact Hranked|].
  split; [exact (Hdesc Hnan)|]. split; [exact Hthird|].
  split; [exact Hperm | exact Hcount].
Defined.

(** C1, as stated, fails: the claim assigns the types by the place of a mode
    in the frequency-ordered list. For the nonlinear molecule of the
    example, the entry at place 3 of the returned list (the fourth-lowest
    frequency) is the engine's mode 6 and is a vibration, where the claim
    says rotation; the engine's modes 1 and 4, at the places 6 and 7, are a
    translation and a rotation, where the claim says vibration. *)
Lemma classified_by_engine_index :
  ∃ modes has_imaginary has_large_imaginary,
    compile_modes_info (ext := Toy.sound) Toy.ir false Toy.alignments
      (Some Toy.bond_rows) (Some (mol_bonds Toy.water)) None
      = Ok (modes, has_imaginary, has_large_imaginary)
    ∧ map number modes = [0; 2; 3; 6; 5; 8; 1; 4; 7]
    ∧ map modeType modes
      = [translation; translation; rotation; vibration; rotation;
         vibration; translation; rotation; vibration].
Proof.
  eexists _, _, _. split; [vm_compute; reflexivity|].
  split; reflexivity.
Qed.

(** ** The state monad *)

Lemma M_bind_Ok {A B} (m : M A) (f : A → M B) (w w' : World) (b : B) :
  (m ≫= f) w = (Ok b, w') →
  ∃ a w1, m w = (Ok a, w1) ∧ f a w1 = (Ok b, w').
Proof.
  unfold mbind, M_bind. destruct (m w) as [[a|e] w1]; [eauto | discriminate].
Qed.

Lemma M_bind_run {A B} (m : M A) (f : A → M B) (w w1 : World) (a : A) :
  m w = (Ok a, w1) → (m ≫= f) w = f a w1.
Proof. unfold mbind, M_bind. by intros ->. Qed.

Lemma M_bind_raise {A B} (m : M A) (f : A → M B) (w w1 : World) (e : exn) :
  m w = (Raise e, w1) → (m ≫= f) w = (Raise e, w1).
Proof. unfold mbind, M_bind. by intros ->. Qed.

Lemma rmtree_present (name : string) (w : World) :
  name ∈ scratch w →
  ∃ w', rmtree name w = (Ok (), w')
        ∧ scratch w' = scratch w ∖ {[name]}
        ∧ conformer_cache w' = conformer_cache w
        ∧ ir_cache w' = ir_cache w
        ∧ ir_from_smiles_cache w' = ir_from_smiles_cache w
        ∧ ir_from_molfile_cache w' = ir_from_molfile_cache w
        ∧ trace w' = trace w.
Proof.
  intros Hin. unfold rmtree. rewrite decide_True by done.
  eexists. split; [reflexivity|]. done.
Qed.

Lemma rmtree_Ok (name : string) (w w' : World) (u : unit) :
  rmtree name w = (Ok u, w') → scratch w' = scratch w ∖ {[name]}.
Proof.
  unfold rmtree. destruct (decide (name ∈ scratch w)); [|discriminate].
  by intros [= _ <-].
Qed.

(** ** C4, C8, C10: the structure builder *)

Section Builder.
Context {ext : Externals}.

Lemma smiles2ase_cached (smiles : string) (max_atoms : option nat)
    (w : World) (result : Atoms * Mol) :
  conformer_cache w !! smiles = Some result →
  smiles2ase smiles max_atoms w = (Ok result, w).
Proof.
  intros Hhit. unfold smiles2ase. cbv [mbind M_bind gets]. by rewrite Hhit.
Qed.

Lemma smiles2ase_too_large (smiles : string) (max_atoms : nat) (mol : Mol)
    (w : World) :
  conformer_cache w !! smiles = None →
  MolFromSmiles smiles = Some mol →
  max_atoms < GetNumAtoms mol →
  smiles2ase smiles (Some max_atoms) w = (Raise TooLargeError, w).
Proof.
  intros Hmiss Hparse Hbig.
  unfold smiles2ase. cbv [mbind M_bind gets lift]. rewrite Hmiss, Hparse.
  simpl. by rewrite decide_True.
Qed.

Lemma molfile2ase_too_large (molfile : string) (max_atoms : nat) (mol : Mol)
    (w : World) :
  conformer_cache w !! molfile = None →
  MolFromMolBlock molfile = Some mol →
  max_atoms < GetNumAtoms mol →
  molfile2ase molfile (Some max_atoms) w = (Raise TooLargeError, w).
Proof.
  intros Hmiss Hparse Hbig.
  unfold molfile2ase. cbv [mbind M_bind gets lift]. rewrite Hmiss, Hparse.
  simpl. by rewrite decide_True.
Qed.

(** What [smiles2ase] does when the limit is respected. *)
Lemma smiles2ase_within_limit (smiles : string) (max_atoms : nat) (mol : Mol)
    (w : World) :
  conformer_cache w !! smiles = None →
  MolFromSmiles smiles = Some mol →
  GetNumAtoms mol ≤ max_atoms →
  (smiles2ase smiles (Some max_atoms) w).1
  = (refmol ← embed_conformer (AddHs mol);
     atoms ← rdkit2ase refmol;
     mret (atoms, refmol)).
Proof.
  intros Hmiss Hparse Hsmall.
  unfold smiles2ase. cbv [mbind M_bind gets lift]. rewrite Hmiss, Hparse.
  simpl. rewrite decide_False by lia.
  destruct (embed_conformer (AddHs mol)) as [refmol|e]; [|done]. simpl.
  by destruct (rdkit2ase refmol).
Qed.

Lemma rdkit2ase_Ok (mol : Mol) (atoms : Atoms) :
  rdkit2ase mol = Ok atoms →
  length (symbols atoms) = GetNumAtoms mol
  ∧ length (positions atoms) = GetNumAtoms mol.
Proof.
  unfold rdkit2ase. destruct (mol_conformer mol) as [pos|]; [|discriminate].
  destruct (decide (length pos = GetNumAtoms mol)); [|discriminate].
  by intros [= <-].
Qed.

Lemma rdkit2ase_not_too_large (mol : Mol) :
  rdkit2ase mol ≠ Raise TooLargeError.
Proof.
  unfold rdkit2ase. destruct (mol_conformer mol); [|discriminate].
  destruct (decide _); discriminate.
Qed.

End Builder.

(** Where the limit is checked: for every input that has no cached
    conformer and whose parsed molecular graph has more atoms than the
    limit, the structure builder raises [TooLargeError] and leaves the state
    as it was: nothing is embedded and nothing is cached; the same holds for
    [ir_from_smiles] and [ir_from_molfile] under the limit of the method, so
    no optimization and no analysis is performed. *)
Theorem too_large_fails_fast {ext : Externals} (text method : string)
    (max_atoms : nat) (mol : Mol) (w : World) :
  conformer_cache w !! text = None →
  max_atoms < GetNumAtoms mol →
  (MolFromSmiles text = Some mol →
   smiles2ase text (Some max_atoms) w = (Raise TooLargeError, w)
   ∧ (get_max_atoms method = Some max_atoms →
      ir_from_smiles_cache w !! hash_object (text +:+ method) = None →
      ir_from_smiles text method w = (Raise TooLargeError, w)))
  ∧ (MolFromMolBlock text = Some mol →
     molfile2ase text (Some max_atoms) w = (Raise TooLargeError, w)
     ∧ (get_max_atoms method = Some max_atoms →
        ir_from_molfile_cache w !! hash_object (text +:+ method) = None →
        ir_from_molfile text method w = (Raise TooLargeError, w))).
Proof.
  intros Hmiss Hbig. split; intros Hparse.
  - pose proof (smiles2ase_too_large text max_atoms mol w Hmiss Hparse Hbig)
      as Hraise.
    split; [done|]. intros Hmax Hfresh.
    unfold ir_from_smiles. cbv [mbind M_bind gets]. rewrite Hfresh.
    unfold calculate_from_smiles. rewrite Hmax.
    by apply M_bind_raise.
  - pose proof (molfile2ase_too_large text max_atoms mol w Hmiss Hparse Hbig)
      as Hraise.
    split; [done|]. intros Hmax Hfresh.
    unfold ir_from_molfile. cbv [mbind M_bind gets]. rewrite Hfresh.
    unfold calculate_from_molfile. rewrite Hmax.
    by apply M_bind_raise.
Qed.

Lemma too_large_fails_fast_witness :
  smiles2ase (ext := Toy.sound) "O=C=O" (Some 2) empty_world
  = (Raise TooLargeError, empty_world)
  ∧ ir_from_smiles (ext := Toy.sound) "O=C=O" "GFN2xTB" empty_world
    = (Raise TooLargeError, empty_world)
  ∧ molfile2ase (ext := Toy.sound) "O=C=O" (Some 2) empty_world
    = (Raise TooLargeError, empty_world)
  ∧ ir_from_molfile (ext := Toy.sound) "O=C=O" "GFN2xTB" empty_world
    = (Raise TooLargeError, empty_world).
Proof.
  assert (Hmiss : conformer_cache empty_world !! "O=C=O" = None)
    by reflexivity.
  assert (Hbig : 2 < GetNumAtoms Toy.carbon_dioxide) by (vm_compute; lia).
  destruct (too_large_fails_fast (ext := Toy.sound) "O=C=O" "GFN2xTB" 2
              Toy.carbon_dioxide empty_world Hmiss Hbig) as [Hsmiles Hmolfile].
  destruct (Hsmiles eq_refl) as [Hs Hpipe].
  destruct (Hmolfile eq_refl) as [Hm Hpipe'].
  split; [exact Hs|]. split; [exact (Hpipe eq_refl eq_refl)|].
  split; [exact Hm | exact (Hpipe' eq_refl eq_refl)].
Defined.

(** C4: the code misses the check on a hit of the conformer cache, which is
    keyed by the input text alone. Carbon dioxide has three atoms and the
    limit of GFN2xTB is two here; once its conformer is cached by a
    computation with GFNFF, the structure builder returns it under the limit
    2, and the computation with GFN2xTB raises no [TooLargeError] and runs
    the optimization, the Raman run and the infrared run. *)
Lemma cached_conformer_skips_limit :
  let w1 := (ir_from_smiles (ext := Toy.sound) "O=C=O" "GFNFF" empty_world).2 in
  MolFromSmiles (Externals := Toy.sound) "O=C=O" = Some Toy.carbon_dioxide
  ∧ get_max_atoms (ext := Toy.sound) "GFN2xTB" = Some 2
  ∧ 2 < GetNumAtoms Toy.carbon_dioxide
  ∧ ∃ structure result w2 name,
      smiles2ase (ext := Toy.sound) "O=C=O" (Some 2) w1 = (Ok structure, w1)
      ∧ ir_from_smiles (ext := Toy.sound) "O=C=O" "GFN2xTB" w1 = (Ok result, w2)
      ∧ trace w2
        = trace w1
          ++ [EvOptimize structure.1 "GFN2xTB"; EvRaman name; EvInfrared name].
Proof.
  intros w1. split; [reflexivity|]. split; [reflexivity|].
  split; [vm_compute; lia|].
  eexists _, _, _, _. split; [vm_compute; reflexivity|].
  split; vm_compute; reflexivity.
Qed.

(** C8: an input that the parser rejects makes the structure builder raise
    [AttributeError], from the method call on [None], and not an error for
    invalid input. *)
Theorem unparseable_input_raises_attribute_error {ext : Externals}
    (text : string) (max_atoms : option nat) (w : World) :
  conformer_cache w !! text = None →
  (MolFromSmiles text = None →
   smiles2ase text max_atoms w = (Raise AttributeError, w))
  ∧ (MolFromMolBlock text = None →
     molfile2ase text max_atoms w = (Raise AttributeError, w)).
Proof.
  intros Hmiss. split.
  - intros Hsmiles. unfold smiles2ase. cbv [mbind M_bind gets lift].
    by rewrite Hmiss, Hsmiles.
  - intros Hmolfile. unfold molfile2ase. cbv [mbind M_bind gets lift].
    by rewrite Hmiss, Hmolfile.
Qed.

Lemma unparseable_input_raises_attribute_error_witness :
  smiles2ase (ext := Toy.sound) "C(" (Some 10) empty_world
  = (Raise AttributeError, empty_world)
  ∧ molfile2ase (ext := Toy.sound) "C(" (Some 10) empty_world
    = (Raise AttributeError, empty_world).
Proof.
  destruct (unparseable_input_raises_attribute_error (ext := Toy.sound)
              "C(" (Some 10) empty_world eq_refl) as [Hsmiles Hmolfile].
  split; [exact (Hsmiles eq_refl) | exact (Hmolfile eq_refl)].
Defined.

(** In the SMILES path the limit is checked on the parsed graph, before
    the hydrogens are added. For a SMILES without a cached conformer,
    [smiles2ase] raises [TooLargeError] exactly when the parsed graph has
    more than [max_atoms] atoms; a structure it returns has the atoms of the
    graph with hydrogens, which can be more than [max_atoms]. *)
Theorem smiles_limit_before_hydrogens {ext : Externals} (smiles : string)
    (max_atoms : nat) (mol : Mol) (w : World) :
  conformer_cache w !! smiles = None →
  MolFromSmiles smiles = Some mol →
  embed_conformer (AddHs mol) ≠ Raise TooLargeError →
  ((smiles2ase smiles (Some max_atoms) w).1 = Raise TooLargeError
   ↔ max_atoms < GetNumAtoms mol)
  ∧ (∀ atoms refmol w',
       smiles2ase smiles (Some max_atoms) w = (Ok (atoms, refmol), w') →
       GetNumAtoms mol ≤ max_atoms
       ∧ embed_conformer (AddHs mol) = Ok refmol
       ∧ length (symbols atoms) = GetNumAtoms refmol
       ∧ length (positions atoms) = GetNumAtoms refmol).
Proof.
  intros Hmiss Hparse Hembed.
  destruct (decide (max_atoms < GetNumAtoms mol)) as [Hbig|Hsmall].
  - rewrite (smiles2ase_too_large smiles max_atoms mol w Hmiss Hparse Hbig).
    split; [done|]. intros atoms refmol w' [=].
  - pose proof (smiles2ase_within_limit smiles max_atoms mol w Hmiss Hparse)
      as Hrun.
    rewrite Nat.nlt_ge in Hsmall. specialize (Hrun Hsmall). split.
    + split; [|lia]. rewrite Hrun. intros Hraise. exfalso.
      destruct (embed_conformer (AddHs mol)) as [refmol|e]; simpl in Hraise.
      * destruct (rdkit2ase refmol) eqn:Hase; simpl in Hraise; [discriminate|].
        apply (rdkit2ase_not_too_large refmol). congruence.
      * apply Hembed. congruence.
    + intros atoms refmol w' Hok. rewrite Hok in Hrun. simpl in Hrun.
      symmetry in Hrun.
      apply bind_Ok in Hrun as (refmol' & Hrefmol & Hrun).
      apply bind_Ok in Hrun as (atoms' & Hase & Hrun).
      injection Hrun as <- <-.
      destruct (rdkit2ase_Ok _ _ Hase). done.
Qed.

Lemma smiles_limit_before_hydrogens_witness :
  ((smiles2ase (ext := Toy.sound) "O" (Some 2) empty_world).1
   = Raise TooLargeError ↔ 2 < GetNumAtoms Toy.water_graph)
  ∧ ∃ atoms refmol w',
      smiles2ase (ext := Toy.sound) "O" (Some 2) empty_world
      = (Ok (atoms, refmol), w')
      ∧ GetNumAtoms Toy.water_graph ≤ 2
      ∧ 2 < length (symbols atoms).
Proof.
  assert (Hembed : embed_conformer (Externals := Toy.sound)
                     (AddHs (Externals := Toy.sound) Toy.water_graph)
                   ≠ Raise TooLargeError) by discriminate.
  destruct (smiles_limit_before_hydrogens (ext := Toy.sound) "O" 2
              Toy.water_graph empty_world eq_refl eq_refl Hembed)
    as [Hiff Hreturned].
  split; [exact Hiff|].
  eassert (Hrun : smiles2ase (ext := Toy.sound) "O" (Some 2) empty_world
                  = (Ok (_, _), _)) by (vm_compute; reflexivity).
  destruct (Hreturned _ _ _ Hrun) as (Hsmall & _ & Hatoms & _).
  eexists _, _, _. split; [exact Hrun|]. split; [exact Hsmall|].
  rewrite Hatoms. vm_compute. lia.
Defined.

(** C10: the limit is checked on the parsed graph, before the hydrogens are
    added, but only on a miss of the conformer cache. Without a cached
    conformer, [smiles2ase] raises [TooLargeError] for carbon dioxide (three
    heavy atoms) under the limit 2; once the conformer is cached by a call
    with the limit 10, the call with the limit 2 returns the structure,
    although the heavy-atom count exceeds the limit. *)
Lemma cached_smiles_exceeds_heavy_atom_limit :
  let w1 := (smiles2ase (ext := Toy.sound) "O=C=O" (Some 10) empty_world).2 in
  MolFromSmiles (Externals := Toy.sound) "O=C=O" = Some Toy.carbon_dioxide
  ∧ 2 < GetNumAtoms Toy.carbon_dioxide
  ∧ smiles2ase (ext := Toy.sound) "O=C=O" (Some 2) empty_world
    = (Raise TooLargeError, empty_world)
  ∧ ∃ atoms refmol,
      smiles2ase (ext := Toy.sound) "O=C=O" (Some 2) w1
      = (Ok (atoms, refmol), w1).
Proof.
  intros w1. split; [reflexivity|]. split; [vm_compute; lia|].
  split; [vm_compute; reflexivity|].
  eexists _, _. vm_compute. reflexivity.
Qed.

(** ** C5, C6: the Raman block and the scratch directory *)

Section Analyzer.
Context {ext : Externals}.

Lemma gets_run {A} (f : World → A) (w : World) : gets f w = (Ok (f w), w).
Proof. done. Qed.

Lemma log_run (ev : event) (w : World) :
  ∃ w', log ev w = (Ok (), w') ∧ scratch w' = scratch w.
Proof. eexists. split; [reflexivity | done]. Qed.

Lemma log_Ok (ev : event) (w w' : World) (u : unit) :
  log ev w = (Ok u, w') → scratch w' = scratch w.
Proof. by intros [= _ <-]. Qed.

Lemma ir_cache_set_Ok (k : string) (v : IRResult) (w w' : World) (u : unit) :
  ir_cache_set k v w = (Ok u, w') →
  scratch w' = scratch w ∧ ir_cache w' !! k = Some v.
Proof. intros [= _ <-]. simpl. split; [done | apply lookup_insert_eq]. Qed.

Lemma perform_completed (name : string) (w : World) :
  ∃ w', perform Completed name w = (Ok (), w')
        ∧ scratch w' = {[name]} ∪ scratch w.
Proof. eexists. split; [reflexivity | done]. Qed.

Lemma perform_Ok (o : run_outcome) (name : string) (w w' : World) (u : unit) :
  perform o name w = (Ok u, w') → name ∈ scratch w'.
Proof.
  destruct o as [|e created]; simpl.
  - intros [= _ <-]. simpl. set_solver.
  - unfold mbind, M_bind. destruct created; simpl; discriminate.
Qed.

(** The result of [assemble] and the data it is made from. *)
Lemma assemble_Ok (atoms : Atoms) (mol : Mol) (linear : bool)
    (moi : list float) (ir : Infrared)
    (raman : option (list float * list float)) (r : IRResult) :
  assemble atoms mol linear moi ir raman = Ok r →
  wavenumbers r = (ir_get_spectrum ir).1
  ∧ intensities r = (ir_get_spectrum ir).2
  ∧ zeroPointEnergy r = ir_get_zero_point_energy ir
  ∧ ramanIntensities r = snd <$> raman
  ∧ isLinear r = linear
  ∧ ∃ bond_displacements alignments has_imaginary has_large_imaginary,
      compile_all_bond_displacements mol atoms ir = Ok bond_displacements
      ∧ mapM (get_alignment ir) (seq 0 (3 * length (ir_indices ir)))
        = Ok alignments
      ∧ compile_modes_info ir linear alignments (Some bond_displacements)
          (Some (get_bonds_from_mol mol)) (fst <$> raman)
        = Ok (modes r, has_imaginary, has_large_imaginary).
Proof.
  unfold assemble. intros H.
  apply bind_Ok in H as (u & _ & H).
  apply bind_Ok in H as (bd & Hbd & H).
  apply bind_Ok in H as (relevant_bonds & _ & H).
  apply bind_Ok in H as (alignments & Halign & H).
  apply bind_Ok in H as ([[mode_info hi] hli] & Hmodes & H).
  apply bind_Ok in H as (relevant & _ & H).
  injection H as <-. simpl.
  repeat split; try done.
  by exists bd, alignments, hi, hli.
Qed.

Lemma compile_modes_without_raman (ir : Infrared) (linear : bool)
    (alignments : list float) (bond_displacements : option (list (list float)))
    (bonds : option (list (nat * nat))) (modes : list ModeInfo)
    (has_imaginary has_large_imaginary : bool) :
  compile_modes_info ir linear alignments bond_displacements bonds None
    = Ok (modes, has_imaginary, has_large_imaginary) →
  Forall (λ m, ramanIntensity m = None) modes.
Proof.
  unfold compile_modes_info. intros H.
  apply bind_Ok in H as (third & _ & H).
  apply modes_loop_Ok in H as (entries & Hout & Hall).
  simpl in Hout. subst modes.
  apply Forall_forall. intros m Hm.
  apply list_elem_of_lookup in Hm as [i Hi].
  destruct (Forall2_lookup_r _ _ _ _ _ Hall Hi) as (k & _ & n & fc & _ & He).
  apply mode_entry_Ok in He as (_ & _ & Hraman & _).
  unfold raman_entry in Hraman. apply index_Ok in Hraman.
  by apply lookup_replicate in Hraman as [-> _].
Qed.

(** C6: when [run_xtb_ir] computes a spectrum (no cached result) and returns
    it, on the success path as on the path of a caught failure of the Raman
    block, the scratch directory named by the content hash does not exist
    when it returns, and the result is in the cache. *)
Theorem scratch_removed_on_return (atoms : Atoms) (method : string)
    (mol : Mol) (w w' : World) (r : IRResult) :
  ir_cache w !! ir_hash atoms method = None →
  run_xtb_ir atoms method (Some mol) w = (Ok r, w') →
  (ir_hash atoms method ∉ scratch w')
  ∧ ir_cache w' !! ir_hash atoms method = Some r.
Proof.
  intros Hmiss Hrun. unfold run_xtb_ir in Hrun. cbv zeta in Hrun.
  apply M_bind_Ok in Hrun as (cached & w0 & Hget & Hrun).
  rewrite gets_run in Hget. injection Hget as <- <-. rewrite Hmiss in Hrun.
  apply M_bind_Ok in Hrun as (raman & w1 & _ & Hrun).
  apply M_bind_Ok in Hrun as (u1 & w2 & _ & Hrun).
  apply M_bind_Ok in Hrun as (u2 & w3 & _ & Hrun).
  apply M_bind_Ok in Hrun as (result & w4 & _ & Hrun).
  apply M_bind_Ok in Hrun as (u3 & w5 & Hset & Hrun).
  apply M_bind_Ok in Hrun as (u4 & w6 & Hrm & Hrun).
  injection Hrun as <- <-.
  apply ir_cache_set_Ok in Hset as [_ Hcached].
  split.
  - apply rmtree_Ok in Hrm. rewrite Hrm. intros Hin.
    apply elem_of_difference in Hin as [_ Hnot].
    apply Hnot. by apply elem_of_singleton.
  - unfold rmtree in Hrm.
    destruct (decide (ir_hash atoms method ∈ scratch w5)); [|discriminate].
    by injection Hrm as _ <-.
Qed.

(** When the Raman block raises while its scratch directory exists, and
    the infrared run and the assembly of the result then succeed, the
    pipeline completes: [ramanIntensities] is [None], the [ramanIntensity] of
    every mode is [None], and the wavenumbers, the IR intensities and the
    zero-point energy are those of the infrared run. *)
Theorem raman_failure_is_soft (atoms : Atoms) (method : string) (mol : Mol)
    (w w1 : World) (e : exn) (r : IRResult) :
  let this_hash := ir_hash atoms method in
  let moi := get_moments_of_inertia atoms in
  let ir := Infrared_read atoms method this_hash in
  ir_cache w !! this_hash = None →
  raman_block atoms method this_hash w = (Raise e, w1) →
  this_hash ∈ scratch w1 →
  Infrared_run atoms method this_hash = Completed →
  assemble atoms mol (is_linear moi) moi ir None = Ok r →
  (∃ w', run_xtb_ir atoms method (Some mol) w = (Ok r, w'))
  ∧ ramanIntensities r = None
  ∧ Forall (λ m, ramanIntensity m = None) (modes r)
  ∧ wavenumbers r = (ir_get_spectrum ir).1
  ∧ intensities r = (ir_get_spectrum ir).2
  ∧ zeroPointEnergy r = ir_get_zero_point_energy ir.
Proof.
  intros this_hash moi ir Hmiss Hraman Hdir Hrun Hasm.
  pose proof (assemble_Ok _ _ _ _ _ _ _ Hasm)
    as (Hwave & Hint & Hzpe & Hnone & _ & bd & al & hi & hli & _ & _ & Hmodes).
  split; [|repeat split; try done; by eapply compile_modes_without_raman].
  unfold run_xtb_ir. cbv zeta. fold this_hash moi ir.
  rewrite (M_bind_run _ _ w w (ir_cache w !! this_hash)) by done.
  rewrite Hmiss.
  destruct (rmtree_present this_hash w1 Hdir) as (w2 & Hrm & Hscratch2 & _).
  erewrite M_bind_run; last first.
  { unfold try_except. erewrite M_bind_raise by exact Hraman.
    erewrite M_bind_run by exact Hrm. reflexivity. }
  destruct (log_run (EvInfrared this_hash) w2) as (w3 & Hlog & Hscratch3).
  erewrite M_bind_run by exact Hlog.
  rewrite Hrun.
  destruct (perform_completed this_hash w3) as (w4 & Hperf & Hscratch4).
  erewrite M_bind_run by exact Hperf.
  erewrite M_bind_run; last first.
  { unfold lift. by rewrite Hasm. }
  erewrite M_bind_run by reflexivity.
  edestruct (rmtree_present this_hash) as (w6 & Hrm6 & _); last first.
  { erewrite M_bind_run by exact Hrm6. by eexists. }
  simpl. rewrite Hscratch4. apply elem_of_union_l. by apply elem_of_singleton.
Qed.

End Analyzer.

Lemma raman_failure_is_soft_witness :
  ∃ r w',
    run_xtb_ir (ext := Toy.raman_fails) Toy.water_atoms "GFNFF"
      (Some Toy.water) empty_world = (Ok r, w')
    ∧ ramanIntensities r = None
    ∧ Forall (λ m, ramanIntensity m = None) (modes r)
    ∧ wavenumbers r = [0; 2000; 4000]%float
    ∧ intensities r = [1; 5; 2]%float
    ∧ zeroPointEnergy r = 0.5%float.
Proof.
  eassert (Hraman : raman_block (ext := Toy.raman_fails) Toy.water_atoms "GFNFF"
                      (ir_hash (ext := Toy.raman_fails) Toy.water_atoms "GFNFF")
                      empty_world = (Raise _, _)) by (vm_compute; reflexivity).
  eassert (Hasm : assemble (ext := Toy.raman_fails) Toy.water_atoms Toy.water
                    (is_linear [1; 2; 3]%float) [1; 2; 3]%float Toy.ir None
                  = Ok _) by (vm_compute; reflexivity).
  match type of Hraman with
  | _ = (_, ?w1) =>
      assert (Hdir : ir_hash (ext := Toy.raman_fails) Toy.water_atoms "GFNFF"
                     ∈ scratch w1)
        by (apply (bool_decide_unpack _); vm_compute; exact I)
  end.
  destruct (raman_failure_is_soft (ext := Toy.raman_fails) Toy.water_atoms
              "GFNFF" Toy.water empty_world _ _ _ eq_refl Hraman Hdir
              eq_refl Hasm)
    as ([w' Hrun] & Hnone & Hmodes & Hwave & Hint & Hzpe).
  eexists _, w'. split; [exact Hrun|].
  split; [exact Hnone|]. split; [exact Hmodes|].
  split; [exact Hwave|]. split; [exact Hint | exact Hzpe].
Defined.

(** C5: the handler of the Raman block removes the scratch directory
    without testing that it exists. When the Raman block raises and has left
    no directory of the name of the content hash, the removal raises inside
    the handler: [run_xtb_ir] ends with [FileNotFoundError] in the state the
    Raman block left, the infrared run is never started and no result is
    returned, where the claim says that the pipeline completes. *)
Theorem raman_failure_without_directory_is_fatal {ext : Externals}
    (atoms : Atoms) (method : string) (mol : Mol) (w w1 : World) (e : exn) :
  ir_cache w !! ir_hash atoms method = None →
  raman_block atoms method (ir_hash atoms method) w = (Raise e, w1) →
  (ir_hash atoms method ∉ scratch w1) →
  run_xtb_ir atoms method (Some mol) w = (Raise FileNotFoundError, w1).
Proof.
  intros Hmiss Hraman Hdir.
  unfold run_xtb_ir. cbv zeta.
  rewrite (M_bind_run _ _ w w (ir_cache w !! ir_hash atoms method)) by done.
  rewrite Hmiss. apply M_bind_raise.
  unfold try_except. erewrite M_bind_raise by exact Hraman.
  apply M_bind_raise. unfold rmtree. by rewrite decide_False.
Qed.

Lemma raman_failure_without_directory_is_fatal_witness :
  ∃ w1,
    run_xtb_ir (ext := Toy.raman_fails_early) Toy.water_atoms "GFNFF"
      (Some Toy.water) empty_world = (Raise FileNotFoundError, w1)
    ∧ trace w1
      = [EvRaman (ir_hash (ext := Toy.raman_fails_early) Toy.water_atoms
                    "GFNFF")].
Proof.
  eassert (Hraman : raman_block (ext := Toy.raman_fails_early) Toy.water_atoms
                      "GFNFF"
                      (ir_hash (ext := Toy.raman_fails_early) Toy.water_atoms
                         "GFNFF")
                      empty_world = (Raise _, _)) by (vm_compute; reflexivity).
  match type of Hraman with
  | _ = (_, ?w1) =>
      assert (Hdir : ir_hash (ext := Toy.raman_fails_early) Toy.water_atoms
                       "GFNFF" ∉ scratch w1)
        by (apply (bool_decide_unpack _); vm_compute; exact I)
  end.
  eexists. split.
  - exact (raman_failure_without_directory_is_fatal
             (ext := Toy.raman_fails_early) Toy.water_atoms "GFNFF" Toy.water
             empty_world _ _ eq_refl Hraman Hdir).
  - reflexivity.
Defined.

Lemma scratch_removed_on_return_witness :
  ∃ r w',
    run_xtb_ir (ext := Toy.raman_fails) Toy.water_atoms "GFNFF"
      (Some Toy.water) empty_world = (Ok r, w')
    ∧ (ir_hash (ext := Toy.raman_fails) Toy.water_atoms "GFNFF" ∉ scratch w')
    ∧ ir_cache w' !! ir_hash (ext := Toy.raman_fails) Toy.water_atoms "GFNFF"
      = Some r.
Proof.
  eassert (Hrun : run_xtb_ir (ext := Toy.raman_fails) Toy.water_atoms "GFNFF"
                    (Some Toy.water) empty_world = (Ok _, _))
    by (vm_compute; reflexivity).
  eexists _, _. split; [exact Hrun|].
  exact (scratch_removed_on_return (ext := Toy.raman_fails) Toy.water_atoms
           "GFNFF" Toy.water empty_world _ _ eq_refl Hrun).
Defined.

(** C6, as stated, fails: when the infrared run raises, the error propagates
    and the scratch directory named by the content hash is still there. *)
Lemma scratch_left_on_error :
  ∃ w',
    run_xtb_ir (ext := Toy.infrared_fails) Toy.water_atoms "GFNFF"
      (Some Toy.water) empty_world = (Raise (ExternalError "xtb"), w')
    ∧ ir_hash (ext := Toy.infrared_fails) Toy.water_atoms "GFNFF" ∈ scratch w'.
Proof.
  eexists. split; [vm_compute; reflexivity|].
  apply (bool_decide_unpack _). vm_compute. exact I.
Qed.

(** ** C7: the cache of final results *)

Section Cache.
Context {ext : Externals}.

Lemma ir_from_smiles_cached (smiles method : string) (w : World)
    (r : IRResult) :
  ir_from_smiles_cache w !! hash_object (smiles +:+ method) = Some r →
  ir_from_smiles smiles method w = (Ok r, w).
Proof.
  intros Hhit. unfold ir_from_smiles. cbv [mbind M_bind gets].
  by rewrite Hhit.
Qed.

Lemma ir_from_molfile_cached (molfile method : string) (w : World)
    (r : IRResult) :
  ir_from_molfile_cache w !! hash_object (molfile +:+ method) = Some r →
  ir_from_molfile molfile method w = (Ok r, w).
Proof.
  intros Hhit. unfold ir_from_molfile. cbv [mbind M_bind gets].
  by rewrite Hhit.
Qed.

Lemma ir_from_smiles_stores (smiles method : string) (w w1 : World)
    (r : IRResult) :
  ir_from_smiles smiles method w = (Ok r, w1) →
  ir_from_smiles_cache w1 !! hash_object (smiles +:+ method) = Some r.
Proof.
  unfold ir_from_smiles. cbv zeta. intros Hrun.
  apply M_bind_Ok in Hrun as (cached & w0 & Hget & Hrun).
  rewrite gets_run in Hget. injection Hget as <- <-.
  destruct (ir_from_smiles_cache w !! hash_object (smiles +:+ method))
    as [r0|] eqn:Hlook.
  - injection Hrun as <- <-. done.
  - unfold calculate_from_smiles in Hrun.
    apply M_bind_Ok in Hrun as (am & w2 & _ & Hrun).
    apply M_bind_Ok in Hrun as (u & w3 & _ & Hrun).
    apply M_bind_Ok in Hrun as (opt_atoms & w4 & _ & Hrun).
    apply M_bind_Ok in Hrun as (result & w5 & _ & Hrun).
    apply M_bind_Ok in Hrun as (u' & w6 & Hset & Hrun).
    injection Hrun as <- <-. injection Hset as _ <-. simpl.
    apply lookup_insert_eq.
Qed.

Lemma ir_from_molfile_stores (molfile method : string) (w w1 : World)
    (r : IRResult) :
  ir_from_molfile molfile method w = (Ok r, w1) →
  ir_from_molfile_cache w1 !! hash_object (molfile +:+ method) = Some r.
Proof.
  unfold ir_from_molfile. cbv zeta. intros Hrun.
  apply M_bind_Ok in Hrun as (cached & w0 & Hget & Hrun).
  rewrite gets_run in Hget. injection Hget as <- <-.
  destruct (ir_from_molfile_cache w !! hash_object (molfile +:+ method))
    as [r0|] eqn:Hlook.
  - injection Hrun as <- <-. done.
  - unfold calculate_from_molfile in Hrun.
    apply M_bind_Ok in Hrun as (am & w2 & _ & Hrun).
    apply M_bind_Ok in Hrun as (u & w3 & _ & Hrun).
    apply M_bind_Ok in Hrun as (opt_atoms & w4 & _ & Hrun).
    apply M_bind_Ok in Hrun as (result & w5 & _ & Hrun).
    apply M_bind_Ok in Hrun as (u' & w6 & Hset & Hrun).
    injection Hrun as <- <-. injection Hset as _ <-. simpl.
    apply lookup_insert_eq.
Qed.

(** C7: the cache of final results is keyed by the hash of the input string
    concatenated with the method; after a call of [ir_from_smiles] (or of
    [ir_from_molfile]) that returned a result, the result is stored under
    that key and a second call with the same pair returns it and leaves the
    state unchanged: no structure is built, nothing is optimized and no
    engine runs (the trace of calls is as it was). *)
Theorem final_result_is_cached (smiles molfile method method' : string)
    (w w1 w' w1' : World) (r r' : IRResult) :
  (ir_from_smiles smiles method w = (Ok r, w1) →
   ir_from_smiles_cache w1 !! hash_object (smiles +:+ method) = Some r
   ∧ ir_from_smiles smiles method w1 = (Ok r, w1))
  ∧ (ir_from_molfile molfile method' w' = (Ok r', w1') →
     ir_from_molfile_cache w1' !! hash_object (molfile +:+ method') = Some r'
     ∧ ir_from_molfile molfile method' w1' = (Ok r', w1')).
Proof.
  split.
  - intros Hsmiles. apply ir_from_smiles_stores in Hsmiles.
    split; [done | by apply ir_from_smiles_cached].
  - intros Hmolfile. apply ir_from_molfile_stores in Hmolfile.
    split; [done | by apply ir_from_molfile_cached].
Qed.

End Cache.

Lemma final_result_is_cached_witness :
  ∃ r w1 r' w1',
    ir_from_smiles (ext := Toy.sound) "O" "GFNFF" empty_world = (Ok r, w1)
    ∧ ir_from_molfile (ext := Toy.sound) "O=C=O" "GFNFF" empty_world
      = (Ok r', w1')
    ∧ ir_from_smiles (ext := Toy.sound) "O" "GFNFF" w1 = (Ok r, w1)
    ∧ ir_from_molfile (ext := Toy.sound) "O=C=O" "GFNFF" w1' = (Ok r', w1').
Proof.
  eassert (Hsmiles : ir_from_smiles (ext := Toy.sound) "O" "GFNFF" empty_world
                     = (Ok _, _)) by (vm_compute; reflexivity).
  eassert (Hmolfile : ir_from_molfile (ext := Toy.sound) "O=C=O" "GFNFF"
                        empty_world = (Ok _, _)) by (vm_compute; reflexivity).
  epose proof (final_result_is_cached (ext := Toy.sound) "O" "O=C=O" "GFNFF"
                 "GFNFF" empty_world _ empty_world _ _ _) as [Hfirst Hsecond].
  destruct (Hfirst Hsmiles) as [_ Hagain].
  destruct (Hsecond Hmolfile) as [_ Hagain'].
  eexists _, _, _, _. split; [exact Hsmiles|]. split; [exact Hmolfile|].
  split; [exact Hagain | exact Hagain'].
Defined.

(** ** C9: the indices of the selected bonds *)

Lemma above_gap_in_range (rel : list float) (gap : float) :
  Forall (λ i, i < length rel) (above_gap rel gap).
Proof.
  apply Forall_forall. intros i Hi.
  apply above_gap_elem in Hi as (r & Hr & _).
  by apply lookup_lt_Some in Hr.
Qed.

(** With at least one bond, every selected index is the index of a bond. *)
Lemma selected_bonds_in_range (displacements : list float) (sel : list nat) :
  0 < length displacements →
  select_most_contributing_bonds displacements = Ok sel →
  Forall (λ i, i < length displacements) sel.
Proof.
  intros Hlen Hsel.
  destruct (decide (1 < length displacements)) as [Hmany|Hone].
  - destruct (select_bonds_many displacements Hmany) as (gap & _ & Heq).
    rewrite Heq in Hsel. injection Hsel as <-.
    pose proof (above_gap_in_range
                  (bond_relative_contribution displacements) gap) as Hin.
    unfold bond_relative_contribution in Hin at 1.
    by rewrite length_map in Hin.
  - rewrite select_bonds_few in Hsel by lia. injection Hsel as <-.
    by repeat constructor.
Qed.

(** C9: for a molecule without a bond the selection returns index 0, which
    is the index of no bond, and the lookup of that bond raises
    [IndexError]: the computation of a salt of two ions ends with it. *)
Theorem no_bond_selects_bond_zero :
  select_most_contributing_bonds [] = Ok [0]
  ∧ ¬ (0 < length (mol_bonds Toy.salt))
  ∧ mapM (index (mol_bonds Toy.salt)) [0] = Raise IndexError
  ∧ (ir_from_smiles (ext := Toy.sound) "[Na+].[Cl-]" "GFNFF" empty_world).1
    = Raise IndexError.
Proof.
  split; [reflexivity|]. split; [simpl; lia|].
  split; [reflexivity|]. vm_compute. reflexivity.
Qed.

(** ** Further properties of the classifier and of the caches *)

Lemma mapM_res_Ok {A B} (f : A → res B) (l : list A) (k : list B) :
  mapM f l = Ok k → Forall2 (λ x y, f x = Ok y) l k.
Proof.
  revert k. induction l as [|x l IH]; intros k; simpl.
  - intros [= <-]. constructor.
  - intros H. apply bind_Ok in H as (y & Hy & H).
    apply bind_Ok in H as (k' & Hk' & H). injection H as <-.
    constructor; [done | by apply IH].
Qed.

(** X1: with at least one bond, every index that
    [select_most_contributing_bonds] returns is the index of a bond. *)
Theorem selected_bond_indices_valid (displacements : list float)
    (sel : list nat) :
  0 < length displacements →
  select_most_contributing_bonds displacements = Ok sel →
  Forall (λ i, i < length displacements) sel.
Proof. apply selected_bonds_in_range. Qed.

Lemma selected_bond_indices_valid_witness :
  select_most_contributing_bonds [2; 10; 3; 5]%float = Ok [1; 3]
  ∧ Forall (λ i, i < 4) [1; 3].
Proof.
  assert (Hsel : select_most_contributing_bonds [2; 10; 3; 5]%float
                 = Ok [1; 3]) by (vm_compute; reflexivity).
  split; [exact Hsel|].
  apply (selected_bond_indices_valid [2; 10; 3; 5]%float [1; 3]);
    [simpl; lia | exact Hsel].
Defined.

(** X2: in a result that the classifier returns, the most contributing bonds of
    a mode are bonds of the molecule: each is the bond at an index selected
    from the row of the mode, and that index is below the number of bonds. *)
Theorem returned_bonds_exist {ext : Externals} (ir : Infrared) (linear : bool)
    (alignments : list float) (bond_displacements : list (list float))
    (bonds : list (nat * nat)) (raman : option (list float))
    (modes : list ModeInfo) (has_imaginary has_large_imaginary : bool) :
  compile_modes_info ir linear alignments (Some bond_displacements)
    (Some bonds) raman = Ok (modes, has_imaginary, has_large_imaginary) →
  Forall (λ m, ∃ row sel named,
            bond_displacements !! number m = Some row
            ∧ select_most_contributing_bonds row = Ok sel
            ∧ mostContributingBonds m = Some named
            ∧ Forall2 (λ i b, i < length bonds ∧ bonds !! i = Some b)
                sel named)
         modes.
Proof.
  unfold compile_modes_info. intros H.
  apply bind_Ok in H as (third & _ & H).
  apply modes_loop_Ok in H as (entries & Hout & Hall).
  simpl in Hout. subst modes.
  apply Forall_forall. intros m Hm.
  apply list_elem_of_lookup in Hm as [i Hi].
  destruct (Forall2_lookup_r _ _ _ _ _ Hall Hi) as (k & _ & n & fc & _ & He).
  apply mode_entry_Ok in He
    as (Hn & _ & _ & _ & bd & row & sel & all_bonds & named
        & [= <-] & Hrow & Hsel & [= <-] & Hnamed & Hfield).
  exists row, sel, named. rewrite Hn.
  split; [by apply index_Ok|]. split; [done|]. split; [done|].
  apply mapM_res_Ok in Hnamed.
  eapply Forall2_impl; [exact Hnamed|].
  intros j b Hb. apply index_Ok in Hb.
  split; [by eapply lookup_lt_Some | done].
Qed.

Lemma returned_bonds_exist_witness :
  ∃ modes has_imaginary has_large_imaginary,
    compile_modes_info (ext := Toy.sound) Toy.ir false Toy.alignments
      (Some Toy.bond_rows) (Some (mol_bonds Toy.water)) None
      = Ok (modes, has_imaginary, has_large_imaginary)
    ∧ Forall (λ m, ∃ row sel named,
                Toy.bond_rows !! number m = Some row
                ∧ select_most_contributing_bonds row = Ok sel
                ∧ mostContributingBonds m = Some named
                ∧ Forall2 (λ i b, i < length (mol_bonds Toy.water)
                                  ∧ mol_bonds Toy.water !! i = Some b)
                    sel named)
             modes.
Proof.
  eassert (Hrun : compile_modes_info (ext := Toy.sound) Toy.ir false
                    Toy.alignments (Some Toy.bond_rows)
                    (Some (mol_bonds Toy.water)) None = Ok (_, _, _))
    by (vm_compute; reflexivity).
  eexists _, _, _. split; [exact Hrun|].
  exact (returned_bonds_exist (ext := Toy.sound) _ _ _ _ _ _ _ _ _ Hrun).
Defined.

(** X3: the structure builder is idempotent: after a call that returned, a call
    with the same input string returns the same structure and graph from the
    cache, whatever the limit, and changes nothing. *)
Theorem smiles2ase_idempotent {ext : Externals} (smiles : string)
    (max_atoms max_atoms' : option nat) (w w1 : World) (result : Atoms * Mol) :
  smiles2ase smiles max_atoms w = (Ok result, w1) →
  conformer_cache w1 !! smiles = Some result
  ∧ smiles2ase smiles max_atoms' w1 = (Ok result, w1).
Proof.
  intros Hrun.
  assert (Hstored : conformer_cache w1 !! smiles = Some result).
  { unfold smiles2ase in Hrun.
    apply M_bind_Ok in Hrun as (cached & w0 & Hget & Hrun).
    injection Hget as <- <-.
    destruct (conformer_cache w !! smiles) as [r0|] eqn:Hlook.
    - injection Hrun as <- <-. done.
    - apply M_bind_Ok in Hrun as (u & w2 & _ & Hrun).
      apply M_bind_Ok in Hrun as (refmol & w3 & _ & Hrun).
      apply M_bind_Ok in Hrun as (u' & w4 & _ & Hrun).
      apply M_bind_Ok in Hrun as (refmol' & w5 & _ & Hrun).
      apply M_bind_Ok in Hrun as (atoms & w6 & _ & Hrun).
      apply M_bind_Ok in Hrun as (u'' & w7 & Hset & Hrun).
      injection Hrun as <- <-. injection Hset as _ <-. simpl.
      apply lookup_insert_eq. }
  split; [done | by apply smiles2ase_cached].
Qed.

Lemma smiles2ase_idempotent_witness :
  ∃ result w1,
    smiles2ase (ext := Toy.sound) "O=C=O" (Some 10) empty_world
    = (Ok result, w1)
    ∧ smiles2ase (ext := Toy.sound) "O=C=O" (Some 2) w1 = (Ok result, w1).
Proof.
  eassert (Hrun : smiles2ase (ext := Toy.sound) "O=C=O" (Some 10) empty_world
                  = (Ok _, _)) by (vm_compute; reflexivity).
  eexists _, _. split; [exact Hrun|].
  exact (proj2 (smiles2ase_idempotent (ext := Toy.sound) "O=C=O" (Some 10)
                  (Some 2) empty_world _ _ Hrun)).
Defined.

(** X4: a result in the cache of [run_xtb_ir] is returned as it is: no run, no
    scratch directory, no state change. *)
Theorem run_xtb_ir_cached {ext : Externals} (atoms : Atoms) (method : string)
    (mol : Mol) (w : World) (r : IRResult) :
  ir_cache w !! ir_hash atoms method = Some r →
  run_xtb_ir atoms method (Some mol) w = (Ok r, w).
Proof.
  intros Hhit. unfold run_xtb_ir. cbv [mbind M_bind gets].
  by rewrite Hhit.
Qed.

Lemma run_xtb_ir_cached_witness :
  ∃ r w1,
    run_xtb_ir (ext := Toy.sound) Toy.water_atoms "GFNFF" (Some Toy.water)
      empty_world = (Ok r, w1)
    ∧ run_xtb_ir (ext := Toy.sound) Toy.water_atoms "GFNFF" (Some Toy.water)
        w1 = (Ok r, w1).
Proof.
  eassert (Hrun : run_xtb_ir (ext := Toy.sound) Toy.water_atoms "GFNFF"
                    (Some Toy.water) empty_world = (Ok _, _))
    by (vm_compute; reflexivity).
  eexists _, _. split; [exact Hrun|].
  apply (run_xtb_ir_cached (ext := Toy.sound)).
  vm_compute. reflexivity.
Defined.

Section Flags.
Context {ext : Externals}.
Context (ir : Infrared) (linear : bool) (alignments : list float)
  (third : float) (bond_displacements : option (list (list float)))
  (bonds : option (list (nat * nat))) (raman : option (list float))
  (num_modes : nat).

Lemma mode_entry_frequency (n : nat) (info : ModeInfo) (fc : float * bool) :
  mode_entry ir linear alignments third bond_displacements bonds raman
    num_modes n = Ok (info, fc) →
  clean_frequency (ir_get_frequencies ir) n = Ok fc
  ∧ wavenumber info = fc.1
  ∧ imaginary info = fc.2.
Proof.
  unfold mode_entry. intros H.
  apply bind_Ok in H as (ty & Hty & H).
  apply bind_Ok in H as (fc' & Hfc & H).
  apply bind_Ok in H as (bound & Hbound & H).
  apply bind_Ok in H as (r & Hr & H).
  apply bind_Ok in H as (xyz & Hxyz & H).
  apply bind_Ok in H as (strength & Hstrength & H).
  apply bind_Ok in H as (m & Hm & H).
  apply bind_Ok in H as (atoms & Hatoms & H).
  apply bind_Ok in H as (current & Hcurrent & H).
  apply bind_Ok in H as (change & Hchange & H).
  apply bind_Ok in H as (alignment & Halignment & H).
  by injection H as <- <-.
Qed.

Lemma modes_loop_flags (mapping ranks : list nat) (ms ms' : list ModeInfo)
    (hi hi' hli hli' : bool) :
  modes_loop ir linear alignments third bond_displacements bonds raman
    num_modes mapping ranks (ms, hi, hli) = Ok (ms', hi', hli') →
  ∃ entries,
    ms' = ms ++ entries
    ∧ hi' = hi || existsb imaginary entries
    ∧ hli' = hli || existsb large_imaginary entries.
Proof.
  revert ms hi hli. induction ranks as [|k ranks IH]; intros ms hi hli; simpl.
  - intros [= <- <- <-]. exists []. by rewrite app_nil_r, !orb_false_r.
  - intros H.
    apply bind_Ok in H as (n & Hn & H).
    apply bind_Ok in H as ([info [f c]] & He & H).
    apply mode_entry_frequency in He as (_ & Hf & Hc). simpl in Hf, Hc.
    apply IH in H as (entries & -> & -> & ->).
    exists (info :: entries). simpl. unfold large_imaginary at 2.
    rewrite <- app_assoc, Hf, Hc, !orb_assoc. done.
Qed.

End Flags.

(** X5: the two flags of the result: [hasImaginaryFrequency] holds exactly when
    some mode is imaginary, [hasLargeImaginaryFrequency] exactly when some
    imaginary mode has a wavenumber above the threshold; a mode is imaginary
    exactly when the imaginary part of its frequency is not zero, and its
    wavenumber is then that imaginary part, otherwise the real part. *)
Theorem imaginary_flags {ext : Externals} (ir : Infrared) (linear : bool)
    (alignments : list float) (bond_displacements : option (list (list float)))
    (bonds : option (list (nat * nat))) (raman : option (list float))
    (modes : list ModeInfo) (has_imaginary has_large_imaginary : bool) :
  compile_modes_info ir linear alignments bond_displacements bonds raman
    = Ok (modes, has_imaginary, has_large_imaginary) →
  has_imaginary = existsb imaginary modes
  ∧ has_large_imaginary = existsb large_imaginary modes
  ∧ Forall (λ m, ∃ z,
              ir_get_frequencies ir !! number m = Some z
              ∧ imaginary m = np.ne (imag z) 0
              ∧ wavenumber m = if np.ne (imag z) 0 then imag z else real z)
           modes.
Proof.
  unfold compile_modes_info. intros H.
  apply bind_Ok in H as (third & _ & H).
  pose proof (modes_loop_flags _ _ _ _ _ _ _ _ _ _ _ _ _ _ _ _ H)
    as (entries & Hms & Hhi & Hhli).
  apply modes_loop_Ok in H as (entries' & Hout & Hall).
  simpl in Hms, Hout, Hhi, Hhli. subst modes entries'.
  split; [done|]. split; [done|].
  apply Forall_forall. intros m Hm.
  apply list_elem_of_lookup in Hm as [i Hi].
  destruct (Forall2_lookup_r _ _ _ _ _ Hall Hi) as (k & _ & n & fc & _ & He).
  pose proof (mode_entry_frequency _ _ _ _ _ _ _ _ _ _ _ He)
    as (Hclean & Hwave & Himag).
  apply mode_entry_Ok in He as (Hn & _).
  unfold clean_frequency in Hclean.
  apply bind_Ok in Hclean as (z & Hz & Hclean). apply index_Ok in Hz.
  exists z. rewrite Hn, Hwave, Himag. split; [done|].
  destruct (np.ne (imag z) 0); by injection Hclean as <-.
Qed.

Lemma imaginary_flags_witness :
  ∃ modes,
    compile_modes_info (ext := Toy.sound) Toy.ir false Toy.alignments
      (Some Toy.bond_rows) (Some (mol_bonds Toy.water)) None
      = Ok (modes, true, true)
    ∧ existsb imaginary modes = true
    ∧ existsb (large_imaginary (ext := Toy.sound)) modes = true.
Proof.
  eassert (Hrun : compile_modes_info (ext := Toy.sound) Toy.ir false
                    Toy.alignments (Some Toy.bond_rows)
                    (Some (mol_bonds Toy.water)) None = Ok (_, true, true))
    by (vm_compute; reflexivity).
  destruct (imaginary_flags (ext := Toy.sound) _ _ _ _ _ _ _ _ _ Hrun)
    as (Hhi & Hhli & _).
  eexists. split; [exact Hrun|]. split; [by rewrite <- Hhi | by rewrite <- Hhli].
Defined.

(** ** The pipeline returns on well-formed data *)

Lemma mapM_res_total {A B} (f : A → res B) (P : B → Prop) (l : list A) :
  Forall (λ x, ∃ y, f x = Ok y ∧ P y) l →
  ∃ k, mapM f l = Ok k ∧ length k = length l ∧ Forall P k.
Proof.
  induction 1 as [|x l (y & Hy & HP) _ (k & Hk & Hlen & Hall)]; simpl.
  - exists []. done.
  - exists (y :: k). rewrite Hy. simpl. rewrite Hk. simpl.
    split; [done|]. split; [by rewrite Hlen | by constructor].
Qed.

Lemma index_lt {A} (l : list A) (i : nat) :
  i < length l → ∃ a, index l i = Ok a ∧ l !! i = Some a.
Proof.
  intros Hi. destruct (lookup_lt_is_Some_2 l i Hi) as [a Ha].
  exists a. split; [by apply index_Ok | done].
Qed.

Lemma argmax_from_range (i best : nat) (mp : float) (a : list float) :
  let r := argmax_from i best mp a in
  r = best ∨ (i ≤ r ∧ r < i + length a).
Proof.
  revert i best mp. induction a as [|x a IH]; intros i best mp; simpl.
  - by left.
  - destruct (np.isnan mp); [by left|].
    destruct (PrimFloat.leb x mp).
    + destruct (IH (S i) best mp) as [->|[? ?]]; [by left | right; lia].
    + destruct (IH (S i) i x) as [->|[? ?]]; right; lia.
Qed.

Lemma argmax_lt (a : list float) (i : nat) :
  argmax a = Ok i → i < length a.
Proof.
  destruct a as [|x a]; simpl; [discriminate|]. intros [= <-].
  destruct (argmax_from_range 1 0 x a) as [->|[? ?]]; lia.
Qed.

Lemma column_length (a : list (list float)) (j : nat) :
  Forall (λ r, j < length r) a → length (column a j) = length a.
Proof.
  unfold column. induction 1 as [|r a Hr _ IH]; simpl; [done|].
  destruct (lookup_lt_is_Some_2 r j Hr) as [x Hx]. rewrite Hx. simpl.
  f_equal. exact IH.
Qed.

Lemma fill_rows_spec (k : nat) (v : float) (a : list (list float)) (c : nat) :
  Forall (λ r, length r = c) a →
  length (fill_rows k v a) = length a
  ∧ Forall (λ r, length r = c) (fill_rows k v a).
Proof.
  intros Hall. unfold fill_rows. split; [apply length_imap|].
  apply Forall_lookup. intros i r Hi.
  apply list_lookup_imap_Some in Hi as (r0 & Hr0 & ->).
  rewrite Forall_lookup in Hall. specialize (Hall i r0 Hr0).
  destruct (decide (i < k)); [by rewrite length_map | done].
Qed.

Lemma stack_Ok (rows : list (list float)) (c : nat) :
  0 < length rows → Forall (λ r, length r = c) rows → stack rows = Ok rows.
Proof.
  intros Hlen Hall. destruct rows as [|r tl]; [simpl in Hlen; lia|].
  unfold stack. inversion Hall as [|? ? Hr Htl]; subst.
  rewrite decide_True; [done|].
  eapply Forall_impl; [exact Htl|]. simpl. intros r' Hr'. congruence.
Qed.

Section Total.
Context {ext : Externals}.
Context (atoms : Atoms) (mol : Mol) (ir : Infrared).
Context (raman : option (list float * list float)).


Lemma get_mode_total (n : nat) :
  well_shaped atoms mol ir raman →
  n < 3 * length (ir_indices ir) →
  ∃ m, get_mode ir n = Ok m ∧ length m = length (ir_indices ir).
Proof.
  intros Hok.
  destruct Hok as ((_ & Hrows) & Hmodes & _). intros Hn.
  destruct (index_lt (ir_modes ir) n) as (m & Hm & Hlook); [lia|].
  exists m. split; [done|].
  rewrite Forall_forall in Hrows. apply Hrows.
  by eapply list_elem_of_lookup_2.
Qed.

Lemma get_bond_vector_total (pos : list vec3) (bond : nat * nat) :
  bond.1 < length pos → bond.2 < length pos →
  ∃ v, get_bond_vector pos bond = Ok v.
Proof.
  intros H1 H2. unfold get_bond_vector.
  destruct (index_lt pos bond.2 H2) as (p1 & -> & _). simpl.
  destruct (index_lt pos bond.1 H1) as (p0 & -> & _). simpl. eauto.
Qed.

Lemma get_bond_displacements_total (m : list vec3) :
  well_shaped atoms mol ir raman →
  length m = length (ir_indices ir) →
  ∃ row, get_bond_displacements mol atoms m = Ok row
         ∧ length row = length (mol_bonds mol).
Proof.
  intros Hok.
  destruct Hok as (_ & _ & _ & Hpos & _ & _ & Hbonds & _). intros Hm.
  unfold get_bond_displacements, get_displaced_positions, add_rows.
  rewrite decide_True by lia. simpl.
  edestruct (mapM_res_total
               (λ bond,
                  v ← get_bond_vector (positions atoms) bond;
                  v' ← get_bond_vector
                         (map (λ p, vsub p (sum_axis0 m))
                            (zip_with vadd (positions atoms) m)) bond;
                  mret (PrimFloat.abs (norm v - norm v')))
               (λ _, True) (get_bonds_from_mol mol))
    as (row & Hrow & Hlen & _).
  { eapply Forall_impl; [exact Hbonds|]. simpl. intros bond [H1 H2].
    destruct (get_bond_vector_total (positions atoms) bond) as [v ->];
      [lia | lia |]. simpl.
    destruct (get_bond_vector_total
                (map (λ p, vsub p (sum_axis0 m))
                   (zip_with vadd (positions atoms) m)) bond) as [v' ->].
    - rewrite length_map, length_zip_with. lia.
    - rewrite length_map, length_zip_with. lia.
    - simpl. eauto. }
  exists row. split; [exact Hrow | exact Hlen].
Qed.

Lemma compile_all_bond_displacements_total :
  well_shaped atoms mol ir raman →
  ∃ bd, compile_all_bond_displacements mol atoms ir = Ok bd
        ∧ length bd = 3 * length (ir_indices ir)
        ∧ Forall (λ row, length row = length (mol_bonds mol)) bd.
Proof.
  intros Hok.
  unfold compile_all_bond_displacements.
  edestruct (mapM_res_total
               (λ mode_number,
                  m ← get_mode ir mode_number;
                  get_bond_displacements mol atoms m)
               (λ row, length row = length (mol_bonds mol))
               (seq 0 (3 * length (ir_indices ir))))
    as (bd & Hbd & Hlen & Hrows).
  { apply Forall_forall. intros n Hn. apply elem_of_seq in Hn.
    destruct (get_mode_total n Hok) as (m & -> & Hm); [lia|]. simpl.
    by apply get_bond_displacements_total. }
  rewrite length_seq in Hlen.
  exists bd. rewrite Hbd. simpl. split; [|done].
  eapply stack_Ok; [|exact Hrows].
  destruct Hok as (_ & _ & _ & _ & Hatoms & _). lia.
Qed.

Lemma most_relevant_modes_total (linear : bool) (bd : list (list float)) :
  well_shaped atoms mol ir raman →
  length bd = 3 * length (ir_indices ir) →
  Forall (λ row, length row = length (mol_bonds mol)) bd →
  ∃ out, most_relevant_modes mol atoms linear bd = Ok out.
Proof.
  intros Hok.
  intros Hlen Hrows.
  destruct Hok as (_ & _ & _ & _ & Hatoms & Hbonds & _).
  assert (Hcols : ncols bd = length (mol_bonds mol)).
  { destruct bd as [|r tl]; [simpl in Hlen; lia|].
    simpl. by inversion Hrows. }
  unfold most_relevant_modes. rewrite Hcols.
  set (masked := if decide (2 < length (positions atoms))
                 then fill_rows (if linear then 5 else 6) neg_infinity bd
                 else bd).
  assert (Hmasked : length masked = length bd
                    ∧ Forall (λ r, length r = length (mol_bonds mol)) masked).
  { unfold masked. destruct (decide _); [by apply fill_rows_spec | done]. }
  destruct Hmasked as [Hmlen Hmrows].
  edestruct (mapM_res_total (λ i, argmax (column masked i))
               (λ m, m < length bd) (seq 0 (length (mol_bonds mol))))
    as (best & Hbest & Hblen & Hbrange).
  { apply Forall_forall. intros i Hi. apply elem_of_seq in Hi.
    assert (Hcol : length (column masked i) = length masked).
    { apply column_length. eapply Forall_impl; [exact Hmrows|].
      simpl. intros r Hr. lia. }
    destruct (column masked i) as [|x col] eqn:Hc.
    - simpl in Hcol. lia.
    - eexists. split; [reflexivity|].
      assert (Hlt : argmax (x :: col) = Ok (argmax_from 1 0 x col)) by done.
      apply argmax_lt in Hlt. rewrite Hcol, Hmlen in Hlt. exact Hlt. }
  rewrite Hbest. simpl. rewrite length_seq in Hblen.
  edestruct (mapM_res_total
               (λ im : nat * nat,
                  bond ← index (get_bonds_from_mol mol) im.1;
                  row ← index bd im.2;
                  d ← index row im.1;
                  mret {| startAtom := bond.1; endAtom := bond.2;
                          mode := im.2; displacement := d |})
               (λ _, True) (imap pair best)) as (out & Hout & _).
  { apply Forall_lookup. intros i [i' m] Him.
    apply list_lookup_imap_Some in Him as (m' & Hm' & [= -> ->]).
    pose proof (lookup_lt_Some _ _ _ Hm') as Hi. rewrite Hblen in Hi.
    rewrite Forall_lookup in Hbrange. specialize (Hbrange _ _ Hm').
    simpl. unfold get_bonds_from_mol.
    destruct (index_lt (mol_bonds mol) i Hi) as (bond & -> & _). simpl.
    destruct (index_lt bd m' Hbrange) as (row & -> & Hrow). simpl.
    rewrite Forall_lookup in Hrows. specialize (Hrows _ _ Hrow).
    destruct (index_lt row i) as (d & -> & _); [lia|]. simpl. eauto. }
  exists out. exact Hout.
Qed.

Lemma alignments_total :
  well_shaped atoms mol ir raman →
  ∃ al, mapM (get_alignment ir) (seq 0 (3 * length (ir_indices ir))) = Ok al
        ∧ length al = 3 * length (ir_indices ir).
Proof.
  intros Hok.
  edestruct (mapM_res_total (get_alignment ir) (λ _, True)
               (seq 0 (3 * length (ir_indices ir)))) as (al & Hal & Hlen & _).
  { apply Forall_forall. intros n Hn. apply elem_of_seq in Hn.
    unfold get_alignment.
    destruct (get_mode_total n Hok) as (m & -> & _); [lia|]. simpl. eauto. }
  rewrite length_seq in Hlen. eauto.
Qed.

Lemma get_max_displacements_total (linear : bool) :
  well_shaped atoms mol ir raman →
  ∃ out, get_max_displacements ir linear = Ok out.
Proof.
  intros Hok.
  unfold get_max_displacements.
  edestruct (mapM_res_total (λ n, m ← get_mode ir n; mret (map norm m))
               (λ row, length row = length (ir_indices ir))
               (seq 0 (3 * length (ir_indices ir))))
    as (rows & Hrows & Hlen & Hall).
  { apply Forall_forall. intros n Hn. apply elem_of_seq in Hn.
    destruct (get_mode_total n Hok) as (m & -> & Hm); [lia|]. simpl.
    eexists. split; [reflexivity|]. by rewrite length_map. }
  rewrite Hrows. simpl. rewrite length_seq in Hlen.
  erewrite stack_Ok; [simpl; eauto | | exact Hall].
  destruct Hok as (_ & _ & _ & _ & Hatoms & _). lia.
Qed.

Lemma mode_type_total (linear : bool) (al : list float) (third : float)
    (n : nat) :
  5 < length al → ∃ ty, mode_type linear al third n = Ok ty.
Proof.
  intros Hal. unfold mode_type.
  destruct (decide (n < 3)); [eauto|].
  destruct (decide (n < 5)); [eauto|].
  destruct (decide (n = 5)) as [->|]; [|eauto].
  destruct linear; [eauto|].
  destruct (index_lt al 5 Hal) as (a & -> & _). simpl.
  destruct (np.ge a third); eauto.
Qed.

Lemma select_bonds_total (row : list float) :
  0 < length row →
  ∃ sel, select_most_contributing_bonds row = Ok sel
         ∧ Forall (λ i, i < length row) sel.
Proof.
  intros Hrow.
  assert (Hsel : ∃ sel, select_most_contributing_bonds row = Ok sel).
  { destruct (decide (1 < length row)) as [Hmany|Hone].
    - destruct (select_bonds_many row Hmany) as (gap & _ & ->). eauto.
    - rewrite select_bonds_few by lia. eauto. }
  destruct Hsel as [sel Hsel]. exists sel. split; [done|].
  by apply selected_bonds_in_range.
Qed.

Lemma get_displacement_xyz_for_mode_total (n : nat) :
  analysable atoms mol ir raman →
  n < 3 * length (ir_indices ir) →
  ∃ xyz, get_displacement_xyz_for_mode ir (ir_get_frequencies ir)
           (symbols (ir_atoms ir)) n = Ok xyz.
Proof.
  intros (Hok & Hpos & Hsym & _) Hn.
  pose proof Hok as ((Hfreq & _) & _ & Hint & _).
  pose proof (get_mode_total n Hok Hn) as (m & Hm & Hmlen).
  unfold get_displacement_xyz_for_mode, clean_frequency.
  destruct (index_lt (ir_get_frequencies ir) n) as (z & -> & _); [lia|].
  simpl.
  assert (Hfc : ∃ fc, (if np.ne (imag z) 0 then mret (imag z, true)
                       else mret (real z, false)) = Ok fc).
  { destruct (np.ne (imag z) 0); eauto. }
  destruct Hfc as [fc ->]. simpl.
  assert (Hstrength : ∃ t,
            (if ir_ir ir then
               x ← index (ir_intensities ir) n;
               mret (", I = " +:+ format_float 4 x +:+ " (D/Å)^2 amu^-1."
                     +:+ newline)
             else mret ("." +:+ newline)) = Ok t).
  { destruct (ir_ir ir); [|eauto].
    destruct (index_lt (ir_intensities ir) n) as (x & -> & _); [lia|].
    simpl. eauto. }
  destruct Hstrength as [t ->]. simpl. rewrite Hm. simpl.
  edestruct (mapM_res_total
               (λ ip : nat * vec3,
                  symbol ← index (symbols (ir_atoms ir)) ip.1;
                  d ← index m ip.1;
                  mret (pad_left 2 symbol
                        +:+ " " +:+ pad_left 12 (format_float 5 (vx ip.2))
                        +:+ " " +:+ pad_left 12 (format_float 5 (vy ip.2))
                        +:+ " " +:+ pad_left 12 (format_float 5 (vz ip.2))
                        +:+ " " +:+ pad_left 12 (format_float 5 (vx d))
                        +:+ " " +:+ pad_left 12 (format_float 5 (vy d))
                        +:+ " " +:+ pad_left 12 (format_float 5 (vz d))
                        +:+ newline))
               (λ _, True) (imap pair (positions (ir_atoms ir))))
    as (lines & -> & _); [|simpl; eauto].
  apply Forall_lookup. intros i [i' p] Hip.
  apply list_lookup_imap_Some in Hip as (p' & Hp' & [= -> ->]).
  apply lookup_lt_Some in Hp'. simpl.
  destruct (index_lt (symbols (ir_atoms ir)) i) as (sy & -> & _); [lia|].
  simpl.
  destruct (index_lt m i) as (d & -> & _); [lia|]. simpl. eauto.
Qed.

Lemma mode_entry_total (linear : bool) (al : list float) (third : float)
    (bd : list (list float)) (rm : option (list float)) (n : nat) :
  analysable atoms mol ir raman →
  length al = 3 * length (ir_indices ir) →
  length bd = 3 * length (ir_indices ir) →
  Forall (λ row, length row = length (mol_bonds mol)) bd →
  match rm with
  | Some l => length l = 3 * length (ir_indices ir)
  | None => True
  end →
  n < 3 * length (ir_indices ir) →
  ∃ e, mode_entry ir linear al third (Some bd) (Some (mol_bonds mol)) rm
         (3 * length (ir_indices ir)) n = Ok e.
Proof.
  intros Hdata.
  intros Hal Hbd Hrows Hrm Hn.
  pose proof Hdata as (Hok & _ & _ & Hmoi).
  pose proof (get_displacement_xyz_for_mode_total n Hdata Hn) as [xyz Hxyz].
  assert (Hchange : ∃ x, get_change_in_moi (ir_atoms ir) ir n = Ok x).
  { rewrite Forall_forall in Hmoi. apply Hmoi, elem_of_seq. lia. }
  destruct Hchange as [change Hchange].
  pose proof Hok as ((Hfreq & _) & _ & Hint & _ & Hatoms & Hbonds & _).
  pose proof (get_mode_total n Hok Hn) as (m & Hm & Hmlen).
  remember (3 * length (ir_indices ir)) as num eqn:Hnum.
  unfold mode_entry.
  destruct (mode_type_total linear al third n) as [ty ->]; [lia|]. simpl.
  assert (Hclean : ∃ fc, clean_frequency (ir_get_frequencies ir) n = Ok fc).
  { unfold clean_frequency.
    destruct (index_lt (ir_get_frequencies ir) n) as (z & -> & _); [lia|].
    simpl. destruct (np.ne (imag z) 0); eauto. }
  destruct Hclean as [fc ->]. simpl.
  destruct (index_lt bd n) as (row & -> & Hrow); [lia|]. simpl.
  rewrite Forall_lookup in Hrows. specialize (Hrows _ _ Hrow).
  destruct (select_bonds_total row) as (sel & -> & Hsel); [lia|]. simpl.
  edestruct (mapM_res_total (index (mol_bonds mol)) (λ _, True) sel)
    as (named & -> & _).
  { eapply Forall_impl; [exact Hsel|]. simpl. intros i Hi.
    destruct (index_lt (mol_bonds mol) i) as (b & -> & _); [lia | eauto]. }
  simpl.
  rewrite Hm. simpl.
  assert (Hraman : ∃ x, raman_entry rm num n = Ok x).
  { unfold raman_entry. destruct rm as [l|].
    - destruct (index_lt l n) as (x & -> & _); [lia|]. simpl. eauto.
    - destruct (index_lt (replicate num (None : option float)) n)
        as (x & -> & _); [rewrite length_replicate; lia | eauto]. }
  destruct Hraman as [x ->]. simpl.
  rewrite Hxyz. simpl.
  destruct (index_lt (ir_intensities ir) n) as (strength & -> & _); [lia|].
  simpl.
  destruct (select_atoms_many ir n m Hm) as (largest & gap & _ & _ & ->);
    [lia|]. simpl.
  rewrite Hchange. simpl.
  destruct (index_lt al n) as (a & -> & _); [lia|]. simpl. eauto.
Qed.

Lemma modes_loop_total (linear : bool) (al : list float) (third : float)
    (bd : list (list float)) (rm : option (list float))
    (mapping ranks : list nat) (acc : list ModeInfo * bool * bool) :
  analysable atoms mol ir raman →
  length al = 3 * length (ir_indices ir) →
  length bd = 3 * length (ir_indices ir) →
  Forall (λ row, length row = length (mol_bonds mol)) bd →
  match rm with
  | Some l => length l = 3 * length (ir_indices ir)
  | None => True
  end →
  Forall (λ k, ∃ n, mapping !! k = Some n
                    ∧ n < 3 * length (ir_indices ir)) ranks →
  ∃ out, modes_loop ir linear al third (Some bd) (Some (mol_bonds mol)) rm
           (3 * length (ir_indices ir)) mapping ranks acc = Ok out.
Proof.
  intros Hdata.
  intros Hal Hbd Hrows Hrm Hranks. revert acc.
  induction Hranks as [|k ranks (n & Hk & Hn) _ IH]; intros acc.
  - simpl. eauto.
  - pose proof (mode_entry_total linear al third bd rm n Hdata Hal Hbd Hrows Hrm Hn)
      as [[info [f c]] He].
    destruct acc as [[ms hi] hli].
    destruct (IH (ms ++ [info], hi || c,
                  hli || (c && np.gt f IMAGINARY_FREQ_THRESHOLD)))
      as [out Hout].
    exists out. rewrite <- Hout.
    remember (3 * length (ir_indices ir)) as num eqn:Hnum.
    simpl. rewrite Hk. simpl. by rewrite He.
Qed.

Lemma compile_modes_info_total (linear : bool) (al : list float)
    (bd : list (list float)) (rm : option (list float)) :
  analysable atoms mol ir raman →
  length al = 3 * length (ir_indices ir) →
  length bd = 3 * length (ir_indices ir) →
  Forall (λ row, length row = length (mol_bonds mol)) bd →
  match rm with
  | Some l => length l = 3 * length (ir_indices ir)
  | None => True
  end →
  ∃ out, compile_modes_info ir linear al (Some bd) (Some (mol_bonds mol)) rm
         = Ok out.
Proof.
  intros Hdata.
  intros Hal Hbd Hrows Hrm.
  pose proof Hdata as (((Hfreq & _) & _ & _ & _ & Hatoms & _) & _).
  unfold compile_modes_info.
  destruct (index_lt (sorted_reverse al) 2) as (third & -> & _).
  { rewrite (Permutation_length (sorted_reverse_perm al)). lia. }
  remember (3 * length (ir_indices ir)) as num eqn:Hnum.
  simpl. subst num. apply modes_loop_total; try done.
  pose proof (argsort_complex_perm (ir_get_frequencies ir)) as Hperm.
  rewrite Hfreq in Hperm.
  apply Forall_forall. intros k Hk. apply elem_of_seq in Hk.
  destruct (lookup_lt_is_Some_2 (argsort_complex (ir_get_frequencies ir)) k)
    as [n Hn].
  { rewrite Hperm, length_seq. lia. }
  exists n. split; [done|].
  apply list_elem_of_lookup_2 in Hn. rewrite Hperm in Hn.
  apply elem_of_seq in Hn. lia.
Qed.

(** X6: on the data described by [analysable] (matching shapes, moments of
    inertia that can be computed), [assemble] raises nothing: it returns a
    result. *)
Theorem assemble_total (linear : bool) (moi : list float) :
  analysable atoms mol ir raman →
  ∃ r, assemble atoms mol linear moi ir raman = Ok r.
Proof.
  intros Hdata. pose proof Hdata as (Hok & _).
  assert (Hassert :
    match raman with
    | Some (_, raman_spectrum) =>
        if decide (length (ir_get_spectrum ir).1 = length raman_spectrum)
        then Ok () else Raise AssertionError
    | None => Ok ()
    end = Ok ()).
  { destruct Hok as (_ & _ & _ & _ & _ & _ & _ & Hraman).
    destruct raman as [[ri rs]|]; [|done].
    destruct Hraman as [_ Hrs]. by rewrite decide_True. }
  destruct (compile_all_bond_displacements_total Hok) as (bd & Hbd & Hlen & Hrows).
  destruct (most_relevant_modes_total linear bd Hok Hlen Hrows) as [rel Hrel].
  destruct (alignments_total Hok) as (al & Hal & Hallen).
  destruct (compile_modes_info_total linear al bd (fst <$> raman) Hdata
              Hallen Hlen Hrows) as [[[mode_info hi] hli] Hmodes].
  { destruct Hok as (_ & _ & _ & _ & _ & _ & _ & Hraman).
    destruct raman as [[ri rs]|]; [simpl; tauto | done]. }
  destruct (get_max_displacements_total linear Hok) as [relevant Hrelevant].
  unfold assemble, get_bonds_from_mol. rewrite Hassert.
  remember (3 * length (ir_indices ir)) as num eqn:Hnum.
  simpl. rewrite Hbd. simpl. rewrite Hrel. simpl. rewrite Hal. simpl.
  rewrite Hmodes. simpl. rewrite Hrelevant. simpl. eauto.
Qed.

End Total.

Lemma assemble_total_witness :
  ∃ r, assemble (ext := Toy.sound) Toy.water_atoms Toy.water false
         [1; 2; 3]%float Toy.ir
         (Some ([1; 2; 3; 4; 5; 6; 7; 8; 9]%float, [3; 1; 4]%float)) = Ok r.
Proof.
  apply (assemble_total (ext := Toy.sound)).
  split; [|split; [reflexivity|]; split; [reflexivity|]].
  - unfold well_shaped, well_formed.
    repeat split; try reflexivity; try (vm_compute; lia);
      repeat constructor; vm_compute; lia.
  - change (seq 0 (3 * length (ir_indices Toy.ir)))
      with [0; 1; 2; 3; 4; 5; 6; 7; 8].
    repeat (constructor; [eexists; vm_compute; reflexivity|]). constructor.
Defined.

(** * Further properties of the code *)

(** ** Effects on the caches, the scratch directories and the log *)

Lemma step_refl (name : string) (w : World) : step name [] w w.
Proof. unfold step. by rewrite app_nil_r. Qed.

Lemma step_trans (name : string) (evs1 evs2 : list event) (w w1 w2 : World) :
  step name evs1 w w1 → step name evs2 w1 w2 → step name (evs1 ++ evs2) w w2.
Proof.
  intros (Hc & Hi & Hs & Hm & Hd & Ht) (Hc' & Hi' & Hs' & Hm' & Hd' & Ht').
  unfold step. rewrite Hc', Hi', Hs', Hm', Ht', Ht, app_assoc.
  repeat split; try done; intros Hin.
  - apply Hd; [done|]. by apply Hd'.
  - apply Hd'; [done|]. by apply Hd.
Qed.

Lemma M_bind_inv {A B} (m : M A) (f : A → M B) (w w' : World) (out : res B) :
  (m ≫= f) w = (out, w') →
  (∃ a w1, m w = (Ok a, w1) ∧ f a w1 = (out, w'))
  ∨ (∃ e, m w = (Raise e, w') ∧ out = Raise e).
Proof.
  unfold mbind, M_bind. destruct (m w) as [[a|e] w1].
  - left. eauto.
  - intros [= <- <-]. right. eauto.
Qed.

Lemma elem_of_added_other (name d : string) (s : gset string) :
  d ≠ name → d ∈ ({[name]} ∪ s : gset string) ↔ d ∈ s.
Proof.
  intros Hne. rewrite elem_of_union, elem_of_singleton. tauto.
Qed.

Lemma elem_of_removed_other (name d : string) (s : gset string) :
  d ≠ name → d ∈ s ∖ ({[name]} : gset string) ↔ d ∈ s.
Proof.
  intros Hne. rewrite elem_of_difference, elem_of_singleton. tauto.
Qed.

Lemma not_elem_of_removed (name : string) (s : gset string) :
  name ∉ s ∖ ({[name]} : gset string).
Proof. rewrite elem_of_difference, elem_of_singleton. tauto. Qed.

Lemma log_step (name : string) (ev : event) (w w' : World) (out : res unit) :
  log ev w = (out, w') → out = Ok () ∧ step name [ev] w w'.
Proof. intros [= <- <-]. by repeat split. Qed.

Lemma perform_step (o : run_outcome) (name : string) (w w' : World)
    (out : res unit) :
  perform o name w = (out, w') →
  step name [] w w' ∧ (∀ u, out = Ok u → name ∈ scratch w').
Proof.
  destruct o as [|e [|]]; cbv [perform mbind M_bind set_scratch modify raise mret M_ret];
    intros [= <- <-]; (split; [|try discriminate]).
  - unfold step; simpl. rewrite app_nil_r.
    repeat split; try done; by apply elem_of_added_other.
  - intros _ _. simpl. apply elem_of_union_l. by apply elem_of_singleton.
  - unfold step; simpl. rewrite app_nil_r.
    repeat split; try done; by apply elem_of_added_other.
  - apply step_refl.
Qed.

Lemma rmtree_step (name : string) (w w' : World) (out : res unit) :
  rmtree name w = (out, w') →
  step name [] w w' ∧ (∀ u, out = Ok u → name ∉ scratch w').
Proof.
  unfold rmtree. destruct (decide (name ∈ scratch w)).
  - intros [= <- <-]. split.
    + unfold step; simpl. rewrite app_nil_r.
      repeat split; try done; by apply elem_of_removed_other.
    + intros _ _. simpl. apply not_elem_of_removed.
  - intros [= <- <-]. split; [apply step_refl | discriminate].
Qed.

Lemma lift_inv {A} (r : res A) (w w' : World) (out : res A) :
  lift r w = (out, w') → out = r ∧ w' = w.
Proof. by intros [= <- <-]. Qed.

Section Effects.
Context {ext : Externals}.

Lemma raman_block_step (atoms : Atoms) (method name : string) (w w' : World)
    (out : res (list float * list float)) :
  raman_block atoms method name w = (out, w') →
  step name [EvRaman name] w w'.
Proof.
  unfold raman_block. intros H.
  apply M_bind_inv in H as [(u & w1 & Hlog & H)|(e & Hlog & _)];
    apply (log_step name) in Hlog as [_ Hlog]; [|done].
  assert (Hrest : step name [] w1 w'); [|by apply (step_trans _ _ _ _ _ _ Hlog)].
  apply M_bind_inv in H as [(u' & w2 & Hrun & H)|(e & Hrun & _)];
    apply perform_step in Hrun as [Hrun _]; [|done].
  assert (w' = w2) as ->; [|done].
  apply M_bind_inv in H as [(pz & w3 & Hpz & H)|(e & Hpz & _)];
    apply lift_inv in Hpz as [_ ->]; [|done].
  apply M_bind_inv in H as [(ri & w4 & Hri & H)|(e & Hri & _)];
    apply lift_inv in Hri as [_ ->]; [|done].
  apply M_bind_inv in H as [(rs & w5 & Hrs & H)|(e & Hrs & _)];
    apply lift_inv in Hrs as [_ ->]; [|done].
  by injection H as _ <-.
Qed.

Lemma raman_try_step (atoms : Atoms) (method name : string) (w w' : World)
    (out : res (option (list float * list float))) :
  try_except (r ← raman_block atoms method name; mret (Some r))
    (λ _, rmtree name;; mret None) w = (out, w') →
  step name [EvRaman name] w w'.
Proof.
  unfold try_except.
  destruct ((r ← raman_block atoms method name; mret (Some r)) w)
    as [[a|e] w1] eqn:Hbody.
  - intros [= <- <-].
    apply M_bind_inv in Hbody as [(r & w2 & Hblock & H)|(e & Hblock & [=])].
    injection H as _ <-. by eapply raman_block_step.
  - apply M_bind_inv in Hbody as [(r & w2 & Hblock & [=])|(e' & Hblock & _)].
    apply raman_block_step in Hblock. intros H.
    assert (Hrest : step name [] w1 w');
      [|by apply (step_trans _ _ _ _ _ _ Hblock)].
    apply M_bind_inv in H as [(u & w2 & Hrm & H)|(e'' & Hrm & _)];
      apply rmtree_step in Hrm as [Hrm _]; [|done].
    by injection H as _ <-.
Qed.

(** The state after the part of [run_xtb_ir] that comes before the result is
    stored, on a cache miss. *)
Lemma run_xtb_ir_inv (atoms : Atoms) (method : string) (mol : Mol)
    (w w' : World) (out : res IRResult) :
  ir_cache w !! ir_hash atoms method = None →
  run_xtb_ir atoms method (Some mol) w = (out, w') →
  let name := ir_hash atoms method in
  (∃ e evs, out = Raise e ∧ step name evs w w')
  ∨ (∃ r w3,
       out = Ok r
       ∧ step name [EvRaman name; EvInfrared name] w w3
       ∧ name ∈ scratch w3
       ∧ w' = {| conformer_cache := conformer_cache w3;
                 ir_cache := <[name := r]> (ir_cache w3);
                 ir_from_smiles_cache := ir_from_smiles_cache w3;
                 ir_from_molfile_cache := ir_from_molfile_cache w3;
                 scratch := scratch w3 ∖ {[name]};
                 trace := trace w3 |}).
Proof.
  intros Hmiss Hrun name. unfold run_xtb_ir in Hrun. cbv zeta in Hrun.
  fold name in Hrun.
  apply M_bind_inv in Hrun as [(cached & w0 & Hget & Hrun)|(e & Hget & _)];
    rewrite gets_run in Hget; [|discriminate].
  injection Hget as <- <-. fold name in Hmiss. rewrite Hmiss in Hrun.
  apply M_bind_inv in Hrun as [(raman & w1 & Hraman & Hrun)|(e & Hraman & ->)];
    apply raman_try_step in Hraman; [|left; eauto].
  apply M_bind_inv in Hrun as [(u & w2 & Hlog & Hrun)|(e & Hlog & ->)];
    apply (log_step name) in Hlog as [Hout Hlog]; [|discriminate Hout].
  pose proof (step_trans _ _ _ _ _ _ Hraman Hlog) as H2. simpl in H2.
  apply M_bind_inv in Hrun as [(u' & w3 & Hperf & Hrun)|(e & Hperf & ->)];
    apply perform_step in Hperf as [Hperf Hdir].
  2:{ left. eexists _, _. split; [done|].
      exact (step_trans _ _ _ _ _ _ H2 Hperf). }
  pose proof (step_trans _ _ _ _ _ _ H2 Hperf) as H3. simpl in H3.
  specialize (Hdir _ eq_refl).
  apply M_bind_inv in Hrun as [(r & w4 & Hasm & Hrun)|(e & Hasm & ->)];
    apply lift_inv in Hasm as [Hasm ->]; [|left; eauto].
  apply M_bind_inv in Hrun as [(u'' & w5 & Hset & Hrun)|(e & Hset & _)];
    [|discriminate].
  injection Hset as _ <-.
  unfold rmtree in Hrun at 1. cbv [mbind M_bind] in Hrun. simpl in Hrun.
  rewrite decide_True in Hrun by done.
  injection Hrun as <- <-. right. exists r, w3. done.
Qed.

(** What [run_xtb_ir] leaves alone, whatever its outcome. *)
Lemma run_xtb_ir_frame (atoms : Atoms) (method : string) (mol : option Mol)
    (w w' : World) (out : res IRResult) :
  run_xtb_ir atoms method mol w = (out, w') →
  conformer_cache w' = conformer_cache w
  ∧ ir_from_smiles_cache w' = ir_from_smiles_cache w
  ∧ ir_from_molfile_cache w' = ir_from_molfile_cache w
  ∧ (∀ k, k ≠ ir_hash atoms method → ir_cache w' !! k = ir_cache w !! k)
  ∧ (∀ d, d ≠ ir_hash atoms method → d ∈ scratch w' ↔ d ∈ scratch w)
  ∧ (∀ e, out = Raise e → ir_cache w' = ir_cache w).
Proof.
  intros Hrun. destruct mol as [mol|]; [|by injection Hrun as <- <-].
  destruct (ir_cache w !! ir_hash atoms method) as [r|] eqn:Hlook.
  - unfold run_xtb_ir in Hrun. cbv [mbind M_bind gets] in Hrun.
    rewrite Hlook in Hrun.
    injection Hrun as <- <-. repeat split; done.
  - destruct (run_xtb_ir_inv atoms method mol w w' out Hlook Hrun)
      as [(e & evs & -> & Hc & Hi & Hs & Hm & Hd & _)
         |(r & w3 & -> & (Hc & Hi & Hs & Hm & Hd & _) & _ & ->)]; simpl.
    + split; [done|]. split; [done|]. split; [done|].
      split; [intros k _; by rewrite Hi|]. split; [done|]. done.
    + split; [done|]. split; [done|]. split; [done|].
      split; [intros k Hk; by rewrite lookup_insert_ne, Hi|].
      split; [|discriminate].
      intros d Hd'. rewrite elem_of_removed_other by done. by apply Hd.
Qed.

Lemma smiles2ase_effect (smiles : string) (max_atoms : option nat)
    (w w' : World) (out : res (Atoms * Mol)) :
  smiles2ase smiles max_atoms w = (out, w') →
  ir_cache w' = ir_cache w
  ∧ ir_from_smiles_cache w' = ir_from_smiles_cache w
  ∧ ir_from_molfile_cache w' = ir_from_molfile_cache w
  ∧ scratch w' = scratch w
  ∧ (∀ k, k ≠ smiles → conformer_cache w' !! k = conformer_cache w !! k)
  ∧ (∀ e, out = Raise e → conformer_cache w' = conformer_cache w).
Proof.
  unfold smiles2ase.
  cbv [mbind M_bind gets lift log modify conformer_cache_set mret M_ret].
  intros H. repeat case_match; simplify_eq; simpl;
    repeat split; try done; intros; by rewrite ?lookup_insert_ne.
Qed.

Lemma molfile2ase_effect (molfile : string) (max_atoms : option nat)
    (w w' : World) (out : res (Atoms * Mol)) :
  molfile2ase molfile max_atoms w = (out, w') →
  ir_cache w' = ir_cache w
  ∧ ir_from_smiles_cache w' = ir_from_smiles_cache w
  ∧ ir_from_molfile_cache w' = ir_from_molfile_cache w
  ∧ scratch w' = scratch w
  ∧ (∀ k, k ≠ molfile → conformer_cache w' !! k = conformer_cache w !! k)
  ∧ (∀ e, out = Raise e → conformer_cache w' = conformer_cache w).
Proof.
  unfold molfile2ase.
  cbv [mbind M_bind gets lift log modify conformer_cache_set mret M_ret].
  intros H. repeat case_match; simplify_eq; simpl;
    repeat split; try done; intros; by rewrite ?lookup_insert_ne.
Qed.

(** The two entry points differ in the builder and in the cache of final
    results: what follows the builder is the same. *)
Lemma calculate_inv (builder : M (Atoms * Mol)) (method myhash : string)
    (store : string → IRResult → M unit) (w w' : World) (out : res IRResult) :
  (am ← builder;
   log (EvOptimize am.1 method);;
   opt_atoms ← lift (run_xtb_opt am.1 method);
   result ← run_xtb_ir opt_atoms method (Some am.2);
   store myhash result;;
   mret result) w = (out, w') →
  (∃ e, builder w = (Raise e, w') ∧ out = Raise e)
  ∨ ∃ am w1 w2,
      builder w = (Ok am, w1)
      ∧ log (EvOptimize am.1 method) w1 = (Ok (), w2)
      ∧ ((∃ e, run_xtb_opt am.1 method = Raise e ∧ out = Raise e ∧ w' = w2)
         ∨ ∃ opt_atoms,
             run_xtb_opt am.1 method = Ok opt_atoms
             ∧ ((∃ e, run_xtb_ir opt_atoms method (Some am.2) w2
                      = (Raise e, w') ∧ out = Raise e)
                ∨ ∃ r w3,
                    run_xtb_ir opt_atoms method (Some am.2) w2 = (Ok r, w3)
                    ∧ (store myhash r ≫= λ _, mret r) w3 = (out, w'))).
Proof.
  intros H.
  apply M_bind_inv in H as [(am & w1 & Hb & H)|(e & Hb & ->)]; [|left; eauto].
  right. exists am, w1.
  apply M_bind_inv in H as [(u & w2 & Hlog & H)|(e & Hlog & _)];
    [|discriminate]. destruct u. exists w2. split; [done|]. split; [done|].
  apply M_bind_inv in H as [(opt & w3 & Hopt & H)|(e & Hopt & ->)];
    apply lift_inv in Hopt as [Hopt ->]; [|left; eauto].
  right. exists opt. split; [done|].
  apply M_bind_inv in H as [(r & w4 & Hir & H)|(e & Hir & ->)];
    [right; eauto | left; eauto].
Qed.

End Effects.

(** X7: a request that fails stores no result: when [run_xtb_ir],
    [ir_from_smiles] or [ir_from_molfile] raises, the cache of spectra and
    the two caches of final results are as before the call. *)
Theorem failed_request_stores_no_result {ext : Externals} (atoms : Atoms)
    (text method : string) (mol : option Mol) (w w' : World) (e : exn) :
  (run_xtb_ir atoms method mol w = (Raise e, w') →
   ir_cache w' = ir_cache w
   ∧ ir_from_smiles_cache w' = ir_from_smiles_cache w
   ∧ ir_from_molfile_cache w' = ir_from_molfile_cache w)
  ∧ (ir_from_smiles text method w = (Raise e, w') →
     ir_cache w' = ir_cache w
     ∧ ir_from_smiles_cache w' = ir_from_smiles_cache w
     ∧ ir_from_molfile_cache w' = ir_from_molfile_cache w)
  ∧ (ir_from_molfile text method w = (Raise e, w') →
     ir_cache w' = ir_cache w
     ∧ ir_from_smiles_cache w' = ir_from_smiles_cache w
     ∧ ir_from_molfile_cache w' = ir_from_molfile_cache w).
Proof.
  split; [|split].
  - intros Hrun.
    destruct (run_xtb_ir_frame _ _ _ _ _ _ Hrun) as (_ & Hs & Hm & _ & _ & Hi).
    split; [by eapply Hi | done].
  - unfold ir_from_smiles. cbv zeta. intros Hrun.
    apply M_bind_inv in Hrun as [(cached & w0 & Hget & Hrun)|(e' & Hget & _)];
      rewrite gets_run in Hget; [|discriminate].
    injection Hget as <- <-.
    destruct (ir_from_smiles_cache w !! _); [discriminate|].
    apply calculate_inv in Hrun
      as [(e' & Hb & _)|(am & w1 & w2 & Hb & Hlog & Hrest)].
    { by destruct (smiles2ase_effect _ _ _ _ _ Hb) as (? & ? & ? & _). }
    destruct (smiles2ase_effect _ _ _ _ _ Hb) as (Hi1 & Hs1 & Hm1 & _).
    injection Hlog as <-.
    destruct Hrest as [(e' & _ & _ & ->)|(opt & _ & Hrest)]; [done|].
    destruct Hrest as [(e' & Hir & _)|(r & w3 & _ & Hstore)].
    + destruct (run_xtb_ir_frame _ _ _ _ _ _ Hir)
        as (_ & Hs & Hm & _ & _ & Hi).
      rewrite (Hi _ eq_refl), Hs, Hm. done.
    + discriminate Hstore.
  - unfold ir_from_molfile. cbv zeta. intros Hrun.
    apply M_bind_inv in Hrun as [(cached & w0 & Hget & Hrun)|(e' & Hget & _)];
      rewrite gets_run in Hget; [|discriminate].
    injection Hget as <- <-.
    destruct (ir_from_molfile_cache w !! _); [discriminate|].
    apply calculate_inv in Hrun
      as [(e' & Hb & _)|(am & w1 & w2 & Hb & Hlog & Hrest)].
    { by destruct (molfile2ase_effect _ _ _ _ _ Hb) as (? & ? & ? & _). }
    destruct (molfile2ase_effect _ _ _ _ _ Hb) as (Hi1 & Hs1 & Hm1 & _).
    injection Hlog as <-.
    destruct Hrest as [(e' & _ & _ & ->)|(opt & _ & Hrest)]; [done|].
    destruct Hrest as [(e' & Hir & _)|(r & w3 & _ & Hstore)].
    + destruct (run_xtb_ir_frame _ _ _ _ _ _ Hir)
        as (_ & Hs & Hm & _ & _ & Hi).
      rewrite (Hi _ eq_refl), Hs, Hm. done.
    + discriminate Hstore.
Qed.

Lemma failed_request_stores_no_result_witness :
  ∃ w',
    ir_from_smiles (ext := Toy.infrared_fails) "O" "GFNFF" empty_world
    = (Raise (ExternalError "xtb"), w')
    ∧ ir_cache w' = ∅
    ∧ ir_from_smiles_cache w' = ∅
    ∧ ir_from_molfile_cache w' = ∅.
Proof.
  eassert (Hrun : ir_from_smiles (ext := Toy.infrared_fails) "O" "GFNFF"
                    empty_world = (Raise (ExternalError "xtb"), _))
    by (vm_compute; reflexivity).
  eexists. split; [exact Hrun|].
  exact (proj1 (proj2 (failed_request_stores_no_result
                         (ext := Toy.infrared_fails) Toy.water_atoms "O"
                         "GFNFF" None empty_world _ _)) Hrun).
Defined.

(** X8: the caches are independent name spaces: whatever its outcome, a call of
    [ir_from_smiles] leaves the cache of [ir_from_molfile] as it is, changes
    its own cache at most under the hash of its input and method, and the
    conformer cache at most under its input string; and the same with the
    roles of the two entry points exchanged. *)
Theorem cache_namespaces_independent {ext : Externals} (text method : string)
    (w w' : World) (out : res IRResult) :
  (ir_from_smiles text method w = (out, w') →
   ir_from_molfile_cache w' = ir_from_molfile_cache w
   ∧ (∀ k, k ≠ hash_object (text +:+ method) →
           ir_from_smiles_cache w' !! k = ir_from_smiles_cache w !! k)
   ∧ (∀ k, k ≠ text → conformer_cache w' !! k = conformer_cache w !! k))
  ∧ (ir_from_molfile text method w = (out, w') →
     ir_from_smiles_cache w' = ir_from_smiles_cache w
     ∧ (∀ k, k ≠ hash_object (text +:+ method) →
             ir_from_molfile_cache w' !! k = ir_from_molfile_cache w !! k)
     ∧ (∀ k, k ≠ text → conformer_cache w' !! k = conformer_cache w !! k)).
Proof.
  split.
  - unfold ir_from_smiles. cbv zeta. intros Hrun.
    apply M_bind_inv in Hrun as [(cached & w0 & Hget & Hrun)|(e' & Hget & _)];
      rewrite gets_run in Hget; [|discriminate].
    injection Hget as <- <-.
    destruct (ir_from_smiles_cache w !! _); [by injection Hrun as <- <-|].
    apply calculate_inv in Hrun
      as [(e' & Hb & _)|(am & w1 & w2 & Hb & Hlog & Hrest)].
    { by destruct (smiles2ase_effect _ _ _ _ _ Hb) as (_ & -> & -> & _ & ? & _). }
    destruct (smiles2ase_effect _ _ _ _ _ Hb) as (_ & Hs1 & Hm1 & _ & Hc1 & _).
    injection Hlog as <-.
    destruct Hrest as [(e' & _ & _ & ->)|(opt & _ & Hrest)];
      [by rewrite <- Hs1, <- Hm1|].
    destruct Hrest as [(e' & Hir & _)|(r & w3 & Hir & Hstore)];
      destruct (run_xtb_ir_frame _ _ _ _ _ _ Hir) as (Hc & Hs & Hm & _).
    + simpl in *. rewrite Hs, Hm, Hc. by rewrite <- Hs1, <- Hm1.
    + injection Hstore as _ <-. simpl in *. rewrite Hs, Hm, Hc.
      split; [done|]. split; [|done].
      intros k Hk. by rewrite lookup_insert_ne, Hs1.
  - unfold ir_from_molfile. cbv zeta. intros Hrun.
    apply M_bind_inv in Hrun as [(cached & w0 & Hget & Hrun)|(e' & Hget & _)];
      rewrite gets_run in Hget; [|discriminate].
    injection Hget as <- <-.
    destruct (ir_from_molfile_cache w !! _); [by injection Hrun as <- <-|].
    apply calculate_inv in Hrun
      as [(e' & Hb & _)|(am & w1 & w2 & Hb & Hlog & Hrest)].
    { by destruct (molfile2ase_effect _ _ _ _ _ Hb) as (_ & -> & -> & _ & ? & _). }
    destruct (molfile2ase_effect _ _ _ _ _ Hb) as (_ & Hs1 & Hm1 & _ & Hc1 & _).
    injection Hlog as <-.
    destruct Hrest as [(e' & _ & _ & ->)|(opt & _ & Hrest)];
      [by rewrite <- Hs1, <- Hm1|].
    destruct Hrest as [(e' & Hir & _)|(r & w3 & Hir & Hstore)];
      destruct (run_xtb_ir_frame _ _ _ _ _ _ Hir) as (Hc & Hs & Hm & _).
    + simpl in *. rewrite Hs, Hm, Hc. by rewrite <- Hs1, <- Hm1.
    + injection Hstore as _ <-. simpl in *. rewrite Hs, Hm, Hc.
      split; [done|]. split; [|done].
      intros k Hk. by rewrite lookup_insert_ne, Hm1.
Qed.

Lemma cache_namespaces_independent_witness :
  ∃ r w',
    ir_from_smiles (ext := Toy.sound) "O" "GFNFF" empty_world = (Ok r, w')
    ∧ ir_from_molfile_cache w' = ∅
    ∧ conformer_cache w' !! "O=C=O" = None.
Proof.
  eassert (Hrun : ir_from_smiles (ext := Toy.sound) "O" "GFNFF" empty_world
                  = (Ok _, _)) by (vm_compute; reflexivity).
  destruct (proj1 (cache_namespaces_independent (ext := Toy.sound) "O" "GFNFF"
                     empty_world _ _) Hrun) as (Hm & _ & Hc).
  eexists _, _. split; [exact Hrun|]. split; [exact Hm|].
  rewrite Hc by discriminate. reflexivity.
Defined.

(** X9: the effects of a computation of [run_xtb_ir] that returns (no cached
    result): the result is stored under the hash of structure and method,
    the scratch directory of that name is gone and no other directory is
    touched, the other caches are as before, and the Raman calculator and
    the infrared calculator were each run once, in this order - also
    when the Raman block failed. *)
Theorem run_xtb_ir_return_effects {ext : Externals} (atoms : Atoms)
    (method : string) (mol : Mol) (w w' : World) (r : IRResult) :
  ir_cache w !! ir_hash atoms method = None →
  run_xtb_ir atoms method (Some mol) w = (Ok r, w') →
  ir_cache w' = <[ir_hash atoms method := r]> (ir_cache w)
  ∧ scratch w' = scratch w ∖ {[ir_hash atoms method]}
  ∧ trace w'
    = trace w ++ [EvRaman (ir_hash atoms method);
                  EvInfrared (ir_hash atoms method)]
  ∧ conformer_cache w' = conformer_cache w
  ∧ ir_from_smiles_cache w' = ir_from_smiles_cache w
  ∧ ir_from_molfile_cache w' = ir_from_molfile_cache w.
Proof.
  intros Hmiss Hrun.
  destruct (run_xtb_ir_inv atoms method mol w w' _ Hmiss Hrun)
    as [(e & evs & [=] & _)
       |(r' & w3 & [= <-] & (Hc & Hi & Hs & Hm & Hd & Ht) & _ & ->)].
  simpl. rewrite Hi, Ht, Hc, Hs, Hm. repeat split; try done.
  apply set_eq. intros d.
  destruct (decide (d = ir_hash atoms method)) as [->|Hne].
  - split; intros Hin; by apply not_elem_of_removed in Hin.
  - rewrite !elem_of_removed_other by done. by apply Hd.
Qed.

Lemma run_xtb_ir_return_effects_witness :
  let name := ir_hash (ext := Toy.raman_fails) Toy.water_atoms "GFNFF" in
  ∃ r w',
    run_xtb_ir (ext := Toy.raman_fails) Toy.water_atoms "GFNFF"
      (Some Toy.water) empty_world = (Ok r, w')
    ∧ ir_cache w' = <[name := r]> ∅
    ∧ trace w' = [EvRaman name; EvInfrared name].
Proof.
  intros name.
  eassert (Hrun : run_xtb_ir (ext := Toy.raman_fails) Toy.water_atoms "GFNFF"
                    (Some Toy.water) empty_world = (Ok _, _))
    by (vm_compute; reflexivity).
  destruct (run_xtb_ir_return_effects (ext := Toy.raman_fails) Toy.water_atoms
              "GFNFF" Toy.water empty_world _ _ eq_refl Hrun)
    as (Hi & _ & Ht & _).
  eexists _, _. split; [exact Hrun|]. split; [exact Hi | exact Ht].
Defined.

(** X10: a method that [get_max_atoms] does not know gives the limit [None]: for
    an input that is parsed and has neither a cached result nor a cached
    conformer, the comparison of the atom count with [None] raises
    [TypeError], before anything is embedded, and the state is unchanged. *)
Theorem unknown_method_raises_type_error {ext : Externals}
    (text method : string) (mol : Mol) (w : World) :
  method ≠ "GFNFF" → method ≠ "GFN2xTB" → method ≠ "GFN1xTB" →
  conformer_cache w !! text = None →
  (MolFromSmiles text = Some mol →
   ir_from_smiles_cache w !! hash_object (text +:+ method) = None →
   ir_from_smiles text method w = (Raise TypeError, w))
  ∧ (MolFromMolBlock text = Some mol →
     ir_from_molfile_cache w !! hash_object (text +:+ method) = None →
     ir_from_molfile text method w = (Raise TypeError, w)).
Proof.
  intros Hff Hxtb2 Hxtb1 Hmiss.
  assert (Hmax : get_max_atoms method = None).
  { unfold get_max_atoms. by rewrite !decide_False. }
  split; intros Hparse Hfresh.
  - unfold ir_from_smiles. cbv [mbind M_bind gets]. rewrite Hfresh.
    unfold calculate_from_smiles. rewrite Hmax.
    apply M_bind_raise. unfold smiles2ase. cbv [mbind M_bind gets lift].
    by rewrite Hmiss, Hparse.
  - unfold ir_from_molfile. cbv [mbind M_bind gets]. rewrite Hfresh.
    unfold calculate_from_molfile. rewrite Hmax.
    apply M_bind_raise. unfold molfile2ase. cbv [mbind M_bind gets lift].
    by rewrite Hmiss, Hparse.
Qed.

Lemma unknown_method_raises_type_error_witness :
  ir_from_smiles (ext := Toy.sound) "O" "GFN0xTB" empty_world
  = (Raise TypeError, empty_world)
  ∧ ir_from_molfile (ext := Toy.sound) "O" "GFN0xTB" empty_world
    = (Raise TypeError, empty_world).
Proof.
  destruct (unknown_method_raises_type_error (ext := Toy.sound) "O" "GFN0xTB"
              Toy.water_graph empty_world) as [Hsmiles Hmolfile];
    try discriminate; try reflexivity.
  split; [exact (Hsmiles eq_refl eq_refl) | exact (Hmolfile eq_refl eq_refl)].
Defined.

Section Conformers.
Context {ext : Externals}.

Lemma molfile2ase_cached (molfile : string) (max_atoms : option nat)
    (w : World) (result : Atoms * Mol) :
  conformer_cache w !! molfile = Some result →
  molfile2ase molfile max_atoms w = (Ok result, w).
Proof.
  intros Hhit. unfold molfile2ase. cbv [mbind M_bind gets]. by rewrite Hhit.
Qed.

Lemma smiles2ase_stores (smiles : string) (max_atoms : option nat)
    (w w1 : World) (result : Atoms * Mol) :
  smiles2ase smiles max_atoms w = (Ok result, w1) →
  conformer_cache w1 !! smiles = Some result.
Proof.
  unfold smiles2ase.
  cbv [mbind M_bind gets lift log modify conformer_cache_set mret M_ret].
  intros H. repeat case_match; simplify_eq; simpl; try done.
  apply lookup_insert_eq.
Qed.

Lemma molfile2ase_stores (molfile : string) (max_atoms : option nat)
    (w w1 : World) (result : Atoms * Mol) :
  molfile2ase molfile max_atoms w = (Ok result, w1) →
  conformer_cache w1 !! molfile = Some result.
Proof.
  unfold molfile2ase.
  cbv [mbind M_bind gets lift log modify conformer_cache_set mret M_ret].
  intros H. repeat case_match; simplify_eq; simpl; try done.
  apply lookup_insert_eq.
Qed.

End Conformers.

(** X11: the conformer cache is keyed by the input text alone and shared by the
    two builders: after [molfile2ase] returned for a text, a second call
    returns the same pair and changes nothing, and so does [smiles2ase] for
    the same text; after [smiles2ase] returned, [molfile2ase] for the same
    text returns the pair built from the SMILES. No call parses, checks the
    limit or embeds again. *)
Theorem conformer_cache_is_shared {ext : Externals} (text : string)
    (max_atoms max_atoms' : option nat) (w w1 : World) (result : Atoms * Mol) :
  (molfile2ase text max_atoms w = (Ok result, w1) →
   molfile2ase text max_atoms' w1 = (Ok result, w1)
   ∧ smiles2ase text max_atoms' w1 = (Ok result, w1))
  ∧ (smiles2ase text max_atoms w = (Ok result, w1) →
     molfile2ase text max_atoms' w1 = (Ok result, w1)).
Proof.
  split; intros Hrun.
  - apply molfile2ase_stores in Hrun.
    split; [by apply molfile2ase_cached | by apply smiles2ase_cached].
  - apply smiles2ase_stores in Hrun. by apply molfile2ase_cached.
Qed.

Lemma conformer_cache_is_shared_witness :
  ∃ result w1,
    smiles2ase (ext := Toy.sound) "O" (Some 10) empty_world = (Ok result, w1)
    ∧ molfile2ase (ext := Toy.sound) "O" (Some 0) w1 = (Ok result, w1).
Proof.
  eassert (Hrun : smiles2ase (ext := Toy.sound) "O" (Some 10) empty_world
                  = (Ok _, _)) by (vm_compute; reflexivity).
  eexists _, _. split; [exact Hrun|].
  exact (proj2 (conformer_cache_is_shared (ext := Toy.sound) "O" (Some 10)
                  (Some 0) empty_world _ _) Hrun).
Defined.

(** X12: a builder that raises leaves every cache and the scratch directories as
    they were: no conformer is stored for an input that was rejected, too
    large, or whose embedding failed. A builder that returns touches the
    conformer cache under its input text only. *)
Theorem builder_failure_stores_nothing {ext : Externals} (text : string)
    (max_atoms : option nat) (w w' : World) (out : res (Atoms * Mol)) :
  (smiles2ase text max_atoms w = (out, w') →
   (∀ e, out = Raise e → conformer_cache w' = conformer_cache w)
   ∧ (∀ k, k ≠ text → conformer_cache w' !! k = conformer_cache w !! k)
   ∧ ir_cache w' = ir_cache w
   ∧ ir_from_smiles_cache w' = ir_from_smiles_cache w
   ∧ ir_from_molfile_cache w' = ir_from_molfile_cache w
   ∧ scratch w' = scratch w)
  ∧ (molfile2ase text max_atoms w = (out, w') →
     (∀ e, out = Raise e → conformer_cache w' = conformer_cache w)
     ∧ (∀ k, k ≠ text → conformer_cache w' !! k = conformer_cache w !! k)
     ∧ ir_cache w' = ir_cache w
     ∧ ir_from_smiles_cache w' = ir_from_smiles_cache w
     ∧ ir_from_molfile_cache w' = ir_from_molfile_cache w
     ∧ scratch w' = scratch w).
Proof.
  split; intros Hrun.
  - by destruct (smiles2ase_effect _ _ _ _ _ Hrun) as (? & ? & ? & ? & ? & ?).
  - by destruct (molfile2ase_effect _ _ _ _ _ Hrun) as (? & ? & ? & ? & ? & ?).
Qed.

Lemma builder_failure_stores_nothing_witness :
  ∃ w',
    smiles2ase (ext := Toy.sound) "O=C=O" (Some 2) empty_world
    = (Raise TooLargeError, w')
    ∧ conformer_cache w' = ∅.
Proof.
  eassert (Hrun : smiles2ase (ext := Toy.sound) "O=C=O" (Some 2) empty_world
                  = (Raise TooLargeError, _)) by (vm_compute; reflexivity).
  eexists. split; [exact Hrun|].
  destruct (proj1 (builder_failure_stores_nothing (ext := Toy.sound) "O=C=O"
                     (Some 2) empty_world _ _) Hrun) as (Hraise & _).
  exact (Hraise _ eq_refl).
Defined.

(** X13: in the molfile path no hydrogen is added: for a molfile without a cached
    conformer, [molfile2ase] raises [TooLargeError] exactly when the parsed
    graph has more than [max_atoms] atoms, and a structure it returns is the
    embedding of the parsed graph itself, atom for atom. *)
Theorem molfile_limit_counts_all_atoms {ext : Externals} (molfile : string)
    (max_atoms : nat) (mol : Mol) (w : World) :
  conformer_cache w !! molfile = None →
  MolFromMolBlock molfile = Some mol →
  embed_conformer mol ≠ Raise TooLargeError →
  ((molfile2ase molfile (Some max_atoms) w).1 = Raise TooLargeError
   ↔ max_atoms < GetNumAtoms mol)
  ∧ (∀ atoms embedded w',
       molfile2ase molfile (Some max_atoms) w = (Ok (atoms, embedded), w') →
       GetNumAtoms mol ≤ max_atoms
       ∧ embed_conformer mol = Ok embedded
       ∧ symbols atoms = mol_symbols embedded
       ∧ mol_conformer embedded = Some (positions atoms)
       ∧ length (positions atoms) = GetNumAtoms embedded).
Proof.
  intros Hmiss Hparse Hembed.
  unfold molfile2ase.
  cbv [mbind M_bind gets lift log modify conformer_cache_set mret M_ret].
  rewrite Hmiss, Hparse. simpl.
  destruct (decide (max_atoms < GetNumAtoms mol)) as [Hbig|Hsmall]; simpl.
  - split; [done|]. intros atoms embedded w' [=].
  - destruct (embed_conformer mol) as [embedded|e] eqn:Hemb; simpl.
    + unfold rdkit2ase.
      destruct (mol_conformer embedded) as [pos|] eqn:Hpos; simpl.
      * destruct (decide (length pos = GetNumAtoms embedded)); simpl.
        -- split; [split; [discriminate | lia]|].
           intros atoms emb w' [= <- <- <-]. simpl.
           repeat split; try done; lia.
        -- split; [split; [discriminate | lia]|]. intros ? ? ? [=].
      * split; [split; [discriminate | lia]|]. intros ? ? ? [=].
    + split; [split; [congruence | lia]|]. intros ? ? ? [=].
Qed.

Lemma molfile_limit_counts_all_atoms_witness :
  ∃ atoms embedded w',
    molfile2ase (ext := Toy.sound) "O=C=O" (Some 3) empty_world
    = (Ok (atoms, embedded), w')
    ∧ GetNumAtoms Toy.carbon_dioxide ≤ 3
    ∧ length (positions atoms) = GetNumAtoms embedded.
Proof.
  assert (Hembed : embed_conformer (Externals := Toy.sound) Toy.carbon_dioxide
                   ≠ Raise TooLargeError) by discriminate.
  destruct (molfile_limit_counts_all_atoms (ext := Toy.sound) "O=C=O" 3
              Toy.carbon_dioxide empty_world eq_refl eq_refl Hembed)
    as [_ Hreturned].
  eassert (Hrun : molfile2ase (ext := Toy.sound) "O=C=O" (Some 3) empty_world
                  = (Ok (_, _), _)) by (vm_compute; reflexivity).
  destruct (Hreturned _ _ _ Hrun) as (Hsmall & _ & _ & _ & Hlen).
  eexists _, _, _. split; [exact Hrun|]. split; [exact Hsmall | exact Hlen].
Defined.

(** ** Order of floats and [argmax] *)

Lemma abs_not_below_zero (x : float) : PrimFloat.ltb (PrimFloat.abs x) 0 = false.
Proof.
  rewrite ltb_spec, abs_spec.
  change (Prim2SF 0) with (S754_zero false).
  by destruct (Prim2SF x) as [s|s| |s m e].
Qed.

Lemma abs_above_neg_infinity (x : float) :
  PrimFloat.leb (PrimFloat.abs x) neg_infinity = false.
Proof.
  rewrite leb_spec, abs_spec.
  change (Prim2SF neg_infinity) with (S754_infinity true).
  by destruct (Prim2SF x) as [s|s| |s m e].
Qed.

(** [argmax] returns the position of an entry that is [nan] or that no other
    entry exceeds. *)
Lemma argmax_from_max (pre a : list float) (best : nat) (mp : float) :
  (pre ++ a) !! best = Some mp →
  np.isnan mp = true ∨ Forall (λ y, PrimFloat.leb y mp = true) pre →
  ∃ x, (pre ++ a) !! argmax_from (length pre) best mp a = Some x
       ∧ (np.isnan x = true
          ∨ Forall (λ y, PrimFloat.leb y x = true) (pre ++ a)).
Proof.
  revert pre best mp. induction a as [|x tl IH]; intros pre best mp Hbest Hpre.
  - simpl. exists mp. split; [done|]. by rewrite app_nil_r.
  - simpl. destruct (np.isnan mp) eqn:Hnan.
    { exists mp. split; [done|]. by left. }
    destruct Hpre as [?|Hpre]; [done|].
    replace (S (length pre)) with (length (pre ++ [x]))
      by (rewrite length_app; simpl; lia).
    rewrite (cons_middle x pre tl), (assoc_L (++)).
    destruct (PrimFloat.leb x mp) eqn:Hle.
    + apply IH.
      * by rewrite <- (assoc_L (++)), <- cons_middle.
      * right. apply Forall_app. split; [done|]. by constructor.
    + apply IH.
      * rewrite lookup_app_l by (rewrite length_app; simpl; lia).
        rewrite lookup_app_r by lia. by rewrite Nat.sub_diag.
      * destruct (np.isnan x) eqn:Hx; [by left | right].
        pose proof (leb_total _ _ Hx Hnan Hle) as Hmp.
        apply Forall_app. split.
        -- eapply Forall_impl; [exact Hpre|]. intros y Hy. simpl in Hy.
           by apply (leb_trans y mp x).
        -- constructor; [by apply leb_refl | constructor].
Qed.

Lemma argmax_max (a : list float) (r : nat) :
  argmax a = Ok r →
  ∃ x, a !! r = Some x
       ∧ (np.isnan x = true ∨ Forall (λ y, PrimFloat.leb y x = true) a).
Proof.
  destruct a as [|x tl]; [discriminate|]. intros [= <-].
  apply (argmax_from_max [x] tl 0 x); [done|].
  destruct (np.isnan x) eqn:Hx; [by left | right].
  constructor; [by apply leb_refl | constructor].
Qed.

Lemma column_lookup (a : list (list float)) (i j : nat) :
  Forall (λ r, i < length r) a →
  column a i !! j = a !! j ≫= (λ r, r !! i).
Proof.
  unfold column. intros Hall. revert j.
  induction Hall as [|r a Hr Hall IH]; intros j; [done|].
  simpl. destruct (lookup_lt_is_Some_2 r i Hr) as [x Hx]. rewrite Hx. simpl.
  destruct j as [|j]; simpl; [done | apply IH].
Qed.

Lemma fill_rows_lookup (k : nat) (v : float) (a : list (list float))
    (j : nat) :
  fill_rows k v a !! j
  = (λ row, if decide (j < k) then map (λ _, v) row else row) <$> a !! j.
Proof. unfold fill_rows. apply list_lookup_imap. Qed.

(** One entry per bond, each the absolute value of a difference. *)
Lemma get_bond_displacements_Ok (mol : Mol) (atoms : Atoms) (m : list vec3)
    (row : list float) :
  get_bond_displacements mol atoms m = Ok row →
  length row = length (mol_bonds mol)
  ∧ Forall (λ d, ∃ y, d = PrimFloat.abs y) row.
Proof.
  unfold get_bond_displacements. intros H.
  apply bind_Ok in H as (moved & _ & H).
  apply mapM_res_Ok in H. split.
  - symmetry. by eapply Forall2_length.
  - apply Forall_forall. intros d Hd.
    apply list_elem_of_lookup in Hd as [i Hi].
    destruct (Forall2_lookup_r _ _ _ _ _ H Hi) as (b & _ & Hb).
    apply bind_Ok in Hb as (v & _ & Hb).
    apply bind_Ok in Hb as (v' & _ & Hb).
    injection Hb as <-. eauto.
Qed.

Lemma compile_all_bond_displacements_Ok (mol : Mol) (atoms : Atoms)
    (ir : Infrared) (bd : list (list float)) :
  compile_all_bond_displacements mol atoms ir = Ok bd →
  0 < length (ir_indices ir)
  ∧ length bd = 3 * length (ir_indices ir)
  ∧ Forall (λ row, length row = length (mol_bonds mol)
                   ∧ Forall (λ d, ∃ y, d = PrimFloat.abs y) row) bd.
Proof.
  unfold compile_all_bond_displacements. intros H.
  apply bind_Ok in H as (rows & Hrows & H).
  apply mapM_res_Ok in Hrows.
  pose proof (Forall2_length _ _ _ Hrows) as Hlen. rewrite length_seq in Hlen.
  assert (rows = bd ∧ rows ≠ []) as [-> Hne].
  { unfold stack in H. destruct rows as [|r tl]; [discriminate|].
    case_decide; [|discriminate]. by injection H as <-. }
  split; [|split].
  - destruct bd; [done|]. simpl in Hlen. lia.
  - done.
  - apply Forall_forall. intros row Hrow.
    apply list_elem_of_lookup in Hrow as [i Hi].
    destruct (Forall2_lookup_r _ _ _ _ _ Hrows Hi) as (n & _ & Hn).
    apply bind_Ok in Hn as (m & _ & Hn).
    by apply get_bond_displacements_Ok in Hn.
Qed.

(** X14: the table of bond displacements has one row per degree of freedom and one
    entry per bond, and no entry is negative; without atoms there is no row to
    stack and the call raises [ValueError]. *)
Theorem bond_displacement_table (mol : Mol) (atoms : Atoms)
    (ir : Infrared) :
  (∀ bd, compile_all_bond_displacements mol atoms ir = Ok bd →
     length bd = 3 * length (ir_indices ir)
     ∧ Forall (λ row, length row = length (mol_bonds mol)
                      ∧ Forall (λ d, PrimFloat.ltb d 0 = false) row) bd)
  ∧ (length (ir_indices ir) = 0 →
     compile_all_bond_displacements mol atoms ir = Raise ValueError).
Proof.
  split.
  - intros bd H.
    apply compile_all_bond_displacements_Ok in H as (_ & Hlen & Hall).
    split; [done|]. eapply Forall_impl; [exact Hall|].
    intros row [Hrow Habs]. split; [done|].
    eapply Forall_impl; [exact Habs|]. intros d [y ->].
    apply abs_not_below_zero.
  - intros Hzero. unfold compile_all_bond_displacements. by rewrite Hzero.
Qed.

Lemma bond_displacement_table_witness :
  (∃ bd, compile_all_bond_displacements Toy.water Toy.water_atoms Toy.ir
         = Ok bd
         ∧ length bd = 9
         ∧ Forall (λ row, length row = 2
                          ∧ Forall (λ d, PrimFloat.ltb d 0 = false) row) bd)
  ∧ compile_all_bond_displacements Toy.water (Build_Atoms [] [])
      (Toy.infrared (Build_Atoms [] [])) = Raise ValueError.
Proof.
  eassert (Hrun : compile_all_bond_displacements Toy.water Toy.water_atoms
                    Toy.ir = Ok _)
    by (vm_compute; reflexivity).
  split.
  - destruct (bond_displacement_table Toy.water Toy.water_atoms Toy.ir)
      as [Hshape _].
    destruct (Hshape _ Hrun) as [Hlen Hall].
    eexists. split; [exact Hrun|]. split; [exact Hlen | exact Hall].
  - apply (bond_displacement_table Toy.water (Build_Atoms [] [])
             (Toy.infrared (Build_Atoms [] []))).
    reflexivity.
Defined.

(** X15: for every bond the result names the bond's atoms, a mode of the table and
    the table's entry for that mode and bond; the entry is [nan] or no
    unmasked mode moves the bond further; and when a mode is left unmasked,
    the mode named is not a masked one. *)
Theorem bond_mode_is_largest_unmasked (mol : Mol) (atoms : Atoms)
    (ir : Infrared) (linear : bool) (bd : list (list float))
    (out : list BondMode) :
  compile_all_bond_displacements mol atoms ir = Ok bd →
  most_relevant_modes mol atoms linear bd = Ok out →
  length out = length (mol_bonds mol)
  ∧ ∀ i e, out !! i = Some e →
      mol_bonds mol !! i = Some (startAtom e, endAtom e)
      ∧ (∃ row, bd !! mode e = Some row ∧ row !! i = Some (displacement e))
      ∧ (zero_modes linear < length bd → ¬ masked atoms linear (mode e))
      ∧ (np.isnan (displacement e) = true
         ∨ ∀ j row d, ¬ masked atoms linear j →
             bd !! j = Some row → row !! i = Some d →
             PrimFloat.leb d (displacement e) = true).
Proof.
  intros Hbd H.
  apply compile_all_bond_displacements_Ok in Hbd as (Hpos & Hlen & Hall).
  assert (Hcols : ncols bd = length (mol_bonds mol)).
  { destruct bd as [|r bd']; [simpl in Hlen; lia|].
    apply Forall_cons_1 in Hall as [[Hr _] _]. exact Hr. }
  unfold most_relevant_modes in H.
  apply bind_Ok in H as (best & Hbest & H).
  apply mapM_res_Ok in Hbest, H.
  pose proof (Forall2_length _ _ _ Hbest) as Hlb.
  rewrite length_seq, Hcols in Hlb.
  pose proof (Forall2_length _ _ _ H) as Hlo. rewrite length_imap in Hlo.
  split; [congruence|].
  intros i e Hi.
  destruct (Forall2_lookup_r _ _ _ _ _ H Hi) as ([i' r] & Him & He).
  apply list_lookup_imap_Some in Him as (r' & Hr & [= -> ->]).
  simpl in He.
  apply bind_Ok in He as (bond & Hbond & He).
  apply bind_Ok in He as (row & Hrow & He).
  apply bind_Ok in He as (d & Hd & He).
  injection He as <-. simpl.
  apply index_Ok in Hbond, Hrow, Hd.
  split; [by destruct bond|]. split; [by exists row|].
  assert (Hi_lt : i < length (mol_bonds mol)).
  { apply lookup_lt_Some in Hr. lia. }
  destruct (Forall2_lookup_r _ _ _ _ _ Hbest Hr) as (i'' & Hseq & Hmax).
  apply lookup_seq in Hseq as [-> _]. simpl in Hmax.
  apply argmax_max in Hmax as (x & Hx & Hmaxi).
  assert (Hwide : Forall (λ r0 : list float, i < length r0) bd).
  { eapply Forall_impl; [exact Hall|]. intros r0 [Hr0 _]. simpl. lia. }
  assert (Habs : ∀ j row' d', bd !! j = Some row' → row' !! i = Some d' →
                   PrimFloat.leb d' neg_infinity = false).
  { intros j row' d' Hj Hd'.
    eapply Forall_lookup_1 in Hall as [_ Hrow']; [|exact Hj].
    eapply Forall_lookup_1 in Hrow' as [y ->]; [|exact Hd'].
    apply abs_above_neg_infinity. }
  case_decide as Hatoms.
  - (* the first rows are masked *)
    assert (Hwide' : Forall (λ r0 : list float, i < length r0)
                       (fill_rows (zero_modes linear) neg_infinity bd)).
    { apply Forall_forall. intros r0 Hr0.
      apply list_elem_of_lookup in Hr0 as [j Hj].
      rewrite fill_rows_lookup in Hj.
      destruct (bd !! j) as [r1|] eqn:Hr1; [|discriminate].
      eapply Forall_lookup_1 in Hwide; [|exact Hr1].
      injection Hj as <-. case_decide; [by rewrite length_map | done]. }
    fold (zero_modes linear) in Hx, Hmaxi.
    assert (Hcol : ∀ j, column (fill_rows (zero_modes linear) neg_infinity bd)
                          i !! j
                        = bd !! j ≫= λ r0,
                            if decide (j < zero_modes linear)
                            then Some neg_infinity else r0 !! i).
    { intros j. rewrite column_lookup by done. rewrite fill_rows_lookup.
      destruct (bd !! j) as [r1|] eqn:Hr1; [|done]. simpl.
      eapply Forall_lookup_1 in Hwide; [|exact Hr1].
      case_decide; [|done]. rewrite list_lookup_fmap.
      destruct (lookup_lt_is_Some_2 r1 i Hwide) as [y ->]. done. }
    rewrite Hcol, Hrow in Hx. simpl in Hx.
    assert (Hle : ∀ j row' d', ¬ masked atoms linear j →
              bd !! j = Some row' → row' !! i = Some d' →
              np.isnan x = true ∨ PrimFloat.leb d' x = true).
    { intros j row' d' Hj Hrow' Hd'.
      destruct Hmaxi as [?|Hmaxi]; [by left | right].
      apply (Forall_lookup_1 _ _ j d') in Hmaxi; [exact Hmaxi|].
      rewrite Hcol, Hrow'. simpl.
      destruct (decide (j < zero_modes linear)) as [Hjk|Hjk]; [|done].
      destruct Hj. by split. }
    destruct (decide (r' < zero_modes linear)) as [Hr_lt|Hr_lt].
    + (* a masked row can only win when no row is left *)
      injection Hx as <-.
      assert (Hnone : ∀ j row' d', ¬ masked atoms linear j →
                bd !! j = Some row' → row' !! i = Some d' → False).
      { intros j row' d' Hj Hrow' Hd'.
        destruct (Hle _ _ _ Hj Hrow' Hd') as [Hn|Hl]; [done|].
        by rewrite (Habs _ _ _ Hrow' Hd') in Hl. }
      split.
      * intros Hk. exfalso.
        destruct (lookup_lt_is_Some_2 bd (zero_modes linear) Hk) as [rk Hrk].
        eapply Forall_lookup_1 in Hwide; [|exact Hrk].
        destruct (lookup_lt_is_Some_2 rk i Hwide) as [dk Hdk].
        apply (Hnone _ _ _ (λ Hm, Nat.lt_irrefl _ (proj2 Hm)) Hrk Hdk).
      * right. intros j row' d' Hj Hrow' Hd'.
        destruct (Hnone _ _ _ Hj Hrow' Hd').
    + assert (x = d) as -> by congruence.
      split; [intros _ [_ ?]; lia|].
      destruct (np.isnan d) eqn:Hnan; [by left | right].
      intros j row' d' Hj Hrow' Hd'.
      by destruct (Hle _ _ _ Hj Hrow' Hd').
  - rewrite column_lookup, Hrow in Hx by done. simpl in Hx.
    assert (x = d) as -> by congruence.
    split; [intros _ [? _]; lia|].
    destruct Hmaxi as [?|Hmaxi]; [by left | right].
    intros j row' d' _ Hrow' Hd'.
    apply (Forall_lookup_1 _ _ j d') in Hmaxi; [exact Hmaxi|].
    rewrite column_lookup, Hrow' by done. done.
Qed.

Lemma bond_mode_is_largest_unmasked_witness :
  ∃ bd out,
    compile_all_bond_displacements Toy.water Toy.water_atoms Toy.ir = Ok bd
    ∧ most_relevant_modes Toy.water Toy.water_atoms false bd = Ok out
    ∧ length out = 2
    ∧ ∀ i e, out !! i = Some e → ¬ masked Toy.water_atoms false (mode e).
Proof.
  eassert (Hbd : compile_all_bond_displacements Toy.water Toy.water_atoms
                   Toy.ir = Ok _)
    by (vm_compute; reflexivity).
  match type of Hbd with
  | _ = Ok ?bd =>
      eassert (Hrun : most_relevant_modes Toy.water Toy.water_atoms false bd
                      = Ok _)
        by (vm_compute; reflexivity)
  end.
  destruct (bond_mode_is_largest_unmasked _ _ _ _ _ _ Hbd Hrun)
    as [Hlen Hall].
  eexists _, _. split; [exact Hbd|]. split; [exact Hrun|].
  split; [exact Hlen|].
  intros i e Hi. destruct (Hall i e Hi) as (_ & _ & Hmode & _).
  apply Hmode. vm_compute. lia.
Defined.

(** A loop whose body can only raise [e] raises [e] once the body fails. *)
Lemma mapM_res_raise {A B} (f : A → res B) (e : exn) (l : list A) :
  Forall (λ x, (∃ y, f x = Ok y) ∨ f x = Raise e) l →
  Exists (λ x, f x = Raise e) l →
  mapM f l = Raise e.
Proof.
  induction 1 as [|x l Hx Hall IH]; intros Hex; [by apply Exists_nil in Hex|].
  simpl. destruct Hx as [[y Hy]|Hx]; [|by rewrite Hx].
  rewrite Hy. simpl. apply Exists_cons in Hex as [Hex|Hex]; [congruence|].
  by rewrite (IH Hex).
Qed.

(** X16: the bounds of [get_bond_displacements]: a mode whose number of atoms
    neither is that of the structure nor broadcasts to it raises
    [ValueError]; for a mode of the structure's size, a bond that names an
    atom outside the structure raises [IndexError]. *)
Theorem bond_displacements_bounds (mol : Mol) (atoms : Atoms)
    (mode : list vec3) :
  (length (positions atoms) ≠ length mode →
   length (positions atoms) ≠ 1 → length mode ≠ 1 →
   get_bond_displacements mol atoms mode = Raise ValueError)
  ∧ (length (positions atoms) = length mode →
     Exists (λ b, length mode ≤ b.1 ∨ length mode ≤ b.2) (mol_bonds mol) →
     get_bond_displacements mol atoms mode = Raise IndexError).
Proof.
  unfold get_bond_displacements, get_displaced_positions, add_rows. split.
  - intros Hne Hp Hm. case_decide; [done|].
    destruct (positions atoms) as [|p [|p' ps]], mode as [|m [|m' ms]];
      simpl in *; done.
  - intros Heq Hex. case_decide; [|done]. simpl.
    set (displaced := map _ _).
    assert (Hd : length displaced = length mode).
    { unfold displaced. rewrite length_map, length_zip_with. lia. }
    apply mapM_res_raise.
    + apply Forall_forall. intros b _.
      unfold get_bond_vector, index.
      destruct (positions atoms !! b.2) as [p1|]; [|by right]. simpl.
      destruct (positions atoms !! b.1) as [p0|]; [|by right]. simpl.
      destruct (displaced !! b.2) as [q1|]; [|by right]. simpl.
      destruct (displaced !! b.1) as [q0|]; [|by right]. simpl.
      left. eauto.
    + eapply Exists_impl; [exact Hex|]. intros b Hb. simpl in Hb. simpl.
      unfold get_bond_vector, index.
      destruct (positions atoms !! b.2) as [p1|] eqn:H2; [|done]. simpl.
      destruct (positions atoms !! b.1) as [p0|] eqn:H1; [|done]. simpl.
      apply lookup_lt_Some in H1, H2. lia.
Qed.

Lemma bond_displacements_bounds_witness :
  get_bond_displacements Toy.water Toy.water_atoms
    (map (Toy.shift 7) (seq 0 2)) = Raise ValueError
  ∧ get_bond_displacements Toy.water Toy.salt_atoms
      (map (Toy.shift 7) (seq 0 2)) = Raise IndexError.
Proof.
  split.
  - apply (bond_displacements_bounds Toy.water Toy.water_atoms
             (map (Toy.shift 7) (seq 0 2))); simpl; lia.
  - apply (bond_displacements_bounds Toy.water Toy.salt_atoms
             (map (Toy.shift 7) (seq 0 2))); [reflexivity|].
    apply Exists_cons_tl, Exists_cons_hd. simpl. lia.
Defined.

(** ** The records of the modes *)

Section Records.
Context {ext : Externals}.
Context (ir : Infrared) (linear : bool) (alignments : list float)
  (third : float) (bond_displacements : option (list (list float)))
  (bonds : option (list (nat * nat))) (raman : option (list float))
  (num_modes : nat).

(** The fields of an entry that are read at the index of its mode. *)
Lemma mode_entry_record (n : nat) (info : ModeInfo) (fc : float * bool) :
  mode_entry ir linear alignments third bond_displacements bonds raman
    num_modes n = Ok (info, fc) →
  ir_intensities ir !! n = Some (intensity info)
  ∧ alignments !! n = Some (displacementAlignment info)
  ∧ ∃ d, ir_modes ir !! n = Some d
         ∧ centerOfMassDisplacement info = norm (sum_axis0 d)
         ∧ mostDisplacedAtoms info
           = reverse (argsort (map (λ v, norm (vsub v (sum_axis0 d))) d)).
Proof.
  unfold mode_entry. intros H.
  apply bind_Ok in H as (ty & Hty & H).
  apply bind_Ok in H as (fc' & Hfc & H).
  apply bind_Ok in H as (bound & Hbound & H).
  apply bind_Ok in H as (r & Hr & H).
  apply bind_Ok in H as (xyz & Hxyz & H).
  apply bind_Ok in H as (strength & Hstrength & H).
  apply bind_Ok in H as (m & Hm & H).
  apply bind_Ok in H as (atoms & Hatoms & H).
  apply bind_Ok in H as (current & Hcurrent & H).
  apply bind_Ok in H as (change & Hchange & H).
  apply bind_Ok in H as (alignment & Halignment & H).
  injection H as <- <-. simpl.
  apply index_Ok in Hstrength, Halignment.
  unfold get_mode in Hcurrent. apply index_Ok in Hcurrent.
  split; [done|]. split; [done|]. exists current. split; [done|].
  split; [done|].
  destruct bond_displacements as [bd|].
  - apply bind_Ok in Hbound as (row & Hrow & Hbound).
    apply bind_Ok in Hbound as (sel & Hsel & Hbound).
    apply bind_Ok in Hbound as (named & Hnamed & Hbound).
    apply bind_Ok in Hbound as (m' & Hm' & Hbound).
    injection Hbound as <-. simpl in Hm. injection Hm as <-.
    unfold get_mode in Hm'. apply index_Ok in Hm'.
    rewrite Hcurrent in Hm'. by injection Hm' as <-.
  - injection Hbound as <-. discriminate.
Qed.

End Records.

(** X17: the entries of [modes] come in the order that [np.argsort] gives
    the frequencies, one per degree of freedom, so that no entry has a
    frequency below that of the entry before it (in numpy's order on complex
    numbers); and each entry holds the data of the mode whose index is its
    [number]: the intensity, the alignment score and the selection of atoms
    of that mode, and a ranking that lists every atom exactly once. *)
Theorem mode_records_follow_frequency_order {ext : Externals} (ir : Infrared)
    (linear : bool) (alignments : list float)
    (bond_displacements : option (list (list float)))
    (bonds : option (list (nat * nat))) (raman : option (list float))
    (modes : list ModeInfo) (has_imaginary has_large_imaginary : bool) :
  well_formed ir →
  compile_modes_info ir linear alignments bond_displacements bonds raman
    = Ok (modes, has_imaginary, has_large_imaginary) →
  map number modes = argsort_complex (ir_get_frequencies ir)
  ∧ length modes = 3 * length (ir_indices ir)
  ∧ (∀ i m m' z z',
       modes !! i = Some m → modes !! S i = Some m' →
       ir_get_frequencies ir !! number m = Some z →
       ir_get_frequencies ir !! number m' = Some z' →
       complex_lt z' z = false)
  ∧ Forall (λ m, ir_intensities ir !! number m = Some (intensity m)
                 ∧ alignments !! number m = Some (displacementAlignment m)
                 ∧ select_most_contributing_atoms ir (number m)
                   = Ok (mostContributingAtoms m)
                 ∧ mostDisplacedAtoms m ≡ₚ seq 0 (length (ir_indices ir)))
           modes.
Proof.
  intros [Hfreq Hwide] H. unfold compile_modes_info in H.
  apply bind_Ok in H as (third & _ & H).
  apply modes_loop_Ok in H as (entries & Hout & Hall).
  simpl in Hout. subst modes.
  pose proof (argsort_complex_perm (ir_get_frequencies ir)) as Hperm.
  rewrite Hfreq in Hperm.
  assert (Hnum : map number entries = argsort_complex (ir_get_frequencies ir)).
  { apply lookup_seq_all. rewrite Hperm, length_seq.
    apply Forall2_fmap_r. eapply Forall2_impl; [exact Hall|].
    intros k info (n & fc & Hk & He). simpl.
    apply mode_entry_Ok in He as (-> & _). done. }
  split; [done|]. split; [|split].
  - apply Forall2_length in Hall. by rewrite length_seq in Hall.
  - intros i m m' z z' Hm Hm' Hz Hz'.
    pose proof (argsort_complex_ascends (ir_get_frequencies ir)) as Hsorted.
    rewrite <- Hnum in Hsorted.
    pose proof (Sorted_neighbours _ _ i (number m) (number m') Hsorted) as Hnb.
    rewrite !list_lookup_fmap, Hm, Hm' in Hnb.
    specialize (Hnb eq_refl eq_refl). unfold not_after in Hnb.
    by rewrite Hz, Hz' in Hnb.
  - apply Forall_forall. intros m Hm.
    apply list_elem_of_lookup in Hm as [i Hi].
    destruct (Forall2_lookup_r _ _ _ _ _ Hall Hi) as (k & _ & n & fc & _ & He).
    pose proof (mode_entry_record _ _ _ _ _ _ _ _ _ _ _ He)
      as (Hint & Hal & d & Hd & _ & Hrank).
    apply mode_entry_Ok in He as (Hn & _ & _ & Hsel & _).
    rewrite Hn. split; [done|]. split; [done|]. split; [done|].
    eapply Forall_lookup_1 in Hwide; [|exact Hd].
    rewrite Hrank, reverse_Permutation.
    by rewrite argsort_perm, length_map, Hwide.
Qed.

Lemma mode_records_follow_frequency_order_witness :
  ∃ modes has_imaginary has_large_imaginary,
    compile_modes_info (ext := Toy.sound) Toy.ir false Toy.alignments
      (Some Toy.bond_rows) (Some (mol_bonds Toy.water)) None
      = Ok (modes, has_imaginary, has_large_imaginary)
    ∧ map number modes
      = argsort_complex (Externals := Toy.sound)
          (ir_get_frequencies Toy.ir)
    ∧ length modes = 3 * length (ir_indices Toy.ir)
    ∧ (∀ i m m' z z',
         modes !! i = Some m → modes !! S i = Some m' →
         ir_get_frequencies Toy.ir !! number m = Some z →
         ir_get_frequencies Toy.ir !! number m' = Some z' →
         complex_lt z' z = false).
Proof.
  eassert (Hrun : compile_modes_info (ext := Toy.sound) Toy.ir false
                    Toy.alignments (Some Toy.bond_rows)
                    (Some (mol_bonds Toy.water)) None = Ok (_, _, _))
    by (vm_compute; reflexivity).
  assert (Hwf : well_formed Toy.ir).
  { split; [reflexivity | repeat constructor]. }
  destruct (mode_records_follow_frequency_order (ext := Toy.sound) _ _ _ _ _ _
              _ _ _ Hwf Hrun) as (Horder & Hlen & Hascends & _).
  eexists _, _, _. split; [exact Hrun|]. split; [exact Horder|].
  split; [exact Hlen | exact Hascends].
Defined.

Lemma stack_inv (rows out : list (list float)) :
  stack rows = Ok out →
  out = rows ∧ ∃ r tl, rows = r :: tl ∧ Forall (λ r', length r' = length r) tl.
Proof.
  unfold stack. destruct rows as [|r tl]; [discriminate|].
  case_decide; [|discriminate]. intros [= <-]. eauto.
Qed.

(** X18: every atom of the [Infrared] object has a ranking, and each ranking lists
    every mode exactly once. *)
Theorem atom_rankings_list_every_mode {ext : Externals} (ir : Infrared)
    (linear : bool) (rel : gmap nat (list nat)) :
  well_formed ir →
  get_max_displacements ir linear = Ok rel →
  (∀ a, a ∈ ir_indices ir ↔ is_Some (rel !! a))
  ∧ (∀ a ranking, rel !! a = Some ranking →
       ranking ≡ₚ seq 0 (3 * length (ir_indices ir))).
Proof.
  intros [_ Hmodes] H. unfold get_max_displacements in H.
  apply bind_Ok in H as (rows & Hrows & H).
  apply bind_Ok in H as (mads & Hstack & H).
  injection H as <-.
  apply stack_inv in Hstack as (-> & r0 & tl & Hcons & _).
  apply mapM_res_Ok in Hrows.
  pose proof (Forall2_length _ _ _ Hrows) as Hlen. rewrite length_seq in Hlen.
  assert (Hwidth : Forall (λ r, length r = length (ir_indices ir)) rows).
  { apply Forall_forall. intros r Hr.
    apply list_elem_of_lookup in Hr as [i Hi].
    destruct (Forall2_lookup_r _ _ _ _ _ Hrows Hi) as (n & _ & Hn).
    apply bind_Ok in Hn as (m & Hm & Hn). injection Hn as <-.
    unfold get_mode in Hm. apply index_Ok in Hm.
    eapply Forall_lookup_1 in Hmodes; [|exact Hm].
    by rewrite length_map. }
  set (k := if linear then 5 else 6) in *.
  destruct (fill_rows_spec k 0%float rows _ Hwidth) as [Hflen Hfwidth].
  assert (Hncols : ncols (fill_rows k 0%float rows) = length (ir_indices ir)).
  { destruct (fill_rows k 0%float rows) as [|f ftl] eqn:Hf.
    - subst rows. simpl in Hflen. lia.
    - apply Forall_cons_1 in Hfwidth as [Hfw _]. exact Hfw. }
  rewrite Hncols.
  set (ranking := map (λ a, reverse (argsort
                     (column (fill_rows k 0%float rows) a)))
                   (seq 0 (length (ir_indices ir)))).
  assert (Hrl : length ranking = length (ir_indices ir)).
  { unfold ranking. by rewrite length_map, length_seq. }
  split.
  - intros a. rewrite <- not_eq_None_Some.
    rewrite <- (not_elem_of_list_to_map (M := gmap nat)).
    rewrite fmap_reverse, fst_zip by lia.
    rewrite elem_of_reverse. split; [by intros ? ? | apply dec_stable].
  - intros a rk Hrk. apply elem_of_list_to_map_2 in Hrk.
    apply elem_of_reverse, elem_of_zip_r in Hrk.
    unfold ranking in Hrk. apply list_elem_of_fmap in Hrk as (j & -> & Hj).
    apply elem_of_seq in Hj.
    rewrite reverse_Permutation.
    rewrite argsort_perm, column_length, Hflen, <- Hlen; [done|].
    eapply Forall_impl; [exact Hfwidth|]. intros r Hr. simpl in *. lia.
Qed.

Lemma atom_rankings_list_every_mode_witness :
  ∃ rel, get_max_displacements (ext := Toy.sound) Toy.ir false = Ok rel
         ∧ (∀ a, a ∈ ir_indices Toy.ir ↔ is_Some (rel !! a))
         ∧ (∀ a ranking, rel !! a = Some ranking → ranking ≡ₚ seq 0 9).
Proof.
  eassert (Hrun : get_max_displacements (ext := Toy.sound) Toy.ir false = Ok _)
    by (vm_compute; reflexivity).
  assert (Hwf : well_formed Toy.ir).
  { split; [reflexivity | repeat constructor]. }
  destruct (atom_rankings_list_every_mode (ext := Toy.sound) _ _ _ Hwf Hrun) as [Hkeys Hperm].
  eexists. split; [exact Hrun|]. split; [exact Hkeys | exact Hperm].
Defined.

(** X19: the selection of atoms needs a mode that exists and moves at least two
    atoms: a mode out of range raises [IndexError], a mode of fewer than two
    atoms raises [ValueError], and a selection names atoms of the mode. *)
Theorem atom_selection_edge_cases (ir : Infrared) (n : nat) :
  (length (ir_modes ir) ≤ n →
   select_most_contributing_atoms ir n = Raise IndexError)
  ∧ (∀ d, ir_modes ir !! n = Some d → length d ≤ 1 →
       select_most_contributing_atoms ir n = Raise ValueError)
  ∧ (∀ d sel, ir_modes ir !! n = Some d →
       select_most_contributing_atoms ir n = Ok sel →
       Forall (λ a, a < length d) sel).
Proof.
  unfold select_most_contributing_atoms, get_mode, index.
  split; [|split].
  - intros Hn. by rewrite lookup_ge_None_2.
  - intros d -> Hd. simpl.
    destruct d as [|v [|v' d']]; [done | done | simpl in Hd; lia].
  - intros d sel -> H. simpl in H.
    apply bind_Ok in H as (largest & _ & H).
    apply bind_Ok in H as (gap & _ & H). injection H as <-.
    pose proof (above_gap_in_range (atom_relative_contribution d largest) gap)
      as Hrange.
    assert (Hl : length (atom_relative_contribution d largest) = length d).
    { unfold atom_relative_contribution. by rewrite !length_map. }
    by rewrite Hl in Hrange.
Qed.

Lemma atom_selection_edge_cases_witness :
  select_most_contributing_atoms Toy.ir 9 = Raise IndexError
  ∧ select_most_contributing_atoms
      (Toy.infrared (Build_Atoms ["He"] [Toy.place 0])) 0 = Raise ValueError
  ∧ ∃ sel, select_most_contributing_atoms Toy.ir 7 = Ok sel
           ∧ Forall (λ a, a < 3) sel.
Proof.
  split; [|split].
  - apply (atom_selection_edge_cases Toy.ir 9). vm_compute. lia.
  - eapply (atom_selection_edge_cases
              (Toy.infrared (Build_Atoms ["He"] [Toy.place 0])) 0).
    + reflexivity.
    + simpl. lia.
  - eassert (Hrun : select_most_contributing_atoms Toy.ir 7 = Ok _)
      by (vm_compute; reflexivity).
    eexists. split; [exact Hrun|].
    destruct (atom_selection_edge_cases Toy.ir 7) as (_ & _ & Hsel).
    exact (Hsel _ _ eq_refl Hrun).
Defined.

(** The entries of a successful [compile_modes_info], one by one. *)
Lemma compile_modes_info_entries {ext : Externals} (ir : Infrared)
    (linear : bool) (alignments : list float)
    (bond_displacements : option (list (list float)))
    (bonds : option (list (nat * nat))) (raman : option (list float))
    (modes : list ModeInfo) (has_imaginary has_large_imaginary : bool) :
  compile_modes_info ir linear alignments bond_displacements bonds raman
    = Ok (modes, has_imaginary, has_large_imaginary) →
  ∃ third,
    index (sorted_reverse alignments) 2 = Ok third
    ∧ Forall (λ m, ∃ n fc,
                mode_entry ir linear alignments third bond_displacements bonds
                  raman (3 * length (ir_indices ir)) n = Ok (m, fc))
        modes.
Proof.
  intros H. unfold compile_modes_info in H.
  apply bind_Ok in H as (third & Hthird & H).
  apply modes_loop_Ok in H as (entries & Hout & Hall).
  simpl in Hout. subst modes. exists third. split; [done|].
  apply Forall_forall. intros m Hm.
  apply list_elem_of_lookup in Hm as [i Hi].
  destruct (Forall2_lookup_r _ _ _ _ _ Hall Hi) as (k & _ & n & fc & _ & He).
  eauto.
Qed.

(** X20: when the Raman run succeeded its data reach the result: the spectrum of
    the same length as the infrared one, and for every mode the intensity at
    the mode's own index; if the two spectra differ in length there is no
    result but an [AssertionError]. *)
Theorem raman_data_reaches_result {ext : Externals} (atoms : Atoms)
    (mol : Mol) (linear : bool) (moi : list float) (ir : Infrared)
    (raman_intensities raman_spectrum : list float) :
  (∀ r, assemble atoms mol linear moi ir
          (Some (raman_intensities, raman_spectrum)) = Ok r →
     ramanIntensities r = Some raman_spectrum
     ∧ length raman_spectrum = length (wavenumbers r)
     ∧ Forall (λ m, ∃ x, raman_intensities !! number m = Some x
                         ∧ ramanIntensity m = Some x)
         (modes r))
  ∧ (length (ir_get_spectrum ir).1 ≠ length raman_spectrum →
     assemble atoms mol linear moi ir
       (Some (raman_intensities, raman_spectrum)) = Raise AssertionError).
Proof.
  split.
  - intros r H.
    assert (Hsame : length (ir_get_spectrum ir).1 = length raman_spectrum).
    { unfold assemble in H. by case_decide. }
    apply assemble_Ok in H
      as (Hw & _ & _ & Hr & _ & bd & al & hi & hl & _ & _ & Hmodes).
    split; [done|]. split; [by rewrite Hw|].
    apply compile_modes_info_entries in Hmodes as (third & _ & Hall).
    eapply Forall_impl; [exact Hall|]. intros m (n & fc & He). simpl.
    apply mode_entry_Ok in He as (-> & _ & Hraman & _).
    simpl in Hraman. unfold fmap, res_fmap in Hraman.
    destruct (index raman_intensities n) as [x|] eqn:Hx; [|discriminate].
    injection Hraman as <-. apply index_Ok in Hx. eauto.
  - intros Hdiff. unfold assemble. by case_decide.
Qed.

Lemma raman_data_reaches_result_witness :
  (∃ r, assemble (ext := Toy.sound) Toy.water_atoms Toy.water false
          [1; 2; 3]%float Toy.ir
          (Some ([1; 2; 3; 4; 5; 6; 7; 8; 9]%float, [3; 1; 4]%float)) = Ok r
        ∧ ramanIntensities r = Some [3; 1; 4]%float
        ∧ Forall (λ m, ∃ x, [1; 2; 3; 4; 5; 6; 7; 8; 9]%float !! number m
                            = Some x
                            ∧ ramanIntensity m = Some x)
            (modes r))
  ∧ assemble (ext := Toy.sound) Toy.water_atoms Toy.water false
      [1; 2; 3]%float Toy.ir
      (Some ([1; 2; 3; 4; 5; 6; 7; 8; 9]%float, [3; 1]%float))
    = Raise AssertionError.
Proof.
  split.
  - eassert (Hrun : assemble (ext := Toy.sound) Toy.water_atoms Toy.water
                      false [1; 2; 3]%float Toy.ir
                      (Some ([1; 2; 3; 4; 5; 6; 7; 8; 9]%float,
                             [3; 1; 4]%float)) = Ok _)
      by (vm_compute; reflexivity).
    destruct (raman_data_reaches_result (ext := Toy.sound) Toy.water_atoms
                Toy.water false [1; 2; 3]%float Toy.ir
                [1; 2; 3; 4; 5; 6; 7; 8; 9]%float [3; 1; 4]%float)
      as [Hdata _].
    destruct (Hdata _ Hrun) as (Hspectrum & _ & Hmodes).
    eexists. split; [exact Hrun|]. split; [exact Hspectrum | exact Hmodes].
  - apply (raman_data_reaches_result (ext := Toy.sound) Toy.water_atoms
             Toy.water false [1; 2; 3]%float Toy.ir
             [1; 2; 3; 4; 5; 6; 7; 8; 9]%float [3; 1]%float).
    simpl. lia.
Defined.

(** X21: in a molecule that is not linear, mode 5 is a rotation when its alignment
    score is undefined ([nan]): the comparison with the third best score is
    then false. *)
Theorem undefined_alignment_is_rotation {ext : Externals} (ir : Infrared)
    (alignments : list float)
    (bond_displacements : option (list (list float)))
    (bonds : option (list (nat * nat))) (raman : option (list float))
    (modes : list ModeInfo) (has_imaginary has_large_imaginary : bool)
    (a : float) :
  compile_modes_info ir false alignments bond_displacements bonds raman
    = Ok (modes, has_imaginary, has_large_imaginary) →
  alignments !! 5 = Some a →
  np.isnan a = true →
  ∀ m, m ∈ modes → number m = 5 → modeType m = rotation.
Proof.
  intros H Ha Hnan m Hm Hnum.
  apply compile_modes_info_entries in H as (third & _ & Hall).
  eapply Forall_forall in Hall as (n & fc & He); [|exact Hm].
  apply mode_entry_Ok in He as (Hn & Hty & _).
  rewrite Hnum in Hn. subst n.
  unfold mode_type in Hty. simpl in Hty.
  unfold index in Hty. rewrite Ha in Hty. simpl in Hty.
  unfold np.ge in Hty. rewrite leb_nan in Hty by (by right).
  by injection Hty as <-.
Qed.

Lemma undefined_alignment_is_rotation_witness :
  ∃ modes has_imaginary has_large_imaginary,
    compile_modes_info (ext := Toy.sound) Toy.ir false
      [9; 8; 7; 6; 5; nan; 3; 2; 1]%float
      (Some Toy.bond_rows) (Some (mol_bonds Toy.water)) None
      = Ok (modes, has_imaginary, has_large_imaginary)
    ∧ ∀ m, m ∈ modes → number m = 5 → modeType m = rotation.
Proof.
  eassert (Hrun : compile_modes_info (ext := Toy.sound) Toy.ir false
                    [9; 8; 7; 6; 5; nan; 3; 2; 1]%float
                    (Some Toy.bond_rows) (Some (mol_bonds Toy.water)) None
                  = Ok (_, _, _))
    by (vm_compute; reflexivity).
  eexists _, _, _. split; [exact Hrun|].
  apply (undefined_alignment_is_rotation (ext := Toy.sound) _ _ _ _ _ _ _ _
           nan Hrun); reflexivity.
Defined.
